(** * ExplicitlyDesktop: a shallow embedding of the delayed filtering pipeline

    The development follows the C++ sources under [Source/]:
    [LockFreeQueue.h], [CircularBuffer.h], [CensorshipEngine.h],
    [ProfanityFilter.h], [LyricsAlignment.cpp], [TimestampRefiner.cpp],
    [QualityAnalyzer.cpp] and [AudioEngine.cpp].

    Conventions of the embedding.
    - [int], [int64_t] and [size_t] values are integers in [Z]; the
      development never relies on wrap-around of these types.
    - [float] and [double] values are exact rationals in [Q]: rounding is
      not modelled.  Casts [(int)x] truncate towards zero ([Qtrunc]).
    - [std::vector] is a [list], indexed through [Z.to_nat] with stdpp's
      lookup and insert.
    - [std::string] is [string]; characters are classified as in the "C"
      locale.
    - member variables become record fields and every method is a function
      from the old state to the result and the new state. *)

From Stdlib Require Import ZArith QArith Qround Qabs Bool List Ascii String Lia Lqa.
From Stdlib Require Import Sorted.
From stdpp Require Import base list gmap strings.

Local Open Scope Z_scope.

(** Truncation towards zero, the semantics of a C++ [(int)] cast. *)
Definition Qtrunc (q : Q) : Z := Z.quot (Qnum q) (Z.pos (Qden q)).

(** [x < y] on floating-point values. *)
Definition Qltb (x y : Q) : bool := negb (Qle_bool y x).

(** Reading a vector at an [int] index; [d] stands for what an out of range
    read would give (the sources guard their indices). *)
Definition vget {A} (d : A) (v : list A) (i : Z) : A :=
  if (i <? 0)%Z then d else default d (v !! Z.to_nat i).

(** Writing a vector at an [int] index (no effect out of range). *)
Definition vset {A} (v : list A) (i : Z) (x : A) : list A :=
  if (i <? 0)%Z then v else <[Z.to_nat i := x]> v.

(** [for (i = lo; i < hi; ++i) body], threading the state. *)
Definition for_loop {S} (lo hi : Z) (body : Z -> S -> S) (s : S) : S :=
  foldl (fun acc i => body i acc) s (seqZ lo (hi - lo)).

(** [for (i = lo; i < hi; i += step) body], for a positive [step]. *)
Definition for_loop_step {S} (lo hi step : Z) (body : Z -> S -> S) (s : S) : S :=
  foldl (fun acc k => body (lo + k * step) acc) s
        (seqZ 0 (if hi <=? lo then 0 else (hi - lo + step - 1) / step)).

(** ** LockFreeQueue.h *)
Module LockFreeQueue.

Section Queue.
Context {T : Type}.
(** The template parameter [Capacity]. *)
Variable Capacity : Z.

Record t := mk {
  head_ : Z;          (* consumer index *)
  tail_ : Z;          (* producer index *)
  data_ : list T      (* fixed-size storage, [Capacity] cells *)
}.

(** The constructor: both indices at 0 ([fill] stands for the
    value-initialised cells of [std::array]). *)
Definition create (fill : T) : t :=
  mk 0 0 (replicate (Z.to_nat Capacity) fill).

Definition increment (idx : Z) : Z := Z.land (idx + 1) (Capacity - 1).

Definition push (item : T) (q : t) : bool * t :=
  let current_tail := tail_ q in
  let next_tail := increment current_tail in
  if next_tail =? head_ q then (false, q)
  else (true, mk (head_ q) next_tail (vset (data_ q) current_tail item)).

Definition pop (q : t) : option T * t :=
  let current_head := head_ q in
  if current_head =? tail_ q then (None, q)
  else (data_ q !! Z.to_nat current_head,
        mk (increment current_head) (tail_ q) (data_ q)).

Definition isEmpty (q : t) : bool := head_ q =? tail_ q.

Definition isFull (q : t) : bool := increment (tail_ q) =? head_ q.

Definition size (q : t) : Z :=
  let h := head_ q in
  let t := tail_ q in
  if t >=? h then t - h else Capacity - h + t.

(** A producer that pushes every item of [items] while nobody pops;
    returns the outcome of each push, in order. *)
Fixpoint pushAll (items : list T) (q : t) : list bool * t :=
  match items with
  | [] => ([], q)
  | x :: rest =>
      let '(ok, q1) := push x q in
      let '(oks, q2) := pushAll rest q1 in
      (ok :: oks, q2)
  end.
End Queue.

Arguments t : clear implicits.
Arguments mk {T} _ _ _.

(** Number of accepted and of rejected pushes in a list of outcomes. *)
Definition accepted (oks : list bool) : Z := Z.of_nat (length (filter (fun b => b = true) oks)).

End LockFreeQueue.

(** ** CensorshipEngine.h *)
Module CensorshipEngine.

Inductive CensorMode := Reverse | Mute.

(** [juce::AudioBuffer<float>]: [numSamples] samples in every channel. *)
Record AudioBuffer := mkBuffer {
  numSamples : Z;
  channels : list (list Q)
}.

Definition getNumChannels (b : AudioBuffer) : Z := Z.of_nat (length (channels b)).

(** [for (ch = 0; ch < num_channels; ++ch)] with a body that only touches
    channel [ch]. *)
Definition each_channel (f : list Q -> list Q) (b : AudioBuffer) : AudioBuffer :=
  mkBuffer (numSamples b) (f <$> channels b).

Definition calculateFadeSamples (sample_rate : Z) : Z :=
  let fade_duration_ms := 5 # 1 in
  Qtrunc (inject_Z sample_rate * fade_duration_ms / (1000 # 1)).

Definition fadeInGain (i length : Z) : Q := inject_Z i / inject_Z length.
Definition fadeOutGain (i length : Z) : Q := 1 - inject_Z i / inject_Z length.

Definition applyFadeIn (b : AudioBuffer) (start length : Z) : AudioBuffer :=
  each_channel (fun channel_data =>
    for_loop 0 length (fun i data =>
      let idx := start + i in
      if (0 <=? idx) && (idx <? numSamples b)
      then vset data idx (vget 0%Q data idx * fadeInGain i length)%Q
      else data) channel_data) b.

Definition applyFadeOut (b : AudioBuffer) (start length : Z) : AudioBuffer :=
  each_channel (fun channel_data =>
    for_loop 0 length (fun i data =>
      let idx := start + i in
      if (0 <=? idx) && (idx <? numSamples b)
      then vset data idx (vget 0%Q data idx * fadeOutGain i length)%Q
      else data) channel_data) b.

Definition muteSamples (b : AudioBuffer) (start_sample end_sample sample_rate : Z)
  : AudioBuffer :=
  let length := end_sample - start_sample in
  if length <=? 0 then b else
  let fade_samples := calculateFadeSamples sample_rate in
  let b1 := applyFadeOut b start_sample fade_samples in
  let zero_start := start_sample + fade_samples in
  let zero_end := end_sample - fade_samples in
  let b2 :=
    if zero_end >? zero_start then
      each_channel (fun channel_data =>
        for_loop zero_start (Z.min zero_end (numSamples b1))
          (fun i data => vset data i 0%Q) channel_data) b1
    else b1 in
  applyFadeIn b2 (end_sample - fade_samples) fade_samples.

Definition reverseSamples (b : AudioBuffer) (start_sample end_sample sample_rate : Z)
  : AudioBuffer :=
  let length := end_sample - start_sample in
  if length <=? 0 then b else
  let fade_samples := calculateFadeSamples sample_rate in
  let b1 :=
    each_channel (fun channel_data =>
      for_loop 0 (Z.quot length 2) (fun i data =>
        let left_idx := start_sample + i in
        let right_idx := end_sample - 1 - i in
        if (left_idx >=? 0) && (right_idx <? numSamples b)
           && (left_idx <? numSamples b) && (right_idx >=? 0)
        then vset (vset data left_idx (vget 0%Q data right_idx))
                  right_idx (vget 0%Q data left_idx)
        else data) channel_data) b in
  let b2 := applyFadeIn b1 start_sample fade_samples in
  applyFadeOut b2 (end_sample - fade_samples) fade_samples.

Definition applyCensorship (b : AudioBuffer) (start end_ : Z) (mode : CensorMode)
    (sample_rate : Z) : AudioBuffer :=
  match mode with
  | Reverse => reverseSamples b start end_ sample_rate
  | Mute => muteSamples b start end_ sample_rate
  end.

(** Reading sample [j] of channel [ch] back. *)
Definition sampleAt (b : AudioBuffer) (ch : nat) (j : Z) : Q :=
  vget 0%Q (default [] (channels b !! ch)) j.

End CensorshipEngine.

(** ** Characters and strings, as [<cctype>] and [std::string] treat them *)
Module Text.

Definition code (c : ascii) : N := N_of_ascii c.
Definition between (lo hi : N) (c : ascii) : bool :=
  ((lo <=? code c) && (code c <=? hi))%N.

Definition isupper (c : ascii) : bool := between 65 90 c.
Definition islower (c : ascii) : bool := between 97 122 c.
Definition isdigit (c : ascii) : bool := between 48 57 c.
Definition isalnum (c : ascii) : bool := isupper c || islower c || isdigit c.
(** space, and the controls tab, newline, vertical tab, form feed, return *)
Definition isspace (c : ascii) : bool := (code c =? 32)%N || between 9 13 c.
Definition tolower (c : ascii) : ascii :=
  if isupper c then ascii_of_N (code c + 32) else c.
Definition toupper (c : ascii) : ascii :=
  if islower c then ascii_of_N (code c - 32) else c.

Fixpoint transform (f : ascii -> ascii) (s : string) : string :=
  match s with
  | EmptyString => EmptyString
  | String c rest => String (f c) (transform f rest)
  end.

(** [s.erase(std::remove_if(..., p), s.end())]: drop the characters
    satisfying [p]. *)
Fixpoint remove_if (p : ascii -> bool) (s : string) : string :=
  match s with
  | EmptyString => EmptyString
  | String c rest => if p c then remove_if p rest else String c (remove_if p rest)
  end.

(** [while (iss >> word) words.push_back(word)]: the maximal runs of
    non-space characters; [cur] is the run being read. *)
Fixpoint extract_words (cur : string) (s : string) : list string :=
  match s with
  | EmptyString => if String.eqb cur EmptyString then [] else [cur]
  | String c rest =>
      if isspace c
      then (if String.eqb cur EmptyString then extract_words EmptyString rest
            else cur :: extract_words EmptyString rest)
      else extract_words (cur ++ String c EmptyString) rest
  end.

(** [for (i ...) { if (i > 0) result += " "; result += words[i]; }] *)
Fixpoint join_words (words : list string) : string :=
  match words with
  | [] => EmptyString
  | [w] => w
  | w :: rest => w ++ " " ++ join_words rest
  end.

(** [std::string::find(needle) != npos] *)
Fixpoint contains (needle s : string) : bool :=
  String.prefix needle s ||
  match s with
  | EmptyString => false
  | String _ rest => contains needle rest
  end.

Definition strlen (s : string) : Z := Z.of_nat (String.length s).

End Text.

(** ** ProfanityFilter.h *)
Module ProfanityFilter.
Import Text.

Record t := mk { lexicon_ : gset string }.

(** [isProfane(const std::string&)] *)
Definition isProfane (f : t) (word : string) : bool :=
  let lower := transform tolower word in
  bool_decide (lower ∈ lexicon_ f).

(** [isProfane(const juce::String&)]: lower-cases, then calls the
    overload above. *)
Definition isProfaneJuce (f : t) (word : string) : bool :=
  isProfane f (transform tolower word).

Definition size (f : t) : Z := Z.of_nat (size (lexicon_ f)).
Definition isLoaded (f : t) : bool := size f >? 0.

End ProfanityFilter.

(** ** LyricsAlignment.h, LyricsAlignment.cpp *)
Module LyricsAlignment.
Import Text.

Record WordSegment := mkWord {
  word : string;
  start : Q;         (* start time in seconds *)
  end_ : Q;          (* end time in seconds *)
  confidence : Q
}.

Record LyricsWord := mkLyricsWord {
  index : Z;
  lword : string;    (* normalized text *)
  soundex : string;
  isOptional : bool
}.

(** The forced-alignment state of the class. *)
Record t := mk {
  preprocessedLyrics : list LyricsWord;
  currentPosition : Z;
  locked : bool;
  consecutiveMatches : Z;
  initialized : bool
}.

(** A default-constructed aligner. *)
Definition fresh : t := mk [] 0 false 0 false.

Definition TEXT_MATCH_THRESHOLD : Q := 20 # 100.
Definition LOCK_THRESHOLD : Q := 80 # 100.
Definition LOCK_REQUIRED_MATCHES : Z := 2.

Definition normalizeText (text : string) : string :=
  let lowered := transform tolower text in
  let kept := remove_if (fun c => negb (isalnum c) && negb (isspace c)) lowered in
  join_words (extract_words EmptyString kept).

Definition splitIntoWords (text : string) : list string :=
  extract_words EmptyString (normalizeText text).

Definition soundexDigit (c : ascii) : ascii :=
  if existsb (Ascii.eqb c) ["b"; "f"; "p"; "v"]%char then "1"%char
  else if existsb (Ascii.eqb c) ["c"; "g"; "j"; "k"; "q"; "s"; "x"; "z"]%char then "2"%char
  else if existsb (Ascii.eqb c) ["d"; "t"]%char then "3"%char
  else if Ascii.eqb c "l" then "4"%char
  else if existsb (Ascii.eqb c) ["m"; "n"]%char then "5"%char
  else if Ascii.eqb c "r" then "6"%char
  else "0"%char.

Definition back (d : ascii) (s : string) : ascii :=
  match String.get (String.length s - 1) s with Some c => c | None => d end.

(** The encoding loop: stops once the code has four characters. *)
Fixpoint soundexLoop (rest : string) (code_ : string) : string :=
  match rest with
  | EmptyString => code_
  | String c rest' =>
      if (String.length code_ <? 4)%nat then
        let digit := soundexDigit c in
        if negb (Ascii.eqb digit "0") &&
           (String.eqb code_ EmptyString || negb (Ascii.eqb (back "0" code_) digit))
        then soundexLoop rest' (code_ ++ String digit EmptyString)
        else soundexLoop rest' code_
      else code_
  end.

Fixpoint padZeros (fuel : nat) (code_ : string) : string :=
  match fuel with
  | O => code_
  | S k => if (String.length code_ <? 4)%nat
           then padZeros k (code_ ++ "0") else code_
  end.

Definition soundexEncode (w : string) : string :=
  if String.eqb w EmptyString then EmptyString else
  let normalized := normalizeText w in
  match normalized with
  | EmptyString => EmptyString
  | String c0 rest =>
      let code_ := soundexLoop rest (String (toupper c0) EmptyString) in
      String.substring 0 4 (padZeros 4 code_)
  end.

Definition isReady (a : t) : bool :=
  initialized a && negb (bool_decide (preprocessedLyrics a = [])).
Definition getCurrentPosition (a : t) : Z := currentPosition a.
Definition getTotalWords (a : t) : Z := Z.of_nat (length (preprocessedLyrics a)).
Definition isLocked (a : t) : bool := locked a.

Definition setLyrics (lyrics : string) (a : t) : t :=
  let words := splitIntoWords lyrics in
  mk (imap (fun i w => mkLyricsWord (Z.of_nat i) w (soundexEncode w) false) words)
     0 false 0 true.

Definition reset (a : t) : t := mk [] 0 false 0 false.

(** [combined += normalizeText(word.word) + " "] over all words *)
Definition concatWith (f : string -> string) (ws : list string) : string :=
  fold_left (fun acc w => acc ++ f w ++ " ")%string ws EmptyString.

Definition isNonLyricalContent (words : list WordSegment) : bool :=
  match words with
  | [] => true
  | _ =>
    let combined := normalizeText (concatWith normalizeText (map word words)) in
    if String.eqb combined EmptyString || (strlen combined <? 2) then true
    else contains "music" combined || contains "applause" combined
         || contains "laughter" combined || contains "instrumental" combined
  end.

Definition min3 (a b c : Z) : Z := Z.min a (Z.min b c).

(** Row [i] of the edit-distance matrix from row [i-1]: [diag] is
    [dp[i-1][j-1]], [up] runs over [dp[i-1][j..]], [left] is [dp[i][j-1]]. *)
Fixpoint levRow (c1 : ascii) (s2 : string) (diag : Z) (up : list Z) (left : Z) : list Z :=
  match s2, up with
  | String c2 s2', u :: up' =>
      let v := if Ascii.eqb c1 c2 then diag else 1 + min3 u left diag in
      v :: levRow c1 s2' u up' v
  | _, _ => []
  end.

(** All rows in turn; [row] is [dp[i-1][0..n]] and the result the last row. *)
Fixpoint levRows (s1 s2 : string) (row : list Z) : list Z :=
  match s1 with
  | EmptyString => row
  | String c1 s1' =>
      match row with
      | [] => []
      | d0 :: up => levRows s1' s2 ((d0 + 1) :: levRow c1 s2 d0 up (d0 + 1))
      end
  end.

Definition editDistance (s1 s2 : string) : Z :=
  List.last (levRows s1 s2 (seqZ 0 (strlen s2 + 1))) 0.

Definition calculateSimilarity (text1 text2 : string) : Q :=
  let s1 := normalizeText text1 in
  let s2 := normalizeText text2 in
  if String.eqb s1 EmptyString && String.eqb s2 EmptyString then 1
  else if String.eqb s1 EmptyString || String.eqb s2 EmptyString then 0
  else if String.eqb s1 s2 then 1
  else
    let m := strlen s1 in
    let n := strlen s2 in
    let distance := editDistance s1 s2 in
    let maxLen := Z.max m n in
    1 - inject_Z distance / inject_Z maxLen.

Definition lyricsAt (a : t) (i : Z) : string :=
  lword (vget (mkLyricsWord 0 EmptyString EmptyString false) (preprocessedLyrics a) i).

(** Returns the best position (-1 when none) and its score. *)
Definition findBestStartPosition (a : t) (transcribedWords : list WordSegment)
    (searchStart searchEnd : Z) : Z * Q :=
  let total := getTotalWords a in
  let transcribedText :=
    normalizeText (concatWith (fun w => w) (map word transcribedWords)) in
  for_loop searchStart (Z.min searchEnd total)
    (fun pos '(bestPosition, bestScore) =>
       let endPos := Z.min (pos + Z.of_nat (length transcribedWords)) total in
       let lyricsText :=
         normalizeText
           (for_loop pos endPos (fun i acc => acc ++ lyricsAt a i ++ " ")%string EmptyString) in
       let score := calculateSimilarity transcribedText lyricsText in
       if Qltb bestScore score then (pos, score) else (bestPosition, bestScore))
    (-1, 0%Q).

Definition sumConfidence (ws : list WordSegment) : Q :=
  fold_left (fun acc w => acc + confidence w)%Q ws 0%Q.

(** The loop leaves at the first [lyricsIdx >= size], so it runs over
    [i < min(lyricsCount, size - lyricsStart)]. *)
Definition mapTimestamps (a : t) (lyricsStart lyricsCount : Z)
    (transcribed : list WordSegment) : list WordSegment :=
  match transcribed with
  | [] => []
  | front :: _ =>
    if lyricsCount =? 0 then [] else
    let startTime := start front in
    let endTime := end_ (List.last transcribed front) in
    let totalDuration := (endTime - startTime)%Q in
    let timePerWord := (totalDuration / inject_Z lyricsCount)%Q in
    let avgConf := (sumConfidence transcribed / inject_Z (Z.of_nat (length transcribed)))%Q in
    for_loop 0 (Z.min lyricsCount (getTotalWords a - lyricsStart))
      (fun i result =>
         let lyricsIdx := lyricsStart + i in
         let wordStart := (startTime + inject_Z i * timePerWord)%Q in
         let wordEnd := (wordStart + timePerWord)%Q in
         result ++ [mkWord (lyricsAt a lyricsIdx) wordStart wordEnd (avgConf * (95 # 100))%Q])
      []
  end.

Definition WORDS_PER_SECOND : Q := 35 # 10.

(** Step 2 of [alignChunk]: the position estimated from the elapsed time,
    and the unlock on a large jump. *)
Definition estimatePosition (a : t) (absoluteTime : Q) : Z :=
  if Qltb 0 absoluteTime then Qtrunc (absoluteTime * WORDS_PER_SECOND)
  else currentPosition a.

Definition unlockOnJump (a : t) (absoluteTime : Q) : t :=
  if Qltb 0 absoluteTime then
    let positionDelta := Z.abs (estimatePosition a absoluteTime - currentPosition a) in
    if (positionDelta >? 20) && locked a
    then mk (preprocessedLyrics a) (currentPosition a) false 0 (initialized a)
    else a
  else a.

(** Step 3: the search range [searchStart, searchEnd). *)
Definition searchRange (a : t) (estimatedPosition : Z) : Z * Z :=
  if negb (locked a) || (currentPosition a =? 0) then
    let TIME_BASED_WINDOW := 30 in
    (Z.max 0 (estimatedPosition - TIME_BASED_WINDOW),
     Z.min (getTotalWords a) (estimatedPosition + TIME_BASED_WINDOW))
  else
    (currentPosition a, Z.min (getTotalWords a) (currentPosition a + 10)).

Definition withState (a : t) (pos : Z) (lk : bool) (cm : Z) : t :=
  mk (preprocessedLyrics a) pos lk cm (initialized a).

Definition alignChunk (a : t) (transcribedWords : list WordSegment) (absoluteTime : Q)
  : list WordSegment * t :=
  if negb (initialized a) || bool_decide (preprocessedLyrics a = [])
  then (transcribedWords, a)
  else if bool_decide (transcribedWords = []) then (transcribedWords, a)
  else if isNonLyricalContent transcribedWords then (transcribedWords, a)
  else
    let estimatedPosition := estimatePosition a absoluteTime in
    let a1 := unlockOnJump a absoluteTime in
    let '(searchStart, searchEnd) := searchRange a1 estimatedPosition in
    let '(matchPosition, matchScore) :=
      findBestStartPosition a1 transcribedWords searchStart searchEnd in
    if matchPosition <? 0 then
      (transcribedWords, withState a1 (currentPosition a1) false 0)
    else if Qle_bool LOCK_THRESHOLD matchScore then
      let cm := consecutiveMatches a1 + 1 in
      let lk := if cm >=? LOCK_REQUIRED_MATCHES then true else locked a1 in
      let wordCount := Z.min (Z.of_nat (length transcribedWords))
                             (getTotalWords a1 - matchPosition) in
      let aligned := mapTimestamps a1 matchPosition wordCount transcribedWords in
      (aligned, withState a1 (matchPosition + wordCount) lk cm)
    else if Qle_bool TEXT_MATCH_THRESHOLD matchScore then
      let wordCount := Z.min (Z.of_nat (length transcribedWords))
                             (getTotalWords a1 - matchPosition) in
      let aligned := mapTimestamps a1 matchPosition wordCount transcribedWords in
      (aligned, withState a1 (matchPosition + wordCount) false 0)
    else
      (transcribedWords, withState a1 (currentPosition a1) false 0).

Definition ESTIMATED_WORDS_PER_SECOND : Q := 35 # 10.

Definition predictNextWords (a : t) (duration : Q) : list WordSegment * t :=
  if negb (isReady a) || (currentPosition a >=? getTotalWords a) then ([], a)
  else
    let numWords := Z.min (Qtrunc (duration * ESTIMATED_WORDS_PER_SECOND))
                          (getTotalWords a - currentPosition a) in
    let wordDuration := (duration / inject_Z numWords)%Q in
    let predictedWords :=
      for_loop 0 numWords
        (fun i acc =>
           let startTime := (inject_Z i * wordDuration)%Q in
           let endTime := (startTime + wordDuration)%Q in
           acc ++ [mkWord (lyricsAt a (currentPosition a + i)) startTime endTime (5 # 10)])
        [] in
    (predictedWords,
     withState a (currentPosition a + numWords) (locked a) (consecutiveMatches a)).


End LyricsAlignment.

(** ** TimestampRefiner.h, TimestampRefiner.cpp *)
Module TimestampRefiner.
Import LyricsAlignment.

Definition ENERGY_THRESHOLD : Q := 1 # 1000.
Definition ZC_THRESHOLD : Q := 1 # 10.
Definition WINDOW_SIZE : Z := 480.
Definition SEARCH_RADIUS : Z := 38400.
Definition MIN_WORD_DURATION : Q := 5 # 100.
Definition MAX_WORD_DURATION : Q := 2.
Definition INT_MAX : Z := 2147483647.

Section Refiner.
(** [std::sqrt] on [float]; the refiner is modelled for any such
    function. *)
Variable sqrtf : Q -> Q.

Definition asize (audio : list Q) : Z := Z.of_nat (length audio).

Definition calculateEnergy (audio : list Q) (start length : Z) : Q :=
  if (start <? 0) || (start + length >? asize audio) then 0
  else
    let sum := for_loop start (start + length)
                 (fun i sum => let sample := vget 0%Q audio i in
                               (sum + sample * sample)%Q) 0%Q in
    sqrtf (sum / inject_Z length).

Definition calculateZeroCrossing (audio : list Q) (start length : Z) : Q :=
  if (start <? 0) || (start + length >? asize audio) then 0
  else
    let crossings := for_loop (start + 1) (start + length)
      (fun i crossings =>
         let cur := vget 0%Q audio i in
         let prev := vget 0%Q audio (i - 1) in
         if (Qle_bool 0 cur && Qltb prev 0) || (Qltb cur 0 && Qle_bool 0 prev)
         then crossings + 1 else crossings) 0 in
    (inject_Z crossings / inject_Z length)%Q.

Definition findBestBoundary (audio : list Q) (centerSample searchRadius sampleRate : Z)
    (findStart : bool) : Q :=
  let searchStart := Z.max 0 (centerSample - (if findStart then searchRadius else 0)) in
  let searchEnd :=
    Z.min (asize audio) (centerSample + (if findStart then 0 else searchRadius)) in
  let '(bestScore, bestSample) :=
    for_loop_step searchStart searchEnd (Z.quot WINDOW_SIZE 4)
      (fun i '(bestScore, bestSample) =>
         if (i <? WINDOW_SIZE) || (i + WINDOW_SIZE >=? asize audio)
         then (bestScore, bestSample)
         else
           let energyBefore := calculateEnergy audio (i - WINDOW_SIZE) WINDOW_SIZE in
           let energyAfter := calculateEnergy audio i WINDOW_SIZE in
           let gradient := Qabs (energyAfter - energyBefore) in
           let score := if findStart then (energyAfter - energyBefore)%Q
                        else (energyBefore - energyAfter)%Q in
           if Qltb bestScore score && Qltb ENERGY_THRESHOLD gradient
           then (score, i) else (bestScore, bestSample))
      ((-1)%Q, centerSample) in
  (inject_Z bestSample / inject_Z sampleRate)%Q.

(** The regions of consecutive speech windows in [searchStart, searchEnd). *)
Definition energyRegions (audio : list Q) (searchStart searchEnd : Z) : list (Z * Z) :=
  let '(regions, inSpeech, regionStart) :=
    for_loop_step searchStart searchEnd WINDOW_SIZE
      (fun i '(regions, inSpeech, regionStart) =>
         let energy := calculateEnergy audio i WINDOW_SIZE in
         let zc := calculateZeroCrossing audio i WINDOW_SIZE in
         let isSpeech := Qltb ENERGY_THRESHOLD energy && Qltb ZC_THRESHOLD zc in
         if isSpeech && negb inSpeech then (regions, true, i)
         else if negb isSpeech && inSpeech then (regions ++ [(regionStart, i)], false, regionStart)
         else (regions, inSpeech, regionStart))
      ([], false, 0) in
  if inSpeech : bool then regions ++ [(regionStart, searchEnd)] else regions.

(** The region whose centre is closest to the centre of the estimate,
    regions before it counting for 80% of their distance. *)
Definition closestRegion (regions : list (Z * Z)) (whisperCenter : Z) (first : Z * Z)
  : Z * Z :=
  snd (fold_left
         (fun '(closestDist, bestRegion) region =>
            let regionCenter := Z.quot (fst region + snd region) 2 in
            let dist := Z.abs (regionCenter - whisperCenter) in
            let dist := if regionCenter <? whisperCenter
                        then Qtrunc (inject_Z dist * (8 # 10)) else dist in
            if dist <? closestDist then (dist, region) else (closestDist, bestRegion))
         regions (INT_MAX, first)).

Definition searchForSpeech (audio : list Q) (whisperStart whisperEnd : Q)
    (sampleRate : Z) : Q * Q :=
  let whisperStartSample := Qtrunc (whisperStart * inject_Z sampleRate) in
  let whisperEndSample := Qtrunc (whisperEnd * inject_Z sampleRate) in
  let whisperStartSample := Z.max 0 (Z.min whisperStartSample (asize audio - 1)) in
  let whisperEndSample :=
    Z.max whisperStartSample (Z.min whisperEndSample (asize audio)) in
  let searchRadius := SEARCH_RADIUS in
  let searchStart := Z.max 0 (whisperStartSample - searchRadius) in
  let searchEnd := Z.min (asize audio) (whisperEndSample + searchRadius) in
  match energyRegions audio searchStart searchEnd with
  | [] => (whisperStart, whisperEnd)
  | (first :: _) as regions =>
      let whisperCenter := Z.quot (whisperStartSample + whisperEndSample) 2 in
      let bestRegion := closestRegion regions whisperCenter first in
      let refinedStart :=
        findBestBoundary audio (fst bestRegion) (WINDOW_SIZE * 4) sampleRate true in
      let refinedEnd :=
        findBestBoundary audio (snd bestRegion) (WINDOW_SIZE * 4) sampleRate false in
      let refinedEnd := if Qle_bool refinedEnd refinedStart
                        then (refinedStart + MIN_WORD_DURATION)%Q else refinedEnd in
      let refinedEnd := if Qltb MAX_WORD_DURATION (refinedEnd - refinedStart)
                        then (refinedStart + MAX_WORD_DURATION)%Q else refinedEnd in
      (refinedStart, refinedEnd)
  end.

Definition refineWordTimestamp (w : WordSegment) (audio : list Q) (sampleRate : Z)
  : WordSegment :=
  let '(refinedStart, refinedEnd) :=
    searchForSpeech audio (start w) (end_ w) sampleRate in
  mkWord (word w) refinedStart refinedEnd (confidence w).
End Refiner.

(** A rational square root, exact on squares of rationals and accurate to
    24 fractional bits elsewhere; used to run the refiner on examples. *)
Definition sqrtApprox (q : Q) : Q :=
  let d := Z.pos (Qden q) in
  (inject_Z (Z.sqrt (Qnum q * d * 2 ^ 48)) / inject_Z (d * 2 ^ 24))%Q.

(** A 20 ms buffer at 48 kHz: one window of full-scale alternating
    samples followed by one window of silence. *)
Definition isolatedBurst : list Q :=
  concat (replicate 240 [1; -1]%Q) ++ replicate 480 0%Q.

End TimestampRefiner.

(** ** QualityAnalyzer.cpp (the counters and the event history) *)
Module QualityAnalyzer.

Record CensorshipEvent := mkEvent {
  ev_word : string;
  ev_timestamp : Q;
  wasCensored : bool;
  ev_mode : string
}.

Record t := mk {
  totalWordsDetected : Z;
  totalWordsCensored : Z;
  totalWordsSkipped : Z;
  multiWordDetections : Z;
  bufferUnderrunCount : Z;
  censorshipHistory : list CensorshipEvent
}.

Definition MAX_HISTORY_SIZE : Z := 1000.

Definition fresh : t := mk 0 0 0 0 0 [].

Definition recordCensorshipEvent (w : string) (timestamp : Q) (censored : bool)
    (mode : string) (isMultiWord : bool) (q : t) : t :=
  let history := censorshipHistory q ++ [mkEvent w timestamp censored mode] in
  let history := if Z.of_nat (length history) >? MAX_HISTORY_SIZE
                 then drop 1 history else history in
  mk (totalWordsDetected q + 1)
     (if censored then totalWordsCensored q + 1 else totalWordsCensored q)
     (if censored then totalWordsSkipped q else totalWordsSkipped q + 1)
     (if isMultiWord then multiWordDetections q + 1 else multiWordDetections q)
     (bufferUnderrunCount q)
     history.

Definition recordBufferUnderrun (q : t) : t :=
  mk (totalWordsDetected q) (totalWordsCensored q) (totalWordsSkipped q)
     (multiWordDetections q) (bufferUnderrunCount q + 1) (censorshipHistory q).

End QualityAnalyzer.

(** ** AudioEngine.h, AudioEngine.cpp

    The callback and the worker run on two threads; here each call of the
    callback and each call of [processTranscription] is one atomic step.
    Console output, the input level meter and the song recognition hook of
    the callback are left out: they do not touch the fields below. *)
Module AudioEngine.
Import LyricsAlignment.

Inductive CensorMode := Reverse | Mute.

Record t := mk {
  sampleRate : Z   (* int sampleRate *);
  chunkSeconds : Q;
  initialDelaySeconds : Q;
  currentCensorMode : CensorMode;
  audioBuffer : list Q   (* accumulation buffer, written by the callback *);
  processingBuffer : list Q   (* copy handed to the background thread *);
  bufferWritePos : Z;
  transcriptionInterval : Z;
  hasNewBuffer : bool   (* the worker still owns the previous chunk *);
  bufferCaptureTime : Q;
  wasWaiting : bool;
  debugCounter : Z;
  delayBuffer : list (list Q)   (* two channels of delayBufferSize samples *);
  delayBufferSize : Z;
  delayReadPos : Z;
  delayWritePos : Z;
  isRunning : bool;
  playbackStarted : bool;
  wasPaused : bool   (* the static local of the callback *);
  bufferUnderrun : bool;
  streamTime : Q;
  lastUnderrunWarningTime : Q;
  profanityFilter : ProfanityFilter.t;
  lyricsAlignment : LyricsAlignment.t;
  useLyricsAlignment : bool;
  songLyrics : string;
  songElapsedTime : Q;
  qualityAnalyzer : QualityAnalyzer.t
}.

Definition set_audioBuffer (v : list Q) (e : t) : t :=
  mk (sampleRate e) (chunkSeconds e) (initialDelaySeconds e) (currentCensorMode e) (v)
     (processingBuffer e) (bufferWritePos e) (transcriptionInterval e) (hasNewBuffer e)
     (bufferCaptureTime e) (wasWaiting e) (debugCounter e) (delayBuffer e)
     (delayBufferSize e) (delayReadPos e) (delayWritePos e) (isRunning e)
     (playbackStarted e) (wasPaused e) (bufferUnderrun e) (streamTime e)
     (lastUnderrunWarningTime e) (profanityFilter e) (lyricsAlignment e)
     (useLyricsAlignment e) (songLyrics e) (songElapsedTime e) (qualityAnalyzer e).
Definition set_processingBuffer (v : list Q) (e : t) : t :=
  mk (sampleRate e) (chunkSeconds e) (initialDelaySeconds e) (currentCensorMode e)
     (audioBuffer e) (v) (bufferWritePos e) (transcriptionInterval e) (hasNewBuffer e)
     (bufferCaptureTime e) (wasWaiting e) (debugCounter e) (delayBuffer e)
     (delayBufferSize e) (delayReadPos e) (delayWritePos e) (isRunning e)
     (playbackStarted e) (wasPaused e) (bufferUnderrun e) (streamTime e)
     (lastUnderrunWarningTime e) (profanityFilter e) (lyricsAlignment e)
     (useLyricsAlignment e) (songLyrics e) (songElapsedTime e) (qualityAnalyzer e).
Definition set_bufferWritePos (v : Z) (e : t) : t :=
  mk (sampleRate e) (chunkSeconds e) (initialDelaySeconds e) (currentCensorMode e)
     (audioBuffer e) (processingBuffer e) (v) (transcriptionInterval e) (hasNewBuffer e)
     (bufferCaptureTime e) (wasWaiting e) (debugCounter e) (delayBuffer e)
     (delayBufferSize e) (delayReadPos e) (delayWritePos e) (isRunning e)
     (playbackStarted e) (wasPaused e) (bufferUnderrun e) (streamTime e)
     (lastUnderrunWarningTime e) (profanityFilter e) (lyricsAlignment e)
     (useLyricsAlignment e) (songLyrics e) (songElapsedTime e) (qualityAnalyzer e).
Definition set_transcriptionInterval (v : Z) (e : t) : t :=
  mk (sampleRate e) (chunkSeconds e) (initialDelaySeconds e) (currentCensorMode e)
     (audioBuffer e) (processingBuffer e) (bufferWritePos e) (v) (hasNewBuffer e)
     (bufferCaptureTime e) (wasWaiting e) (debugCounter e) (delayBuffer e)
     (delayBufferSize e) (delayReadPos e) (delayWritePos e) (isRunning e)
     (playbackStarted e) (wasPaused e) (bufferUnderrun e) (streamTime e)
     (lastUnderrunWarningTime e) (profanityFilter e) (lyricsAlignment e)
     (useLyricsAlignment e) (songLyrics e) (songElapsedTime e) (qualityAnalyzer e).
Definition set_hasNewBuffer (v : bool) (e : t) : t :=
  mk (sampleRate e) (chunkSeconds e) (initialDelaySeconds e) (currentCensorMode e)
     (audioBuffer e) (processingBuffer e) (bufferWritePos e) (transcriptionInterval e)
     (v) (bufferCaptureTime e) (wasWaiting e) (debugCounter e) (delayBuffer e)
     (delayBufferSize e) (delayReadPos e) (delayWritePos e) (isRunning e)
     (playbackStarted e) (wasPaused e) (bufferUnderrun e) (streamTime e)
     (lastUnderrunWarningTime e) (profanityFilter e) (lyricsAlignment e)
     (useLyricsAlignment e) (songLyrics e) (songElapsedTime e) (qualityAnalyzer e).
Definition set_bufferCaptureTime (v : Q) (e : t) : t :=
  mk (sampleRate e) (chunkSeconds e) (initialDelaySeconds e) (currentCensorMode e)
     (audioBuffer e) (processingBuffer e) (bufferWritePos e) (transcriptionInterval e)
     (hasNewBuffer e) (v) (wasWaiting e) (debugCounter e) (delayBuffer e)
     (delayBufferSize e) (delayReadPos e) (delayWritePos e) (isRunning e)
     (playbackStarted e) (wasPaused e) (bufferUnderrun e) (streamTime e)
     (lastUnderrunWarningTime e) (profanityFilter e) (lyricsAlignment e)
     (useLyricsAlignment e) (songLyrics e) (songElapsedTime e) (qualityAnalyzer e).
Definition set_wasWaiting (v : bool) (e : t) : t :=
  mk (sampleRate e) (chunkSeconds e) (initialDelaySeconds e) (currentCensorMode e)
     (audioBuffer e) (processingBuffer e) (bufferWritePos e) (transcriptionInterval e)
     (hasNewBuffer e) (bufferCaptureTime e) (v) (debugCounter e) (delayBuffer e)
     (delayBufferSize e) (delayReadPos e) (delayWritePos e) (isRunning e)
     (playbackStarted e) (wasPaused e) (bufferUnderrun e) (streamTime e)
     (lastUnderrunWarningTime e) (profanityFilter e) (lyricsAlignment e)
     (useLyricsAlignment e) (songLyrics e) (songElapsedTime e) (qualityAnalyzer e).
Definition set_debugCounter (v : Z) (e : t) : t :=
  mk (sampleRate e) (chunkSeconds e) (initialDelaySeconds e) (currentCensorMode e)
     (audioBuffer e) (processingBuffer e) (bufferWritePos e) (transcriptionInterval e)
     (hasNewBuffer e) (bufferCaptureTime e) (wasWaiting e) (v) (delayBuffer e)
     (delayBufferSize e) (delayReadPos e) (delayWritePos e) (isRunning e)
     (playbackStarted e) (wasPaused e) (bufferUnderrun e) (streamTime e)
     (lastUnderrunWarningTime e) (profanityFilter e) (lyricsAlignment e)
     (useLyricsAlignment e) (songLyrics e) (songElapsedTime e) (qualityAnalyzer e).
Definition set_delayBuffer (v : list (list Q)) (e : t) : t :=
  mk (sampleRate e) (chunkSeconds e) (initialDelaySeconds e) (currentCensorMode e)
     (audioBuffer e) (processingBuffer e) (bufferWritePos e) (transcriptionInterval e)
     (hasNewBuffer e) (bufferCaptureTime e) (wasWaiting e) (debugCounter e) (v)
     (delayBufferSize e) (delayReadPos e) (delayWritePos e) (isRunning e)
     (playbackStarted e) (wasPaused e) (bufferUnderrun e) (streamTime e)
     (lastUnderrunWarningTime e) (profanityFilter e) (lyricsAlignment e)
     (useLyricsAlignment e) (songLyrics e) (songElapsedTime e) (qualityAnalyzer e).
Definition set_delayReadPos (v : Z) (e : t) : t :=
  mk (sampleRate e) (chunkSeconds e) (initialDelaySeconds e) (currentCensorMode e)
     (audioBuffer e) (processingBuffer e) (bufferWritePos e) (transcriptionInterval e)
     (hasNewBuffer e) (bufferCaptureTime e) (wasWaiting e) (debugCounter e)
     (delayBuffer e) (delayBufferSize e) (v) (delayWritePos e) (isRunning e)
     (playbackStarted e) (wasPaused e) (bufferUnderrun e) (streamTime e)
     (lastUnderrunWarningTime e) (profanityFilter e) (lyricsAlignment e)
     (useLyricsAlignment e) (songLyrics e) (songElapsedTime e) (qualityAnalyzer e).
Definition set_delayWritePos (v : Z) (e : t) : t :=
  mk (sampleRate e) (chunkSeconds e) (initialDelaySeconds e) (currentCensorMode e)
     (audioBuffer e) (processingBuffer e) (bufferWritePos e) (transcriptionInterval e)
     (hasNewBuffer e) (bufferCaptureTime e) (wasWaiting e) (debugCounter e)
     (delayBuffer e) (delayBufferSize e) (delayReadPos e) (v) (isRunning e)
     (playbackStarted e) (wasPaused e) (bufferUnderrun e) (streamTime e)
     (lastUnderrunWarningTime e) (profanityFilter e) (lyricsAlignment e)
     (useLyricsAlignment e) (songLyrics e) (songElapsedTime e) (qualityAnalyzer e).
Definition set_playbackStarted (v : bool) (e : t) : t :=
  mk (sampleRate e) (chunkSeconds e) (initialDelaySeconds e) (currentCensorMode e)
     (audioBuffer e) (processingBuffer e) (bufferWritePos e) (transcriptionInterval e)
     (hasNewBuffer e) (bufferCaptureTime e) (wasWaiting e) (debugCounter e)
     (delayBuffer e) (delayBufferSize e) (delayReadPos e) (delayWritePos e)
     (isRunning e) (v) (wasPaused e) (bufferUnderrun e) (streamTime e)
     (lastUnderrunWarningTime e) (profanityFilter e) (lyricsAlignment e)
     (useLyricsAlignment e) (songLyrics e) (songElapsedTime e) (qualityAnalyzer e).
Definition set_wasPaused (v : bool) (e : t) : t :=
  mk (sampleRate e) (chunkSeconds e) (initialDelaySeconds e) (currentCensorMode e)
     (audioBuffer e) (processingBuffer e) (bufferWritePos e) (transcriptionInterval e)
     (hasNewBuffer e) (bufferCaptureTime e) (wasWaiting e) (debugCounter e)
     (delayBuffer e) (delayBufferSize e) (delayReadPos e) (delayWritePos e)
     (isRunning e) (playbackStarted e) (v) (bufferUnderrun e) (streamTime e)
     (lastUnderrunWarningTime e) (profanityFilter e) (lyricsAlignment e)
     (useLyricsAlignment e) (songLyrics e) (songElapsedTime e) (qualityAnalyzer e).
Definition set_bufferUnderrun (v : bool) (e : t) : t :=
  mk (sampleRate e) (chunkSeconds e) (initialDelaySeconds e) (currentCensorMode e)
     (audioBuffer e) (processingBuffer e) (bufferWritePos e) (transcriptionInterval e)
     (hasNewBuffer e) (bufferCaptureTime e) (wasWaiting e) (debugCounter e)
     (delayBuffer e) (delayBufferSize e) (delayReadPos e) (delayWritePos e)
     (isRunning e) (playbackStarted e) (wasPaused e) (v) (streamTime e)
     (lastUnderrunWarningTime e) (profanityFilter e) (lyricsAlignment e)
     (useLyricsAlignment e) (songLyrics e) (songElapsedTime e) (qualityAnalyzer e).
Definition set_streamTime (v : Q) (e : t) : t :=
  mk (sampleRate e) (chunkSeconds e) (initialDelaySeconds e) (currentCensorMode e)
     (audioBuffer e) (processingBuffer e) (bufferWritePos e) (transcriptionInterval e)
     (hasNewBuffer e) (bufferCaptureTime e) (wasWaiting e) (debugCounter e)
     (delayBuffer e) (delayBufferSize e) (delayReadPos e) (delayWritePos e)
     (isRunning e) (playbackStarted e) (wasPaused e) (bufferUnderrun e) (v)
     (lastUnderrunWarningTime e) (profanityFilter e) (lyricsAlignment e)
     (useLyricsAlignment e) (songLyrics e) (songElapsedTime e) (qualityAnalyzer e).
Definition set_lastUnderrunWarningTime (v : Q) (e : t) : t :=
  mk (sampleRate e) (chunkSeconds e) (initialDelaySeconds e) (currentCensorMode e)
     (audioBuffer e) (processingBuffer e) (bufferWritePos e) (transcriptionInterval e)
     (hasNewBuffer e) (bufferCaptureTime e) (wasWaiting e) (debugCounter e)
     (delayBuffer e) (delayBufferSize e) (delayReadPos e) (delayWritePos e)
     (isRunning e) (playbackStarted e) (wasPaused e) (bufferUnderrun e) (streamTime e)
     (v) (profanityFilter e) (lyricsAlignment e) (useLyricsAlignment e) (songLyrics e)
     (songElapsedTime e) (qualityAnalyzer e).
Definition set_lyricsAlignment (v : LyricsAlignment.t) (e : t) : t :=
  mk (sampleRate e) (chunkSeconds e) (initialDelaySeconds e) (currentCensorMode e)
     (audioBuffer e) (processingBuffer e) (bufferWritePos e) (transcriptionInterval e)
     (hasNewBuffer e) (bufferCaptureTime e) (wasWaiting e) (debugCounter e)
     (delayBuffer e) (delayBufferSize e) (delayReadPos e) (delayWritePos e)
     (isRunning e) (playbackStarted e) (wasPaused e) (bufferUnderrun e) (streamTime e)
     (lastUnderrunWarningTime e) (profanityFilter e) (v) (useLyricsAlignment e)
     (songLyrics e) (songElapsedTime e) (qualityAnalyzer e).
Definition set_songElapsedTime (v : Q) (e : t) : t :=
  mk (sampleRate e) (chunkSeconds e) (initialDelaySeconds e) (currentCensorMode e)
     (audioBuffer e) (processingBuffer e) (bufferWritePos e) (transcriptionInterval e)
     (hasNewBuffer e) (bufferCaptureTime e) (wasWaiting e) (debugCounter e)
     (delayBuffer e) (delayBufferSize e) (delayReadPos e) (delayWritePos e)
     (isRunning e) (playbackStarted e) (wasPaused e) (bufferUnderrun e) (streamTime e)
     (lastUnderrunWarningTime e) (profanityFilter e) (lyricsAlignment e)
     (useLyricsAlignment e) (songLyrics e) (v) (qualityAnalyzer e).
Definition set_qualityAnalyzer (v : QualityAnalyzer.t) (e : t) : t :=
  mk (sampleRate e) (chunkSeconds e) (initialDelaySeconds e) (currentCensorMode e)
     (audioBuffer e) (processingBuffer e) (bufferWritePos e) (transcriptionInterval e)
     (hasNewBuffer e) (bufferCaptureTime e) (wasWaiting e) (debugCounter e)
     (delayBuffer e) (delayBufferSize e) (delayReadPos e) (delayWritePos e)
     (isRunning e) (playbackStarted e) (wasPaused e) (bufferUnderrun e) (streamTime e)
     (lastUnderrunWarningTime e) (profanityFilter e) (lyricsAlignment e)
     (useLyricsAlignment e) (songLyrics e) (songElapsedTime e) (v).

Definition chunkSamples (e : t) : Z :=
  Qtrunc (inject_Z (sampleRate e) * chunkSeconds e).

(** The state [start] leaves behind once the device is open: buffers
    sized from the configuration, positions at 0. *)
Definition start (sr : Z) (chunk initialDelay : Q) (mode : CensorMode)
    (pf : ProfanityFilter.t) : t :=
  let audioBufferSize := Qtrunc (inject_Z sr * chunk) in
  let size := Qtrunc (inject_Z sr * (initialDelay + 10)) in
  mk sr chunk initialDelay mode
     (replicate (Z.to_nat audioBufferSize) 0%Q) (replicate (Z.to_nat audioBufferSize) 0%Q)
     0 0 false 0 false 0
     [replicate (Z.to_nat size) 0%Q; replicate (Z.to_nat size) 0%Q] size 0 0
     true false false false 0 0
     pf LyricsAlignment.fresh false EmptyString 0 QualityAnalyzer.fresh.

Definition audioDeviceAboutToStart (e : t) : t :=
  let e := set_bufferWritePos 0 e in
  let e := set_transcriptionInterval 0 e in
  let e := set_streamTime 0 e in
  let e := set_playbackStarted false e in
  let e := set_wasWaiting false e in
  let e := set_debugCounter 0 e in
  let e := set_delayBuffer
             ((fun channel => replicate (length channel) 0%Q) <$> delayBuffer e) e in
  set_delayWritePos 0 (set_delayReadPos 0 e).

(** [(writePos - readPos + delayBufferSize) % delayBufferSize] *)
Definition currentGap (e : t) : Z :=
  Z.rem (delayWritePos e - delayReadPos e + delayBufferSize e) (delayBufferSize e).

Definition getCurrentBufferSize (e : t) : Q :=
  if negb (isRunning e) then 0
  else inject_Z (currentGap e) / inject_Z (sampleRate e).

(** [inputChannelData]: one entry per input channel, [None] for a null
    pointer; [numInputChannels] is the length of the list. *)
Definition channelData (input : list (option (list Q))) (ch : nat) : option (list Q) :=
  mjoin (input !! ch).

(** Lines 586-609: mono downmix into the accumulation buffer. *)
Definition accumulate (input : list (option (list Q))) (numSamples : Z) (e : t) : t :=
  match channelData input 0 with
  | Some in0 =>
      for_loop 0 numSamples (fun i e =>
        let monoSample := vget 0%Q in0 i in
        let monoSample :=
          match channelData input 1 with
          | Some in1 => ((monoSample + vget 0%Q in1 i) * (1 # 2))%Q
          | None => monoSample
          end in
        if bufferWritePos e <? Z.of_nat (length (audioBuffer e))
        then set_bufferWritePos (bufferWritePos e + 1)
               (set_audioBuffer (vset (audioBuffer e) (bufferWritePos e) monoSample) e)
        else e) e
  | None => e
  end.

(** The value of [monoSample] in iteration [i] of that loop. *)
Definition downmix (input : list (option (list Q))) (i : Z) : Q :=
  let monoSample := vget 0%Q (default [] (channelData input 0)) i in
  match channelData input 1 with
  | Some in1 => ((monoSample + vget 0%Q in1 i) * (1 # 2))%Q
  | None => monoSample
  end.

(** Lines 679-726: hand the chunk to the worker when it is ready. *)
Definition handoff (numSamples : Z) (e : t) : t :=
  let e := set_transcriptionInterval (transcriptionInterval e + numSamples) e in
  let due := Qle_bool (inject_Z (sampleRate e) * chunkSeconds e)
                      (inject_Z (transcriptionInterval e)) in
  if due && negb (hasNewBuffer e) then
    let samplesToProcess := Z.to_nat (Z.min (bufferWritePos e) (chunkSamples e)) in
    let e := set_processingBuffer
               (take samplesToProcess (audioBuffer e)
                ++ drop samplesToProcess (processingBuffer e)) e in
    let e := set_bufferCaptureTime (inject_Z (delayWritePos e)) e in
    let e := if wasWaiting e then set_wasWaiting false e else e in
    let e := set_hasNewBuffer true e in
    set_transcriptionInterval 0 (set_bufferWritePos 0 e)
  else if due && hasNewBuffer e then
    let e := set_debugCounter (debugCounter e + 1) e in
    if Z.rem (debugCounter e) 100 =? 0 then set_wasWaiting true e else e
  else e.

(** Lines 729-761: the critical-underrun flag. *)
Definition monitorBufferHealth (e : t) : t :=
  let currentBufferSize := getCurrentBufferSize e in
  if playbackStarted e then
    let minBufferSize := (chunkSeconds e + (1 # 2))%Q in
    let recoveryBufferSize := initialDelaySeconds e in
    if Qltb currentBufferSize minBufferSize && negb (bufferUnderrun e) then
      let e := set_bufferUnderrun true e in
      let e := set_lastUnderrunWarningTime (streamTime e) e in
      set_qualityAnalyzer (QualityAnalyzer.recordBufferUnderrun (qualityAnalyzer e)) e
    else if Qltb recoveryBufferSize currentBufferSize && bufferUnderrun e then
      set_bufferUnderrun false e
    else e
  else if bufferUnderrun e && Qltb 5 (streamTime e - lastUnderrunWarningTime e)%Q then
    set_lastUnderrunWarningTime (streamTime e) e
  else e.

(** [delayBuffer[ch][pos] = x] and [delayBuffer[ch][pos]] *)
Definition storeDelay (ch : nat) (pos : Z) (x : Q) (buf : list (list Q)) : list (list Q) :=
  alter (fun channel => vset channel pos x) ch buf.
Definition loadDelay (buf : list (list Q)) (ch : nat) (pos : Z) : Q :=
  vget 0%Q (default [] (buf !! ch)) pos.

(** One iteration of the loop of lines 764-843, in its four parts.
    [inputs] holds, per input channel, the sample [inputChannelData[ch][i]]
    ([None] for a null channel); [outputs] tells which output channels are
    not null. *)

(** "Write current input to delay buffer", channels 0 and 1 only. *)
Definition writeFrame (inputs : list (option Q)) (e : t) : t :=
  let write (ch : nat) (e : t) : t :=
    match mjoin (inputs !! ch) with
    | Some x => set_delayBuffer (storeDelay ch (delayWritePos e) x (delayBuffer e)) e
    | None => e
    end in
  write 1%nat (write 0%nat e).

(** "Dynamic buffer management": decides [canPlay]. *)
Definition gatePlayback (e : t) : bool * t :=
  let bufferSeconds := (inject_Z (currentGap e) / inject_Z (sampleRate e))%Q in
  if negb (playbackStarted e) then
    let canPlay := Qle_bool (initialDelaySeconds e) bufferSeconds in
    (canPlay, if canPlay then set_playbackStarted true e else e)
  else
    let pauseThreshold := (initialDelaySeconds e - 2)%Q in
    let resumeThreshold := initialDelaySeconds e in
    let e :=
      if Qltb bufferSeconds pauseThreshold && negb (wasPaused e)
      then set_wasPaused true e
      else if Qle_bool resumeThreshold bufferSeconds && wasPaused e
      then set_wasPaused false e
      else e in
    (negb (wasPaused e), e).

(** What is stored in each output channel at index [i]. *)
Definition readFrame (outputs : list bool) (canPlay : bool) (e : t) : list (option Q) :=
  imap (fun ch present =>
          if present : bool then
            Some (if canPlay
                  then loadDelay (delayBuffer e) (Nat.min ch 1) (delayReadPos e)
                  else 0%Q)
          else None) outputs.

(** "Always advance write position", "only advance read position if
    we're playing". *)
Definition advance (canPlay : bool) (e : t) : t :=
  let e := set_delayWritePos (Z.rem (delayWritePos e + 1) (delayBufferSize e)) e in
  if canPlay
  then set_delayReadPos (Z.rem (delayReadPos e + 1) (delayBufferSize e)) e
  else e.

Definition delayFrame (inputs : list (option Q)) (outputs : list bool) (e : t)
  : list (option Q) * t :=
  let e := writeFrame inputs e in
  let '(canPlay, e) := gatePlayback e in
  let out := readFrame outputs canPlay e in
  (out, advance canPlay e).

Definition frameInputs (input : list (option (list Q))) (i : Z) : list (option Q) :=
  (fun channel : option (list Q) => (fun data => vget 0%Q data i) <$> channel) <$> input.

Definition delayLoop (input : list (option (list Q))) (outputs : list bool)
    (numSamples : Z) (e : t) : list (list (option Q)) * t :=
  for_loop 0 numSamples
    (fun i '(frames, e) =>
       let '(out, e') := delayFrame (frameInputs input i) outputs e in
       (frames ++ [out], e'))
    ([], e).

(** The callback; the result lists the output frames in order. *)
Definition audioDeviceIOCallbackWithContext (input : list (option (list Q)))
    (outputs : list bool) (numSamples : Z) (e : t) : list (list (option Q)) * t :=
  let e := accumulate input numSamples e in
  let e := handoff numSamples e in
  let e := monitorBufferHealth e in
  let '(frames, e) := delayLoop input outputs numSamples e in
  (frames,
   set_streamTime (streamTime e + inject_Z numSamples / inject_Z (sampleRate e))%Q e).

(** *** The worker: [processTranscription] *)


(** Lines 1458-1518: the rewrite of the delay line, for the samples
    [startSample, endSample) of the chunk that starts at [chunkStartPos]. *)
Definition muteDelay (chunkStartPos startSample endSample : Z) (e : t) : t :=
  for_loop 0 2 (fun ch e =>
    for_loop startSample endSample (fun i e =>
      let delayPos := Z.rem (chunkStartPos + i) (delayBufferSize e) in
      set_delayBuffer (storeDelay (Z.to_nat ch) delayPos 0%Q (delayBuffer e)) e) e) e.

Definition reverseGain (i numSamplesToCensor fadeSamples : Z) : Q :=
  let volumeReduction := 1 # 2 in
  if i <? fadeSamples
  then (inject_Z i / inject_Z fadeSamples * volumeReduction)%Q
  else if i >=? numSamplesToCensor - fadeSamples
  then (inject_Z (numSamplesToCensor - i) / inject_Z fadeSamples * volumeReduction)%Q
  else volumeReduction.

Definition reverseDelay (chunkStartPos startSample endSample : Z) (e : t) : t :=
  let numSamplesToCensor := endSample - startSample in
  let fadeSamples := Z.min 480 (Z.quot numSamplesToCensor 4) in
  for_loop 0 2 (fun ch e =>
    let tempBuffer :=
      (fun i => loadDelay (delayBuffer e) (Z.to_nat ch)
                  (Z.rem (chunkStartPos + startSample + i) (delayBufferSize e)))
      <$> seqZ 0 numSamplesToCensor in
    let tempBuffer := reverse tempBuffer in
    for_loop 0 numSamplesToCensor (fun i e =>
      let sample := (vget 0%Q tempBuffer i
                     * reverseGain i numSamplesToCensor fadeSamples)%Q in
      let delayPos := Z.rem (chunkStartPos + startSample + i) (delayBufferSize e) in
      set_delayBuffer (storeDelay (Z.to_nat ch) delayPos sample (delayBuffer e)) e) e) e.

Definition PADDING_BEFORE : Q := 4 # 10.
Definition PADDING_AFTER : Q := 1 # 10.

(** Lines 1416-1433: where a detection lies in the delay line; gives
    [chunkStartPos] and the clamped [startSample], [endSample]. *)
Definition censorRange (e : t) (profanityStart profanityEnd captureTime : Q) : Z * Z * Z :=
  let chunkEndPos := Qtrunc captureTime in
  let chunkStartPos :=
    Z.rem (chunkEndPos - chunkSamples e + delayBufferSize e) (delayBufferSize e) in
  let startSample := Qtrunc ((profanityStart - PADDING_BEFORE) * inject_Z (sampleRate e)) in
  let endSample := Qtrunc ((profanityEnd + PADDING_AFTER) * inject_Z (sampleRate e)) in
  let maxSample := chunkSamples e in
  let startSample := Z.max 0 (Z.min startSample maxSample) in
  let endSample := Z.max startSample (Z.min endSample maxSample) in
  (chunkStartPos, startSample, endSample).

(** Lines 1458-1518: the rewrite itself. *)
Definition applyCensorMode (chunkStartPos startSample endSample : Z) (e : t) : t :=
  match currentCensorMode e with
  | Mute => muteDelay chunkStartPos startSample endSample e
  | Reverse => reverseDelay chunkStartPos startSample endSample e
  end.

(** Lines 1387-1519: what happens to one detected word or phrase. *)
Definition censorProfanity (profanityText : string) (profanityStart profanityEnd : Q)
    (isMultiWord : bool) (captureTime : Q) (e : t) : t :=
  if bufferUnderrun e then
    set_qualityAnalyzer
      (QualityAnalyzer.recordCensorshipEvent profanityText profanityStart false
         "SKIPPED" isMultiWord (qualityAnalyzer e)) e
  else
    let modeStr := match currentCensorMode e with
                   | Reverse => "REVERSE" | Mute => "MUTE" end%string in
    let e := set_qualityAnalyzer
               (QualityAnalyzer.recordCensorshipEvent profanityText profanityStart true
                  modeStr isMultiWord (qualityAnalyzer e)) e in
    let '(chunkStartPos, startSample, endSample) :=
      censorRange e profanityStart profanityEnd captureTime in
    applyCensorMode chunkStartPos startSample endSample e.




(** What the callback and the worker share for the handoff of a chunk. *)
Definition chunkState (e : t) : list Q * Z * list Q * bool * Q :=
  (audioBuffer e, bufferWritePos e, processingBuffer e, hasNewBuffer e,
   bufferCaptureTime e).


(** *** Interleavings of the two threads

    The delay line is shared: the callback writes and reads it frame by
    frame while the worker rewrites it.  A run is a sequence of steps:
    one iteration of the delay loop, one rewrite by the worker, or any
    other piece of the program. *)
Inductive event :=
| EvFrame (inputs : list (option Q)) (outputs : list bool)
| EvRewrite (chunkStartPos startSample endSample : Z)
| EvOther (f : t -> t).

Definition exec (ev : event) (e : t) : list (list (option Q)) * t :=
  match ev with
  | EvFrame inputs outputs =>
      let '(out, e') := delayFrame inputs outputs e in ([out], e')
  | EvRewrite chunkStartPos startSample endSample =>
      ([], applyCensorMode chunkStartPos startSample endSample e)
  | EvOther f => ([], f e)
  end.

(** Runs the steps in order; gives the output frames and the last state. *)
Fixpoint run (tr : list event) (e : t) : list (list (option Q)) * t :=
  match tr with
  | [] => ([], e)
  | ev :: rest =>
      let '(out, e1) := exec ev e in
      let '(outs, e2) := run rest e1 in
      (out ++ outs, e2)
  end.

Definition isFrame (ev : event) : bool :=
  match ev with EvFrame _ _ => true | _ => false end.

Definition frameCount (tr : list event) : Z :=
  Z.of_nat (length (filter (fun ev => isFrame ev = true) tr)).

(** The fields that make up the delay line and its configuration. *)
Definition delayLine (e : t) :=
  (delayBuffer e, delayBufferSize e, delayReadPos e, delayWritePos e,
   playbackStarted e, wasPaused e,
   (sampleRate e, initialDelaySeconds e, currentCensorMode e)).


(** Steps of the third kind leave the delay line alone. *)
Definition tame (ev : event) : Prop :=
  match ev with
  | EvOther f => forall e, delayLine (f e) = delayLine e
  | _ => True
  end.

(** The rewrite covers cell [p] of the ring. *)
Definition covers (size chunkStartPos startSample endSample p : Z) : bool :=
  existsb (fun i => Z.rem (chunkStartPos + i) size =? p)
          (seqZ startSample (endSample - startSample)).

Definition touches (size : Z) (ev : event) (p : Z) : bool :=
  match ev with
  | EvRewrite chunkStartPos startSample endSample =>
      covers size chunkStartPos startSample endSample p
  | _ => false
  end.

(** The delay in frames: the first gap [g] with
    [g / sampleRate >= initialDelaySeconds]. *)
Definition delaySamples (e : t) : Z :=
  Qceiling (initialDelaySeconds e * inject_Z (sampleRate e)).

(** What never changes while the engine runs. *)
Definition config (e : t) :=
  (sampleRate e, initialDelaySeconds e, delayBufferSize e, currentCensorMode e).

(** The delay buffer has two channels of [delayBufferSize] samples, the
    sample rate is positive and the delay fits into the ring. *)
Definition wellFormed (e : t) : Prop :=
  0 < sampleRate e
  /\ 0 <= delaySamples e < delayBufferSize e
  /\ length (delayBuffer e) = 2%nat
  /\ Forall (fun channel => Z.of_nat (length channel) = delayBufferSize e) (delayBuffer e).

(** The positions after [m] iterations of the delay loop: playback has
    started once more than [delaySamples] frames have been written. *)
Definition inPhase (m : Z) (e : t) : Prop :=
  delayWritePos e = m mod delayBufferSize e
  /\ wasPaused e = false
  /\ playbackStarted e = (delaySamples e <? m)
  /\ delayReadPos e = (if delaySamples e <? m
                       then (m - delaySamples e) mod delayBufferSize e else 0).

(** What an output channel received in an output frame. *)
Definition outputSample (frame : list (option Q)) (ch : nat) : option Q :=
  mjoin (frame !! ch).


End AudioEngine.

(** ** LockFreeQueue.h: what a queue holds *)
Module QueueView.
Import LockFreeQueue.

Section View.
Context {T : Type}.
Variable Capacity : Z.

(** The indices are inside the array, which has [Capacity] cells. *)
Definition valid (q : t T) : Prop :=
  0 <= head_ q < Capacity /\ 0 <= tail_ q < Capacity
  /\ Z.of_nat (length (data_ q)) = Capacity.

(** Number of cells between the consumer and the producer index. *)
Definition occupancy (q : t T) : Z := (tail_ q - head_ q) mod Capacity.

(** The items waiting in the queue, oldest first. *)
Definition contents (q : t T) : list T :=
  omap (fun i => data_ q !! Z.to_nat ((head_ q + i) mod Capacity))
       (seqZ 0 (occupancy q)).

(** [n] calls of [pop]; the items received, in order. *)
Fixpoint popAll (n : nat) (q : t T) : list (option T) * t T :=
  match n with
  | O => ([], q)
  | S n' =>
      let '(x, q1) := pop Capacity q in
      let '(xs, q2) := popAll n' q1 in
      (x :: xs, q2)
  end.
End View.

End QueueView.

(** ** ProfanityFilter.h: [detectProfanity] *)
Module ProfanitySpans.
Import Text ProfanityFilter.

Record Word := mkWord {
  text : string;
  start_time : Q;      (* seconds from audio start *)
  end_time : Q
}.

(** [ProfanitySpan]; its [start_time], [end_time] and [text] carry the
    prefix [span_] here. *)
Record ProfanitySpan := mkSpan {
  start_word_idx : Z;  (* index of first word *)
  end_word_idx : Z;    (* index of last word (inclusive) *)
  span_start_time : Q;
  span_end_time : Q;
  span_text : string   (* full profane phrase *)
}.

Definition wordAt (words : list Word) (i : Z) : Word :=
  vget (mkWord EmptyString 0 0) words i.

(** "Build phrase from words[i] to words[i + phrase_len - 1]" *)
Definition phraseAt (words : list Word) (i phrase_len : Z) : string :=
  for_loop 0 phrase_len
    (fun j phrase =>
       let phrase := if j >? 0 then (phrase ++ " ")%string else phrase in
       (phrase ++ text (wordAt words (i + j)))%string)
    EmptyString.

Definition max_phrase_length : Z := 5.

(** The inner loop: phrase lengths from [phrase_len] down to 1; the first
    length whose phrase is profane. *)
Fixpoint longestPhrase (f : t) (words : list Word) (i : Z) (phrase_len : nat) : option Z :=
  match phrase_len with
  | O => None
  | S shorter =>
      if isProfane f (phraseAt words i (Z.of_nat phrase_len))
      then Some (Z.of_nat phrase_len)
      else longestPhrase f words i shorter
  end.

(** The outer loop from index [i] on.  A detection moves [i] past the
    phrase ([i += phrase_len - 1], then the loop's [++i]); [fuel] bounds the
    number of iterations. *)
Fixpoint detectFrom (fuel : nat) (f : t) (words : list Word) (i : Z)
  : option (list ProfanitySpan) :=
  let size := Z.of_nat (length words) in
  if size <=? i then Some []
  else
    match fuel with
    | O => None
    | S fuel' =>
        match longestPhrase f words i (Z.to_nat (Z.min max_phrase_length (size - i))) with
        | Some phrase_len =>
            let span := mkSpan i (i + phrase_len - 1)
                          (start_time (wordAt words i))
                          (end_time (wordAt words (i + phrase_len - 1)))
                          (phraseAt words i phrase_len) in
            cons span <$> detectFrom fuel' f words (i + (phrase_len - 1) + 1)
        | None => detectFrom fuel' f words (i + 1)
        end
    end.

(** Every iteration advances [i], so [words.size()] iterations suffice. *)
Definition detectProfanity (f : t) (words : list Word) : option (list ProfanitySpan) :=
  detectFrom (length words) f words 0.

(** What [detectProfanity] promises of a reported span: it lies inside the
    word list, holds at most [max_phrase_length] words, carries the phrase
    of its words and the times of its first and last word, the phrase is in
    the lexicon, and no longer phrase from the same word on is. *)
Definition spanOk (f : t) (words : list Word) (s : ProfanitySpan) : Prop :=
  let size := Z.of_nat (length words) in
  let phrase_len := end_word_idx s - start_word_idx s + 1 in
  0 <= start_word_idx s <= end_word_idx s /\ end_word_idx s < size
  /\ phrase_len <= max_phrase_length
  /\ span_text s = phraseAt words (start_word_idx s) phrase_len
  /\ isProfane f (span_text s) = true
  /\ span_start_time s = start_time (wordAt words (start_word_idx s))
  /\ span_end_time s = end_time (wordAt words (end_word_idx s))
  /\ forall longer, phrase_len < longer <= Z.min max_phrase_length (size - start_word_idx s) ->
       isProfane f (phraseAt words (start_word_idx s) longer) = false.

End ProfanitySpans.

(** ** QualityAnalyzer.h, QualityAnalyzer.cpp: the metrics and the score *)
Module QualityMetrics.

(** [struct QualityMetrics] (without the wall-clock [sessionStart]). *)
Record t := mk {
  totalWordsDetected : Z;
  totalWordsCensored : Z;
  totalWordsSkipped : Z;
  multiWordDetections : Z;
  averageRTF : Q;
  minRTF : Q;
  maxRTF : Q;
  rtfSamples : Z;
  averageBufferSize : Q;
  minBufferSize : Q;
  maxBufferSize : Q;
  bufferUnderrunCount : Z;
  bufferSamples : Z;
  peakLevel : Q;
  clippingEvents : Z;
  sessionDuration : Q
}.

(** The default member initialisers; also what [reset] assigns. *)
Definition fresh : t := mk 0 0 0 0 0 999 0 0 0 999 0 0 0 0 0 0.

Definition Qmin (x y : Q) : Q := if Qltb y x then y else x.
Definition Qmax (x y : Q) : Q := if Qltb x y then y else x.

(** The counters of [recordCensorshipEvent]. *)
Definition recordCensorshipEvent (wasCensored isMultiWord : bool) (m : t) : t :=
  mk (totalWordsDetected m + 1)
     (if wasCensored then totalWordsCensored m + 1 else totalWordsCensored m)
     (if wasCensored then totalWordsSkipped m else totalWordsSkipped m + 1)
     (if isMultiWord then multiWordDetections m + 1 else multiWordDetections m)
     (averageRTF m) (minRTF m) (maxRTF m) (rtfSamples m)
     (averageBufferSize m) (minBufferSize m) (maxBufferSize m)
     (bufferUnderrunCount m) (bufferSamples m) (peakLevel m) (clippingEvents m)
     (sessionDuration m).

Definition recordRTF (rtf : Q) (m : t) : t :=
  let rtfSamples' := rtfSamples m + 1 in
  mk (totalWordsDetected m) (totalWordsCensored m) (totalWordsSkipped m)
     (multiWordDetections m)
     ((averageRTF m * inject_Z (rtfSamples' - 1) + rtf) / inject_Z rtfSamples')%Q
     (Qmin (minRTF m) rtf) (Qmax (maxRTF m) rtf) rtfSamples'
     (averageBufferSize m) (minBufferSize m) (maxBufferSize m)
     (bufferUnderrunCount m) (bufferSamples m) (peakLevel m) (clippingEvents m)
     (sessionDuration m).

Definition recordBufferSize (bufferSize : Q) (m : t) : t :=
  let bufferSamples' := bufferSamples m + 1 in
  mk (totalWordsDetected m) (totalWordsCensored m) (totalWordsSkipped m)
     (multiWordDetections m)
     (averageRTF m) (minRTF m) (maxRTF m) (rtfSamples m)
     ((averageBufferSize m * inject_Z (bufferSamples' - 1) + bufferSize)
      / inject_Z bufferSamples')%Q
     (Qmin (minBufferSize m) bufferSize) (Qmax (maxBufferSize m) bufferSize)
     (bufferUnderrunCount m) bufferSamples' (peakLevel m) (clippingEvents m)
     (sessionDuration m).

Definition recordBufferUnderrun (m : t) : t :=
  mk (totalWordsDetected m) (totalWordsCensored m) (totalWordsSkipped m)
     (multiWordDetections m)
     (averageRTF m) (minRTF m) (maxRTF m) (rtfSamples m)
     (averageBufferSize m) (minBufferSize m) (maxBufferSize m)
     (bufferUnderrunCount m + 1) (bufferSamples m) (peakLevel m) (clippingEvents m)
     (sessionDuration m).

Definition recordAudioLevel (level : Q) (m : t) : t :=
  mk (totalWordsDetected m) (totalWordsCensored m) (totalWordsSkipped m)
     (multiWordDetections m)
     (averageRTF m) (minRTF m) (maxRTF m) (rtfSamples m)
     (averageBufferSize m) (minBufferSize m) (maxBufferSize m)
     (bufferUnderrunCount m) (bufferSamples m) (Qmax (peakLevel m) (Qabs level))
     (clippingEvents m) (sessionDuration m).

Definition recordClipping (m : t) : t :=
  mk (totalWordsDetected m) (totalWordsCensored m) (totalWordsSkipped m)
     (multiWordDetections m)
     (averageRTF m) (minRTF m) (maxRTF m) (rtfSamples m)
     (averageBufferSize m) (minBufferSize m) (maxBufferSize m)
     (bufferUnderrunCount m) (bufferSamples m) (peakLevel m) (clippingEvents m + 1)
     (sessionDuration m).

Definition updateSessionDuration (seconds : Q) (m : t) : t :=
  mk (totalWordsDetected m) (totalWordsCensored m) (totalWordsSkipped m)
     (multiWordDetections m)
     (averageRTF m) (minRTF m) (maxRTF m) (rtfSamples m)
     (averageBufferSize m) (minBufferSize m) (maxBufferSize m)
     (bufferUnderrunCount m) (bufferSamples m) (peakLevel m) (clippingEvents m)
     seconds.

Definition reset (m : t) : t := fresh.

Definition calculateQualityScore (m : t) : Q :=
  let score := 100%Q in
  let score :=
    if totalWordsDetected m >? 0 then
      let skipRate :=
        (inject_Z (totalWordsSkipped m) / inject_Z (totalWordsDetected m))%Q in
      (score - skipRate * 30)%Q
    else score in
  let score :=
    if Qltb 1 (averageRTF m) then
      let rtfPenalty := ((averageRTF m - 1) * 20)%Q in
      (score - Qmin rtfPenalty 20)%Q
    else score in
  let score :=
    if bufferUnderrunCount m >? 0
    then (score - Qmin (inject_Z (bufferUnderrunCount m) * 5) 20)%Q
    else score in
  let score :=
    if clippingEvents m >? 0
    then (score - Qmin (inject_Z (clippingEvents m) * 2) 15)%Q
    else score in
  let score :=
    if totalWordsDetected m >? 0 then
      let multiWordRate :=
        (inject_Z (multiWordDetections m) / inject_Z (totalWordsDetected m))%Q in
      (score + multiWordRate * 5)%Q
    else score in
  Qmax 0 (Qmin 100 score).

(** The calls that change the metrics. *)
Inductive call :=
| RecordCensorshipEvent (wasCensored isMultiWord : bool)
| RecordRTF (rtf : Q)
| RecordBufferSize (bufferSize : Q)
| RecordBufferUnderrun
| RecordAudioLevel (level : Q)
| RecordClipping
| UpdateSessionDuration (seconds : Q)
| Reset.

Definition perform (m : t) (c : call) : t :=
  match c with
  | RecordCensorshipEvent wasCensored isMultiWord =>
      recordCensorshipEvent wasCensored isMultiWord m
  | RecordRTF rtf => recordRTF rtf m
  | RecordBufferSize bufferSize => recordBufferSize bufferSize m
  | RecordBufferUnderrun => recordBufferUnderrun m
  | RecordAudioLevel level => recordAudioLevel level m
  | RecordClipping => recordClipping m
  | UpdateSessionDuration seconds => updateSessionDuration seconds m
  | Reset => reset m
  end.

(** The metrics after a session of calls on a new analyzer. *)
Definition session (calls : list call) : t := foldl perform fresh calls.

(** The RTF values recorded since the last [reset]. *)
Definition rtfsSinceReset (calls : list call) : list Q :=
  foldl (fun acc c => match c with
                      | RecordRTF rtf => acc ++ [rtf]
                      | Reset => []
                      | _ => acc
                      end) [] calls.

Definition Qsum (l : list Q) : Q := foldr Qplus 0%Q l.

(** What every sequence of calls keeps. *)
Definition counted (m : t) : Prop :=
  0 <= totalWordsSkipped m /\ 0 <= totalWordsCensored m
   /\ totalWordsDetected m = totalWordsCensored m + totalWordsSkipped m
   /\ 0 <= multiWordDetections m <= totalWordsDetected m
   /\ 0 <= bufferUnderrunCount m /\ 0 <= clippingEvents m
   /\ 0 <= rtfSamples m /\ 0 <= bufferSamples m.

End QualityMetrics.

(** ** QualityAnalyzer.cpp: a session of censorship events *)
Module QualityHistory.
Import QualityAnalyzer.

(** The arguments of one call of [recordCensorshipEvent]. *)
Record report := mkReport {
  r_word : string;
  r_timestamp : Q;
  r_wasCensored : bool;
  r_mode : string;
  r_isMultiWord : bool
}.

Definition record (q : QualityAnalyzer.t) (r : report) : QualityAnalyzer.t :=
  recordCensorshipEvent (r_word r) (r_timestamp r) (r_wasCensored r) (r_mode r)
    (r_isMultiWord r) q.

Definition recordAll (reports : list report) : QualityAnalyzer.t :=
  foldl record QualityAnalyzer.fresh reports.

Definition eventOf (r : report) : CensorshipEvent :=
  mkEvent (r_word r) (r_timestamp r) (r_wasCensored r) (r_mode r).

(** [getRecentEvents(maxCount)] *)
Definition getRecentEvents (maxCount : Z) (q : QualityAnalyzer.t) : list CensorshipEvent :=
  let startIdx := Z.max 0 (Z.of_nat (length (censorshipHistory q)) - maxCount) in
  drop (Z.to_nat startIdx) (censorshipHistory q).

End QualityHistory.

(** ** Words of normalized text *)
Module NormalForm.
Import Text.

(** Every character of [s] satisfies [p]. *)
Fixpoint all_chars (p : ascii -> bool) (s : string) : bool :=
  match s with
  | EmptyString => true
  | String c rest => p c && all_chars p rest
  end.

(** A lower-case letter or a digit. *)
Definition plain (c : ascii) : bool := islower c || isdigit c.

(** A word of normalized text: not empty, lower-case letters and digits. *)
Definition plainWord (w : string) : bool :=
  negb (String.eqb w EmptyString) && all_chars plain w.


End NormalForm.

(** ** LyricsAlignment.cpp: windows of the lyrics and the lock *)
Module AlignmentWindows.
Import Text LyricsAlignment.

(** The score [findBestStartPosition] gives to the window of the lyrics
    that starts at [pos]. *)
Definition windowScore (a : t) (transcribedWords : list WordSegment) (pos : Z) : Q :=
  let total := getTotalWords a in
  let transcribedText :=
    normalizeText (concatWith (fun w => w) (map word transcribedWords)) in
  let endPos := Z.min (pos + Z.of_nat (length transcribedWords)) total in
  let lyricsText :=
    normalizeText
      (for_loop pos endPos (fun i acc => acc ++ lyricsAt a i ++ " ")%string EmptyString) in
  calculateSimilarity transcribedText lyricsText.

(** The aligner is locked only after [LOCK_REQUIRED_MATCHES] strong matches
    in a row. *)
Definition lockEarned (a : t) : Prop :=
  0 <= consecutiveMatches a
  /\ (locked a = true -> LOCK_REQUIRED_MATCHES <= consecutiveMatches a).

(** The calls a client makes on one aligner, and a session of them on a
    newly constructed aligner. *)
Inductive call :=
| SetLyrics (lyrics : string)
| Reset
| AlignChunk (transcribedWords : list WordSegment) (absoluteTime : Q)
| PredictNextWords (duration : Q).

Definition perform (a : t) (c : call) : t :=
  match c with
  | SetLyrics lyrics => setLyrics lyrics a
  | Reset => reset a
  | AlignChunk ws T => snd (alignChunk a ws T)
  | PredictNextWords d => snd (predictNextWords a d)
  end.

Definition session (calls : list call) : t := foldl perform fresh calls.

End AlignmentWindows.

(** ** TimestampRefiner.cpp: speech windows, regions and boundaries *)
Module SpeechRegions.
Import LyricsAlignment TimestampRefiner.

Section Regions.
Variable sqrtf : Q -> Q.

(** [isSpeech] of the window that starts at sample [i]. *)
Definition isSpeechWindow (audio : list Q) (i : Z) : bool :=
  Qltb ENERGY_THRESHOLD (calculateEnergy sqrtf audio i WINDOW_SIZE)
  && Qltb ZC_THRESHOLD (calculateZeroCrossing audio i WINDOW_SIZE).

Definition findSpeechRegions (audio : list Q) (sampleRate : Z) : list (Q * Q) :=
  let '(regions, inSpeech, regionStart) :=
    for_loop_step 0 (asize audio) WINDOW_SIZE
      (fun i '(regions, inSpeech, regionStart) =>
         let energy := calculateEnergy sqrtf audio i WINDOW_SIZE in
         let zc := calculateZeroCrossing audio i WINDOW_SIZE in
         let isSpeech := Qltb ENERGY_THRESHOLD energy && Qltb ZC_THRESHOLD zc in
         if isSpeech && negb inSpeech then (regions, true, i)
         else if negb isSpeech && inSpeech
         then (regions ++ [((inject_Z regionStart / inject_Z sampleRate)%Q,
                            (inject_Z i / inject_Z sampleRate)%Q)], false, regionStart)
         else (regions, inSpeech, regionStart))
      ([], false, 0) in
  if inSpeech : bool
  then regions ++ [((inject_Z regionStart / inject_Z sampleRate)%Q,
                    (inject_Z (asize audio) / inject_Z sampleRate)%Q)]
  else regions.

(** The score [findBestBoundary] gives to sample [i], and whether [i] is
    looked at: a full window on either side and an energy gradient above
    the threshold. *)
Definition boundaryScore (audio : list Q) (findStart : bool) (i : Z) : Q :=
  let energyBefore := calculateEnergy sqrtf audio (i - WINDOW_SIZE) WINDOW_SIZE in
  let energyAfter := calculateEnergy sqrtf audio i WINDOW_SIZE in
  if findStart then (energyAfter - energyBefore)%Q else (energyBefore - energyAfter)%Q.

Definition boundaryCandidate (audio : list Q) (i : Z) : bool :=
  let energyBefore := calculateEnergy sqrtf audio (i - WINDOW_SIZE) WINDOW_SIZE in
  let energyAfter := calculateEnergy sqrtf audio i WINDOW_SIZE in
  negb ((i <? WINDOW_SIZE) || (i + WINDOW_SIZE >=? asize audio))
  && Qltb ENERGY_THRESHOLD (Qabs (energyAfter - energyBefore)).

End Regions.


(** The distance [searchForSpeech] measures from a region to the centre of
    the estimate; regions before the centre count for 80%. *)
Definition regionDistance (whisperCenter : Z) (region : Z * Z) : Z :=
  let regionCenter := Z.quot (fst region + snd region) 2 in
  let dist := Z.abs (regionCenter - whisperCenter) in
  if regionCenter <? whisperCenter then Qtrunc (inject_Z dist * (8 # 10)) else dist.

(** Sample position [i] in seconds. *)
Definition seconds (sampleRate : Z) (i : Z) : Q := (inject_Z i / inject_Z sampleRate)%Q.

(** Sample [i] lies inside one of the regions. *)
Definition inRegions (regions : list (Z * Z)) (i : Z) : Prop :=
  exists r, r ∈ regions /\ fst r <= i < snd r.

(** A region ends before the next one starts. *)
Definition apart {A} (lt : A -> A -> Prop) (r r' : A * A) : Prop := lt (snd r) (fst r').

End SpeechRegions.

(** ** AudioEngine.cpp: what the worker rewrites *)
Module WorkerRewrites.
Import LyricsAlignment AudioEngine.

(** Where the chunk captured at [captureTime] starts in the delay line. *)
Definition chunkStartPos (e : t) (captureTime : Q) : Z :=
  Z.rem (Qtrunc captureTime - chunkSamples e + delayBufferSize e) (delayBufferSize e).


(** Every field but the four [processTranscription] writes: the delay
    buffer, the quality analyzer, the aligner and the song time. *)
Definition keptByWorker (e : t) :=
  (sampleRate e, chunkSeconds e, initialDelaySeconds e, currentCensorMode e,
   (audioBuffer e, processingBuffer e, bufferWritePos e, transcriptionInterval e,
    hasNewBuffer e, bufferCaptureTime e, wasWaiting e, debugCounter e),
   (delayBufferSize e, delayReadPos e, delayWritePos e, isRunning e,
    playbackStarted e, wasPaused e, bufferUnderrun e, streamTime e,
    lastUnderrunWarningTime e),
   (profanityFilter e, useLyricsAlignment e, songLyrics e)).

(** The cells of the delay line the detection [profanityStart,
    profanityEnd] of the chunk captured at [captureTime] is censored in. *)
Definition censored (e : t) (profanityStart profanityEnd captureTime : Q) (p : Z) : bool :=
  let '(chunkStartPos, startSample, endSample) :=
    censorRange e profanityStart profanityEnd captureTime in
  covers (delayBufferSize e) chunkStartPos startSample endSample p.





End WorkerRewrites.

(** ** CircularBuffer.h *)
Module CircularAudioBuffer.
Import CensorshipEngine.

Record t := mk {
  numChannels : Z;
  capacitySamples : Z;
  writePosition : Z   (* wraps at capacity *);
  readPosition : Z;
  buffer : list (list Q)   (* [channel][sample] *)
}.

(** The constructor: [numChannels] channels of [capacitySamples] zeros. *)
Definition create (num_channels capacity_samples : Z) : t :=
  mk num_channels capacity_samples 0 0
     (replicate (Z.to_nat num_channels) (replicate (Z.to_nat capacity_samples) 0%Q)).

(** [buffer[ch][idx]] and [buffer[ch][idx] = x] *)
Definition load (buf : list (list Q)) (ch idx : Z) : Q := vget 0%Q (vget [] buf ch) idx.
Definition store (buf : list (list Q)) (ch idx : Z) (x : Q) : list (list Q) :=
  vset buf ch (vset (vget [] buf ch) idx x).

(** [source.getReadPointer(ch)] is taken to be a valid pointer for every
    channel of the source. *)
Definition writeSamples (source : AudioBuffer) (num_samples : Z) (b : t) : t :=
  if negb (getNumChannels source =? numChannels b)
     || (num_samples >? capacitySamples b) || (num_samples <? 0)
  then b
  else
    let write_pos := writePosition b in
    let buffer' :=
      for_loop 0 (numChannels b) (fun ch buf =>
        let src := vget [] (channels source) ch in
        for_loop 0 num_samples (fun i buf =>
          let idx := Z.rem (write_pos + i) (capacitySamples b) in
          store buf ch idx (vget 0%Q src i)) buf) (buffer b) in
    let new_write_pos := Z.rem (write_pos + num_samples) (capacitySamples b) in
    mk (numChannels b) (capacitySamples b) new_write_pos (readPosition b) buffer'.

(** [memcpy(dest, data + start, n * sizeof(float))] *)
Definition copy (data : list Q) (start n : Z) : list Q :=
  take (Z.to_nat n) (drop (Z.to_nat start) data).

(** Returns the output buffer and the number of samples read. *)
Definition readLastNSeconds (duration_seconds sample_rate : Q) (b : t) : AudioBuffer * Z :=
  let samples_requested := Qtrunc (duration_seconds * sample_rate) in
  let samples_to_read := Z.min samples_requested (capacitySamples b) in
  let write_pos := writePosition b in
  let start_pos := write_pos - samples_to_read in
  let start_pos := if start_pos <? 0 then start_pos + capacitySamples b else start_pos in
  let out :=
    (fun ch =>
       let data := vget [] (buffer b) ch in
       if start_pos + samples_to_read <=? capacitySamples b
       then copy data start_pos samples_to_read
       else
         let samples_until_end := capacitySamples b - start_pos in
         let samples_from_start := samples_to_read - samples_until_end in
         copy data start_pos samples_until_end ++ copy data 0 samples_from_start)
    <$> seqZ 0 (numChannels b) in
  (mkBuffer samples_to_read out, samples_to_read).

(** [None] stands for the result [false]. *)
Definition readSamplesAt (start_position num_samples : Z) (b : t) : option AudioBuffer :=
  if (num_samples <=? 0) || (num_samples >? capacitySamples b) then None
  else if start_position <? 0 then None
  else
    Some (mkBuffer num_samples
            ((fun ch =>
                (fun i => load (buffer b) ch (Z.rem (start_position + i) (capacitySamples b)))
                <$> seqZ 0 num_samples)
             <$> seqZ 0 (numChannels b))).

Definition getSampleAt (channel absolute_sample : Z) (b : t) : Q :=
  load (buffer b) channel (Z.rem absolute_sample (capacitySamples b)).

Definition setSampleAt (channel absolute_sample : Z) (value : Q) (b : t) : t :=
  mk (numChannels b) (capacitySamples b) (writePosition b) (readPosition b)
     (store (buffer b) channel (Z.rem absolute_sample (capacitySamples b)) value).

Definition getWritePosition (b : t) : Z := writePosition b.
Definition getCapacity (b : t) : Z := capacitySamples b.

Definition reset (b : t) : t :=
  mk (numChannels b) (capacitySamples b) 0 0
     ((fun channel => replicate (length channel) 0%Q) <$> buffer b).

(** A block the writer accepts: the channel count of the buffer, at most
    [capacity] samples, and that many samples in every channel. *)
Definition accepted (nc cap : Z) (block : AudioBuffer) : Prop :=
  getNumChannels block = nc
  /\ 0 <= numSamples block <= cap
  /\ Forall (fun channel => Z.of_nat (length channel) = numSamples block) (channels block).

(** The blocks written in order to a new buffer. *)
Definition writeAll (blocks : list AudioBuffer) (b : t) : t :=
  foldl (fun b block => writeSamples block (numSamples block) b) b blocks.

(** Channel [ch] of the stream the blocks make up, its length, and its
    sample at the absolute position [a]; before the start of the stream
    there is silence. *)
Definition streamOf (blocks : list AudioBuffer) (ch : Z) : list Q :=
  concat ((fun block => vget [] (channels block) ch) <$> blocks).
Definition streamLength (blocks : list AudioBuffer) : Z :=
  foldr (fun block n => numSamples block + n) 0 blocks.
Definition streamAt (blocks : list AudioBuffer) (ch a : Z) : Q :=
  vget 0%Q (streamOf blocks ch) a.

(** The buffer holds [nc] channels of [cap] cells. *)
Definition shaped (nc cap : Z) (buf : list (list Q)) : Prop :=
  Z.of_nat (length buf) = nc
  /\ Forall (fun channel => Z.of_nat (length channel) = cap) buf.

(** The ring holds the latest [cap] samples of the stream: its write
    position is the length of the stream modulo [cap], and the cell of every
    absolute position of the last [cap] holds the sample of that position
    (silence before the start of the stream). *)
Definition holdsLatest (nc cap : Z) (blocks : list AudioBuffer) (b : t) : Prop :=
  numChannels b = nc /\ capacitySamples b = cap
  /\ shaped nc cap (buffer b)
  /\ writePosition b = streamLength blocks mod cap
  /\ forall ch a, 0 <= ch < nc ->
       streamLength blocks - cap <= a < streamLength blocks ->
       load (buffer b) ch (a mod cap) = streamAt blocks ch a.

End CircularAudioBuffer.

(** ** LyricsAlignment.cpp: alignment by word edit distance *)
Module WordAlignment.
Import Text LyricsAlignment.

(** [matrix[i][j]] and [matrix[i][j] = x] *)
Definition mget (matrix : list (list Z)) (i j : Z) : Z := vget 0 (vget [] matrix i) j.
Definition mset (matrix : list (list Z)) (i j x : Z) : list (list Z) :=
  vset matrix i (vset (vget [] matrix i) j x).

Definition calculateEditDistance (seq1 seq2 : list string) : list (list Z) :=
  let m := Z.of_nat (length seq1) in
  let n := Z.of_nat (length seq2) in
  let matrix := replicate (Z.to_nat (m + 1)) (replicate (Z.to_nat (n + 1)) 0) in
  let matrix := for_loop 0 (m + 1) (fun i matrix => mset matrix i 0 i) matrix in
  let matrix := for_loop 0 (n + 1) (fun j matrix => mset matrix 0 j j) matrix in
  for_loop 1 (m + 1) (fun i matrix =>
    for_loop 1 (n + 1) (fun j matrix =>
      if String.eqb (vget EmptyString seq1 (i - 1)) (vget EmptyString seq2 (j - 1))
      then mset matrix i j (mget matrix (i - 1) (j - 1))
      else mset matrix i j
             (1 + min3 (mget matrix (i - 1) j) (mget matrix i (j - 1))
                       (mget matrix (i - 1) (j - 1)))) matrix) matrix.

(** The [while (i > 0 || j > 0)] loop of [backtrackAlignment]; [None] when
    the fuel runs out. *)
Fixpoint backtrackLoop (fuel : nat) (matrix : list (list Z))
    (transcribedWords lyricsWords : list string) (i j : Z) (alignments : list (Z * Z))
  : option (list (Z * Z)) :=
  if (i >? 0) || (j >? 0) then
    match fuel with
    | O => None
    | S fuel =>
        if (i >? 0) && (j >? 0)
           && String.eqb (vget EmptyString transcribedWords (i - 1))
                         (vget EmptyString lyricsWords (j - 1))
        then backtrackLoop fuel matrix transcribedWords lyricsWords (i - 1) (j - 1)
               (alignments ++ [(i - 1, j - 1)])
        else if (i >? 0) && (j >? 0)
                && (mget matrix i j =? mget matrix (i - 1) (j - 1) + 1)
        then backtrackLoop fuel matrix transcribedWords lyricsWords (i - 1) (j - 1)
               (alignments ++ [(i - 1, j - 1)])
        else if (j >? 0) && (mget matrix i j =? mget matrix i (j - 1) + 1)
        then backtrackLoop fuel matrix transcribedWords lyricsWords i (j - 1)
               (alignments ++ [(-1, j - 1)])
        else if i >? 0
        then backtrackLoop fuel matrix transcribedWords lyricsWords (i - 1) j alignments
        else backtrackLoop fuel matrix transcribedWords lyricsWords i j alignments
    end
  else Some alignments.

(** The segments made from the alignments, already in reading order. *)
Definition correctedSegments (lyricsWords : list string)
    (originalSegments : list WordSegment) (alignments : list (Z * Z)) : list WordSegment :=
  fold_left
    (fun correctedSegments '(trans_idx, lyrics_idx) =>
       if (trans_idx >=? 0) && (lyrics_idx >=? 0) then
         let original := vget (mkWord EmptyString 0 0 0) originalSegments trans_idx in
         correctedSegments
         ++ [mkWord (vget EmptyString lyricsWords lyrics_idx)
                    (start original) (end_ original) (confidence original * (95 # 100))%Q]
       else if lyrics_idx >=? 0 then
         let estimatedStart :=
           match last correctedSegments with
           | Some back => end_ back
           | None => 0%Q
           end in
         let estimatedEnd := (estimatedStart + (3 # 10))%Q in
         correctedSegments
         ++ [mkWord (vget EmptyString lyricsWords lyrics_idx)
                    estimatedStart estimatedEnd (5 # 10)]
       else correctedSegments)
    alignments [].

Definition backtrackAlignment (fuel : nat) (matrix : list (list Z))
    (transcribedWords lyricsWords : list string) (originalSegments : list WordSegment)
  : option (list WordSegment) :=
  let i := Z.of_nat (length transcribedWords) in
  let j := Z.of_nat (length lyricsWords) in
  match backtrackLoop fuel matrix transcribedWords lyricsWords i j [] with
  | Some alignments =>
      Some (correctedSegments lyricsWords originalSegments (reverse alignments))
  | None => None
  end.

(** [alignLyricsToTranscription]; the loop is given one round for every
    word of either side. *)
Definition alignLyricsToTranscription (transcribedWords : list WordSegment)
    (lyrics : string) : option (list WordSegment) :=
  if String.eqb lyrics EmptyString || bool_decide (transcribedWords = [])
  then Some transcribedWords
  else
    let transcribedText := (fun seg => normalizeText (word seg)) <$> transcribedWords in
    let lyricsWords := splitIntoWords lyrics in
    if bool_decide (lyricsWords = []) then Some transcribedWords
    else
      let matrix := calculateEditDistance transcribedText lyricsWords in
      backtrackAlignment (length transcribedText + length lyricsWords)
        matrix transcribedText lyricsWords transcribedWords.

(** Where a corrected segment has its timing from: a transcribed word, at
    95% of its confidence, or an estimate of 0.3 s at confidence 0.5. *)
Definition timedFrom (transcribedWords : list WordSegment) (seg : WordSegment) : Prop :=
  (exists original, original ∈ transcribedWords
     /\ start seg = start original /\ end_ seg = end_ original
     /\ confidence seg = (confidence original * (95 # 100))%Q)
  \/ (confidence seg = (5 # 10)%Q /\ end_ seg = (start seg + (3 # 10))%Q).

(** The matrix has [r] rows of [c] cells. *)
Definition mshaped (r c : Z) (matrix : list (list Z)) : Prop :=
  Z.of_nat (length matrix) = r
  /\ Forall (fun row => Z.of_nat (length row) = c) matrix.

End WordAlignment.

(** ** AudioEngine.cpp: [resampleTo16kHz] *)
Module Resampler.

(** The member [sampleRate] is a parameter here. *)
Definition resampleTo16kHz (sampleRate : Z) (input : list Q) : list Q :=
  if sampleRate =? 16000 then input
  else
    let size := Z.of_nat (length input) in
    let ratio := (inject_Z sampleRate / 16000)%Q in
    let outputSize := Qtrunc (inject_Z size / ratio) in
    for_loop 0 outputSize
      (fun i output =>
         let srcPos := (inject_Z i * ratio)%Q in
         let srcIndex := Qtrunc srcPos in
         let frac := (srcPos - inject_Z srcIndex)%Q in
         if srcIndex + 1 <? size
         then vset output i (vget 0%Q input srcIndex * (1 - frac)
                             + vget 0%Q input (srcIndex + 1) * frac)%Q
         else vset output i (vget 0%Q input srcIndex))
      (replicate (Z.to_nat outputSize) 0%Q).

(** The value stored in [output[i]]. *)
Definition interpolated (sampleRate : Z) (input : list Q) (i : Z) : Q :=
  let size := Z.of_nat (length input) in
  let ratio := (inject_Z sampleRate / 16000)%Q in
  let srcPos := (inject_Z i * ratio)%Q in
  let srcIndex := Qtrunc srcPos in
  let frac := (srcPos - inject_Z srcIndex)%Q in
  if srcIndex + 1 <? size
  then (vget 0%Q input srcIndex * (1 - frac) + vget 0%Q input (srcIndex + 1) * frac)%Q
  else vget 0%Q input srcIndex.

End Resampler.

(* ===================================================================== *)
(** * Properties *)
(* ===================================================================== *)

(** Closed arithmetic side conditions, settled by evaluation. *)
Ltac by_compute :=
  vm_compute; repeat split; first [reflexivity | discriminate | intro; discriminate].

(** ** Vectors and loops *)
Module LoopFacts.

Lemma length_vset {A} (v : list A) i x : length (vset v i x) = length v.
Proof. unfold vset. destruct (i <? 0); [reflexivity | apply length_insert]. Qed.

Lemma vget_vset_eq {A} (d : A) v i x :
  0 <= i < Z.of_nat (length v) -> vget d (vset v i x) i = x.
Proof.
  intros Hi. unfold vget, vset. destruct (Z.ltb_spec i 0); [lia|].
  rewrite list_lookup_insert_eq by lia. reflexivity.
Qed.

Lemma vget_vset_ne {A} (d : A) v i j x : i <> j -> vget d (vset v i x) j = vget d v j.
Proof.
  intros Hne. unfold vget, vset.
  destruct (Z.ltb_spec j 0); [reflexivity|].
  destruct (Z.ltb_spec i 0); [reflexivity|].
  rewrite list_lookup_insert_ne by lia. reflexivity.
Qed.

Lemma vget_vset {A} (d : A) v i j x :
  0 <= i < Z.of_nat (length v) ->
  vget d (vset v i x) j = if i =? j then x else vget d v j.
Proof.
  intros Hi. destruct (Z.eqb_spec i j) as [->|Hne].
  - by apply vget_vset_eq.
  - by apply vget_vset_ne.
Qed.

Lemma vget_replicate {A} (d x : A) n i :
  0 <= i < Z.of_nat n -> vget d (replicate n x) i = x.
Proof.
  intros Hi. unfold vget. destruct (Z.ltb_spec i 0); [lia|].
  rewrite lookup_replicate_2 by lia. reflexivity.
Qed.

Lemma for_loop_nil {St} lo hi (body : Z -> St -> St) s :
  hi <= lo -> for_loop lo hi body s = s.
Proof. intros H. unfold for_loop. rewrite seqZ_nil by lia. reflexivity. Qed.

Lemma for_loop_snoc {St} lo hi (body : Z -> St -> St) s :
  lo <= hi -> for_loop lo (hi + 1) body s = body hi (for_loop lo hi body s).
Proof.
  intros H. unfold for_loop.
  replace (hi + 1 - lo) with ((hi - lo) + 1) by lia.
  rewrite seqZ_app by lia. rewrite foldl_app.
  rewrite (seqZ_cons _ 1) by lia. rewrite (seqZ_nil _ (Z.pred 1)) by lia.
  cbn [foldl]. f_equal. lia.
Qed.

Lemma for_loop_cons {St} lo hi (body : Z -> St -> St) s :
  lo < hi -> for_loop lo hi body s = for_loop (lo + 1) hi body (body lo s).
Proof.
  intros H. unfold for_loop. rewrite seqZ_cons by lia. cbn [foldl].
  f_equal. f_equal; lia.
Qed.

(** The loop invariant rule. *)
Lemma for_loop_ind {St} (P : Z -> St -> Prop) lo hi (body : Z -> St -> St) s :
  lo <= hi ->
  P lo s ->
  (forall i acc, lo <= i < hi -> P i acc -> P (i + 1) (body i acc)) ->
  P hi (for_loop lo hi body s).
Proof.
  intros Hle H0 Hstep.
  assert (Haux : forall n : nat, Z.of_nat n <= hi - lo ->
            P (lo + Z.of_nat n) (for_loop lo (lo + Z.of_nat n) body s)).
  { induction n as [|n IH]; intros Hn.
    - rewrite for_loop_nil by lia. by replace (lo + Z.of_nat 0) with lo by lia.
    - replace (lo + Z.of_nat (S n)) with ((lo + Z.of_nat n) + 1) by lia.
      rewrite for_loop_snoc by lia. apply Hstep; [lia|]. apply IH. lia. }
  specialize (Haux (Z.to_nat (hi - lo)) ltac:(lia)).
  by replace (lo + Z.of_nat (Z.to_nat (hi - lo))) with hi in Haux by lia.
Qed.

(** A loop whose iteration [i] rewrites only cell [start + i]. *)
Lemma for_loop_pointwise (g : Z -> Q -> Q) (guard : Z -> bool) start len (data : list Q) :
  (forall idx, guard idx = true -> 0 <= idx < Z.of_nat (length data)) ->
  let out := for_loop 0 len (fun i d =>
               let idx := start + i in
               if guard idx then vset d idx (g i (vget 0%Q d idx)) else d) data in
  length out = length data /\
  forall j, vget 0%Q out j =
            if (start <=? j) && (j <? start + len) && guard j
            then g (j - start) (vget 0%Q data j) else vget 0%Q data j.
Proof.
  intros Hguard out. subst out.
  destruct (Z.le_gt_cases 0 len) as [Hlen|Hlen].
  2:{ rewrite for_loop_nil by lia. split; [reflexivity|]. intros j.
      destruct (Z.leb_spec start j), (Z.ltb_spec j (start + len)); try reflexivity. lia. }
  apply (for_loop_ind (fun i d =>
    length d = length data /\
    forall j, vget 0%Q d j =
              if (start <=? j) && (j <? start + i) && guard j
              then g (j - start) (vget 0%Q data j) else vget 0%Q data j)); [lia| |].
  - split; [reflexivity|]. intros j.
    destruct (Z.leb_spec start j), (Z.ltb_spec j (start + 0)); try reflexivity. lia.
  - intros i acc Hi [Hlenacc Hacc]. cbv zeta.
    destruct (guard (start + i)) eqn:Hg.
    + split; [by rewrite length_vset|]. intros j.
      rewrite vget_vset by (rewrite Hlenacc; by apply Hguard).
      destruct (Z.eqb_spec (start + i) j) as [<-|Hne].
      * rewrite Hg. rewrite Hacc.
        destruct (Z.leb_spec start (start + i)); [|lia].
        destruct (Z.ltb_spec (start + i) (start + (i + 1))); [|lia].
        destruct (Z.ltb_spec (start + i) (start + i)); [lia|].
        cbn. f_equal. lia.
      * rewrite Hacc.
        destruct (Z.leb_spec start j); [|reflexivity].
        destruct (Z.ltb_spec j (start + i)), (Z.ltb_spec j (start + (i + 1)));
          try reflexivity; lia.
    + split; [exact Hlenacc|]. intros j. rewrite Hacc.
      destruct (Z.leb_spec start j); [|reflexivity].
      destruct (Z.ltb_spec j (start + i)), (Z.ltb_spec j (start + (i + 1)));
        try reflexivity; try lia.
      assert (j = start + i) as -> by lia. rewrite Hg. reflexivity.
Qed.


Lemma foldl_collect {A B} (f : B -> A) (l : list B) (init : list A) :
  foldl (fun acc i => acc ++ [f i]) init l = init ++ map f l.
Proof.
  revert init. induction l as [|x l IH]; intros init; cbn [foldl map].
  - by rewrite app_nil_r.
  - rewrite IH. by rewrite <- app_assoc.
Qed.

(** A loop that appends one element per iteration builds a [map]. *)
Lemma for_loop_collect {A} (f : Z -> A) lo hi (init : list A) :
  for_loop lo hi (fun i acc => acc ++ [f i]) init = init ++ map f (seqZ lo (hi - lo)).
Proof. unfold for_loop. apply foldl_collect. Qed.


Lemma Qtrunc_floor q : (0 <= q)%Q -> Qtrunc q = Qfloor q.
Proof.
  intros Hq. unfold Qtrunc. destruct q as [n d]. cbn [Qnum Qden Qfloor].
  apply Z.quot_div_nonneg; [|lia]. unfold Qle in Hq. cbn in Hq. lia.
Qed.

End LoopFacts.

(** ** The SPSC queue *)
Module LockFreeQueueFacts.
Import LockFreeQueue.

Section Facts.
Context {T : Type}.
Variable k : Z.
Hypothesis Hk : 0 <= k.
Let Capacity := 2 ^ k.







End Facts.







End LockFreeQueueFacts.

(** ** The censorship DSP *)
Module CensorshipEngineFacts.
Import CensorshipEngine LoopFacts.

Lemma sampleAt_each_channel f b ch c j :
  channels b !! ch = Some c ->
  sampleAt (each_channel f b) ch j = vget 0%Q (f c) j.
Proof.
  intros Hc. unfold sampleAt, each_channel; cbn [channels].
  rewrite list_lookup_fmap, Hc. reflexivity.
Qed.






Lemma channels_each_channel f b ch c :
  channels b !! ch = Some c -> channels (each_channel f b) !! ch = Some (f c).
Proof. intros Hc. unfold each_channel; cbn [channels]. by rewrite list_lookup_fmap, Hc. Qed.





End CensorshipEngineFacts.

(** ** The lexicon *)
Module ProfanityFilterFacts.
Import Text ProfanityFilter.

Lemma tolower_idem c : tolower (tolower c) = tolower c.
Proof. destruct c as [[] [] [] [] [] [] [] []]; reflexivity. Qed.

Lemma transform_tolower_idem s :
  transform tolower (transform tolower s) = transform tolower s.
Proof.
  induction s as [|c s IH]; [reflexivity|].
  cbn [transform]. by rewrite tolower_idem, IH.
Qed.

(** C8 (as stated, refuted): with the lexicon {damn}, the strings "damn!"
    and "damn" have the same normalized form, yet only the second one is
    reported; [isProfane] does not strip punctuation. *)
Lemma isProfane_sees_punctuation :
  let f := mk {[ "damn"%string ]} in
  LyricsAlignment.normalizeText "damn!" = LyricsAlignment.normalizeText "damn"
  /\ isProfane f "damn!" = false
  /\ isProfane f "damn" = true
  /\ isProfane f "damn!" <> isProfane f (LyricsAlignment.normalizeText "damn!").
Proof. by_compute. Qed.

(** C8 (amended): [isProfane s] depends only on the lower-cased [s] (the
    case folding of [std::tolower], without the punctuation strip and the
    whitespace collapse of the aligner's normalization): two strings with
    equal lower-cased forms get the same answer, and
    [isProfane s = isProfane (lower s)] for every string [s]. *)
Theorem isProfane_depends_on_lowercase (f : t) :
  (forall s1 s2 : string,
      transform tolower s1 = transform tolower s2 -> isProfane f s1 = isProfane f s2)
  /\ (forall s : string, isProfane f (transform tolower s) = isProfane f s)
  /\ (forall s : string, isProfaneJuce f s = isProfane f s).
Proof.
  assert (H : forall s : string, isProfane f (transform tolower s) = isProfane f s).
  { intros s. unfold isProfane. by rewrite transform_tolower_idem. }
  split; [|split; [exact H|]].
  - intros s1 s2 Heq. unfold isProfane. by rewrite Heq.
  - intros s. unfold isProfaneJuce. apply H.
Qed.

(** The theorem at work: upper and lower case spellings agree. *)
Lemma isProfane_depends_on_lowercase_witness :
  transform tolower "DaMn" = transform tolower "damn"
  /\ isProfane (mk {[ "damn"%string ]}) "DaMn" = isProfane (mk {[ "damn"%string ]}) "damn".
Proof.
  split; [reflexivity|].
  apply (proj1 (isProfane_depends_on_lowercase (mk {[ "damn"%string ]}))).
  reflexivity.
Defined.

End ProfanityFilterFacts.

(** ** The forced aligner *)
Module LyricsAlignmentFacts.
Import Text LyricsAlignment LoopFacts.

(** The best position is either -1, with score 0, or inside the range that
    was searched. *)
Lemma findBestStartPosition_range a ws searchStart searchEnd :
  let r := findBestStartPosition a ws searchStart searchEnd in
  (fst r = -1 /\ snd r = 0%Q)
  \/ (searchStart <= fst r < Z.min searchEnd (getTotalWords a)).
Proof.
  cbv zeta. unfold findBestStartPosition.
  set (hi := Z.min searchEnd (getTotalWords a)).
  destruct (Z.le_gt_cases searchStart hi) as [Hle|Hgt].
  2:{ rewrite for_loop_nil by lia. by left. }
  apply (for_loop_ind (fun i (r : Z * Q) =>
           (fst r = -1 /\ snd r = 0%Q) \/ searchStart <= fst r < i)); [lia| |].
  - by left.
  - intros i [bp bs] Hi Hacc.
    match goal with |- context [if ?c then _ else _] => destruct c end; cbn [fst snd] in *.
    + right. lia.
    + destruct Hacc as [?|?]; [by left | right; lia].
Qed.

Lemma unlockOnJump_same a T :
  preprocessedLyrics (unlockOnJump a T) = preprocessedLyrics a
  /\ currentPosition (unlockOnJump a T) = currentPosition a
  /\ initialized (unlockOnJump a T) = initialized a.
Proof.
  unfold unlockOnJump. destruct (Qltb 0 T); [|done].
  destruct (_ && _); done.
Qed.











Lemma lyricsAt_same a b i :
  preprocessedLyrics a = preprocessedLyrics b -> lyricsAt a i = lyricsAt b i.
Proof. intros H. unfold lyricsAt. by rewrite H. Qed.

(** What [mapTimestamps] emits when the window fits into the lyrics. *)
Lemma mapTimestamps_window a pos count front rest :
  1 <= count <= getTotalWords a - pos ->
  let ws := front :: rest in
  let startTime := start front in
  let timePerWord := ((end_ (List.last ws front) - startTime) / inject_Z count)%Q in
  let conf := (sumConfidence ws / inject_Z (Z.of_nat (length ws)) * (95 # 100))%Q in
  mapTimestamps a pos count ws
  = map (fun i => mkWord (lyricsAt a (pos + i))
                         (startTime + inject_Z i * timePerWord)
                         (startTime + inject_Z i * timePerWord + timePerWord)
                         conf)
        (seqZ 0 count).
Proof.
  intros Hcount ws startTime timePerWord conf. unfold mapTimestamps. subst ws.
  destruct (Z.eqb_spec count 0) as [|_]; [lia|]. cbv zeta.
  rewrite Z.min_l by lia.
  etransitivity;
    [exact (for_loop_collect (fun i => mkWord (lyricsAt a (pos + i))
                         (startTime + inject_Z i * timePerWord)
                         (startTime + inject_Z i * timePerWord + timePerWord)
                         conf) 0 count [])|].
  cbn [app]. by rewrite Z.sub_0_r.
Qed.




End LyricsAlignmentFacts.

(** ** The timestamp refiner *)
Module TimestampRefinerFacts.
Import LyricsAlignment TimestampRefiner LoopFacts.

(** On the burst nothing depends on the square root but one comparison. *)
Lemma isolatedBurst_regions (sqrtf : Q -> Q) :
  (forall q, (q == 1)%Q -> (ENERGY_THRESHOLD < sqrtf q)%Q) ->
  energyRegions sqrtf isolatedBurst 0 960 = [(0, 480)].
Proof.
  intros Hsqrt. unfold energyRegions, for_loop_step.
  change (seqZ 0 _) with [0; 1]. cbn [foldl].
  change (0 + 0 * WINDOW_SIZE) with 0. change (0 + 1 * WINDOW_SIZE) with 480.
  assert (Hz0 : Qltb ZC_THRESHOLD (calculateZeroCrossing isolatedBurst 0 WINDOW_SIZE) = true)
    by (vm_compute; reflexivity).
  assert (Hz1 : Qltb ZC_THRESHOLD (calculateZeroCrossing isolatedBurst 480 WINDOW_SIZE) = false)
    by (vm_compute; reflexivity).
  assert (He0 : Qltb ENERGY_THRESHOLD (calculateEnergy sqrtf isolatedBurst 0 WINDOW_SIZE) = true).
  { unfold calculateEnergy.
    change ((0 <? 0) || (0 + WINDOW_SIZE >? asize isolatedBurst)) with false. cbv iota.
    unfold Qltb. apply negb_true_iff. apply not_true_iff_false.
    rewrite Qle_bool_iff. apply Qlt_not_le. apply Hsqrt. vm_compute. reflexivity. }
  rewrite Hz0, Hz1, He0. cbn [andb negb]. rewrite !andb_false_r. reflexivity.
Qed.

Lemma sqrtApprox_one q : (q == 1)%Q -> (ENERGY_THRESHOLD < sqrtApprox q)%Q.
Proof.
  intros Hq. destruct q as [n d]. unfold Qeq in Hq. cbn in Hq.
  assert (n = Z.pos d) as -> by lia.
  unfold sqrtApprox. cbn [Qnum Qden].
  replace (Z.pos d * Z.pos d * 2 ^ 48) with ((Z.pos d * 2 ^ 24) * (Z.pos d * 2 ^ 24)) by lia.
  rewrite Z.sqrt_square by lia.
  assert (Hpos : (0 < inject_Z (Z.pos d * 2 ^ 24))%Q).
  { change 0%Q with (inject_Z 0). rewrite <- Zlt_Qlt. lia. }
  apply Qlt_shift_div_l; [exact Hpos|].
  revert Hpos. generalize (inject_Z (Z.pos d * 2 ^ 24)). intros t Ht.
  unfold ENERGY_THRESHOLD. lra.
Qed.

(** What the sanity checks of [searchForSpeech] do ensure: the estimate
    comes back unchanged when no window is speech, and otherwise the
    duration is positive and at most [MAX_WORD_DURATION]. *)
Lemma searchForSpeech_duration (sqrtf : Q -> Q) audio whisperStart whisperEnd sampleRate :
  let r := searchForSpeech sqrtf audio whisperStart whisperEnd sampleRate in
  r = (whisperStart, whisperEnd)
  \/ (0 < snd r - fst r /\ snd r - fst r <= MAX_WORD_DURATION)%Q.
Proof.
  cbv zeta. unfold searchForSpeech.
  destruct (energyRegions _ _ _ _) as [|first regions]; [by left|]. right.
  cbv zeta. cbn [fst snd].
  match goal with
  | |- context [findBestBoundary sqrtf audio ?center ?radius ?rate true] =>
      generalize (findBestBoundary sqrtf audio center radius rate true)
  end.
  match goal with
  | |- context [findBestBoundary sqrtf audio ?center ?radius ?rate false] =>
      generalize (findBestBoundary sqrtf audio center radius rate false)
  end.
  intros refinedEnd refinedStart. unfold Qltb, MIN_WORD_DURATION, MAX_WORD_DURATION.
  destruct (Qle_bool refinedEnd refinedStart) eqn:Hle.
  - destruct (Qle_bool _ (2 # 1)) eqn:Hmax; cbn [negb].
    + apply Qle_bool_iff in Hmax. split; [lra | exact Hmax].
    + split; lra.
  - assert (Hlt : (refinedStart < refinedEnd)%Q).
    { apply Qnot_le_lt. intros H. apply Qle_bool_iff in H. congruence. }
    destruct (Qle_bool _ (2 # 1)) eqn:Hmax; cbn [negb].
    + apply Qle_bool_iff in Hmax. split; [lra | exact Hmax].
    + split; lra.
Qed.

(** C9 (the code at the failing input): a single 10 ms window of speech
    inside 20 ms of audio, with the recognizer's estimate [5 ms, 15 ms].
    The refiner finds the region [0, 480) samples, moves the word to
    [0 s, 0.01 s], and lets the 10 ms duration through although it is below
    [MIN_WORD_DURATION]; the minimum is applied only when the end does not
    exceed the start. *)
Theorem refiner_accepts_ten_millisecond_word (sqrtf : Q -> Q) :
  (forall q, (q == 1)%Q -> (ENERGY_THRESHOLD < sqrtf q)%Q) ->
  let r := searchForSpeech sqrtf isolatedBurst (5 # 1000) (15 # 1000) 48000 in
  (fst r == 0)%Q /\ (snd r == 1 # 100)%Q
  /\ ~ (fst r == 5 # 1000)%Q
  /\ (snd r - fst r < MIN_WORD_DURATION)%Q.
Proof.
  intros Hsqrt r. subst r. unfold searchForSpeech.
  change (energyRegions sqrtf isolatedBurst _ _)
    with (energyRegions sqrtf isolatedBurst 0 960).
  rewrite (isolatedBurst_regions sqrtf Hsqrt).
  vm_compute. repeat split; intros; discriminate.
Qed.

(** The same run with the rational square root. *)
Lemma refiner_accepts_ten_millisecond_word_witness :
  let r := searchForSpeech sqrtApprox isolatedBurst (5 # 1000) (15 # 1000) 48000 in
  (snd r - fst r < MIN_WORD_DURATION)%Q.
Proof.
  apply (refiner_accepts_ten_millisecond_word sqrtApprox sqrtApprox_one).
Defined.

End TimestampRefinerFacts.

(** ** The audio engine *)
Module AudioEngineFacts.
Import LyricsAlignment AudioEngine LoopFacts.

(** *** The delay buffer *)

Lemma storeDelay_length ch p x buf : length (storeDelay ch p x buf) = length buf.
Proof. unfold storeDelay. apply length_alter. Qed.

Lemma storeDelay_Forall n ch p x buf :
  Forall (fun channel => Z.of_nat (length channel) = n) buf ->
  Forall (fun channel => Z.of_nat (length channel) = n) (storeDelay ch p x buf).
Proof.
  intros H. unfold storeDelay. apply Forall_alter; [exact H|].
  intros c _ Hc. by rewrite length_vset.
Qed.

Lemma loadDelay_storeDelay n buf ch p x ch' p' :
  Forall (fun channel => Z.of_nat (length channel) = n) buf ->
  (ch < length buf)%nat -> 0 <= p < n ->
  loadDelay (storeDelay ch p x buf) ch' p'
  = if bool_decide (ch = ch') && (p =? p') then x else loadDelay buf ch' p'.
Proof.
  intros Hwf Hch Hp. unfold loadDelay, storeDelay.
  destruct (decide (ch = ch')) as [<-|Hne].
  - rewrite bool_decide_eq_true_2 by reflexivity. cbn [andb].
    rewrite list_lookup_alter_eq.
    destruct (lookup_lt_is_Some_2 buf ch Hch) as [c Hc]. rewrite Hc. cbn.
    rewrite vget_vset; [reflexivity|].
    rewrite Forall_lookup in Hwf. rewrite (Hwf ch c Hc). exact Hp.
  - rewrite bool_decide_eq_false_2 by exact Hne. cbn [andb].
    by rewrite list_lookup_alter_ne.
Qed.

Lemma loadDelay_storeDelay_out n buf ch p x ch' p' :
  Forall (fun channel => Z.of_nat (length channel) = n) buf ->
  ~ (0 <= p < n) ->
  loadDelay (storeDelay ch p x buf) ch' p' = loadDelay buf ch' p'.
Proof.
  intros Hwf Hp. unfold loadDelay, storeDelay.
  destruct (decide (ch = ch')) as [<-|Hne]; [|by rewrite list_lookup_alter_ne].
  rewrite list_lookup_alter_eq. destruct (buf !! ch) as [c|] eqn:Hc; [|reflexivity].
  cbn. f_equal. unfold vset. destruct (Z.ltb_spec p 0); [reflexivity|].
  apply list_insert_ge. rewrite Forall_lookup in Hwf. specialize (Hwf ch c Hc). lia.
Qed.

(** *** The start of playback *)

Lemma delay_reached (d : Q) (sr m : Z) :
  0 < sr ->
  Qle_bool d (inject_Z m / inject_Z sr) = (Qceiling (d * inject_Z sr) <=? m).
Proof.
  intros Hsr.
  assert (Hq : (0 < inject_Z sr)%Q) by (change 0%Q with (inject_Z 0); rewrite <- Zlt_Qlt; lia).
  destruct (Z.leb_spec (Qceiling (d * inject_Z sr)) m) as [Hle|Hgt].
  - apply Qle_bool_iff. apply Qle_shift_div_l; [exact Hq|].
    eapply Qle_trans; [apply Qle_ceiling|]. rewrite <- Zle_Qle. exact Hle.
  - apply not_true_iff_false. rewrite Qle_bool_iff. intros Hle.
    assert (Hm : (d * inject_Z sr <= inject_Z m)%Q).
    { assert (Heq : (inject_Z m / inject_Z sr * inject_Z sr == inject_Z m)%Q)
        by (field; intros H0; rewrite H0 in Hq; by apply Qlt_irrefl in Hq).
      rewrite <- Heq. apply Qmult_le_compat_r; [exact Hle | by apply Qlt_le_weak]. }
    apply Qceiling_resp_le in Hm. rewrite Qceiling_Z in Hm. lia.
Qed.

Lemma delay_never_short (d : Q) (sr : Z) :
  0 < sr ->
  Qltb (inject_Z (Qceiling (d * inject_Z sr)) / inject_Z sr) (d - 2) = false.
Proof.
  intros Hsr. unfold Qltb. apply negb_false_iff. apply Qle_bool_iff.
  pose proof (delay_reached d sr (Qceiling (d * inject_Z sr)) Hsr) as H.
  rewrite Z.leb_refl in H. apply Qle_bool_iff in H. lra.
Qed.

Lemma ring_gap N D m :
  0 <= D < N -> D < m ->
  Z.rem (m mod N - (m - D) mod N + N) N = D.
Proof.
  intros HD Hm.
  pose proof (Z.mod_pos_bound m N ltac:(lia)).
  pose proof (Z.mod_pos_bound (m - D) N ltac:(lia)).
  rewrite Z.rem_mod_nonneg by lia.
  symmetry. apply (Z.mod_unique _ _ (1 + (m - D) / N - m / N)); [lia|].
  pose proof (Z.div_mod m N ltac:(lia)).
  pose proof (Z.div_mod (m - D) N ltac:(lia)). lia.
Qed.

Lemma ring_next N m : 0 < N -> Z.rem (m mod N + 1) N = (m + 1) mod N.
Proof.
  intros HN. pose proof (Z.mod_pos_bound m N HN).
  rewrite Z.rem_mod_nonneg by lia.
  rewrite <- (Z.add_mod_idemp_l m 1 N) by lia. reflexivity.
Qed.

(** *** One iteration of the delay loop *)

(** Unfolds the setters and reduces field accesses. *)
Ltac fields :=
  unfold set_audioBuffer, set_processingBuffer, set_bufferWritePos,
    set_transcriptionInterval, set_hasNewBuffer, set_bufferCaptureTime, set_wasWaiting,
    set_debugCounter, set_delayBuffer, set_delayReadPos, set_delayWritePos,
    set_playbackStarted, set_wasPaused, set_bufferUnderrun, set_streamTime,
    set_lastUnderrunWarningTime, set_lyricsAlignment, set_songElapsedTime,
    set_qualityAnalyzer in *;
  cbn [sampleRate chunkSeconds initialDelaySeconds currentCensorMode audioBuffer
       processingBuffer bufferWritePos transcriptionInterval hasNewBuffer
       bufferCaptureTime wasWaiting debugCounter delayBuffer delayBufferSize
       delayReadPos delayWritePos isRunning playbackStarted wasPaused bufferUnderrun
       streamTime lastUnderrunWarningTime profanityFilter lyricsAlignment
       useLyricsAlignment songLyrics songElapsedTime qualityAnalyzer] in *.

Lemma set_delayBuffer_same e : set_delayBuffer (delayBuffer e) e = e.
Proof. by destruct e. Qed.

(** The write touches the two cells at the write position and nothing
    else. *)
Lemma writeFrame_spec inputs e :
  wellFormed e -> 0 <= delayWritePos e < delayBufferSize e ->
  exists buf,
    writeFrame inputs e = set_delayBuffer buf e
    /\ length buf = 2%nat
    /\ Forall (fun channel => Z.of_nat (length channel) = delayBufferSize e) buf
    /\ forall ch p,
         loadDelay buf ch p
         = if (p =? delayWritePos e) && (ch <? 2)%nat
           then default (loadDelay (delayBuffer e) ch p) (mjoin (inputs !! ch))
           else loadDelay (delayBuffer e) ch p.
Proof.
  intros (Hsr & HD & Hlen & Hall) Hw. unfold writeFrame.
  set (w := delayWritePos e) in *. set (N := delayBufferSize e) in *.
  destruct (mjoin (inputs !! 0%nat)) as [x0|] eqn:H0;
    destruct (mjoin (inputs !! 1%nat)) as [x1|] eqn:H1.
  - exists (storeDelay 1 w x1 (storeDelay 0 w x0 (delayBuffer e))).
    split; [by destruct e|]. split; [by rewrite !storeDelay_length|].
    split; [by do 2 apply storeDelay_Forall|].
    intros ch p.
    rewrite (loadDelay_storeDelay N) by
      (rewrite ?storeDelay_length; first [by apply storeDelay_Forall | lia]).
    rewrite (loadDelay_storeDelay N) by first [assumption | lia].
    destruct ch as [|[|ch]]; cbn [bool_decide decide_rel andb Nat.ltb Nat.leb];
      rewrite ?H0, ?H1; cbn [default];
      rewrite ?(Z.eqb_sym w p); destruct (p =? w); try reflexivity.
  - exists (storeDelay 0 w x0 (delayBuffer e)).
    split; [by destruct e|]. split; [by rewrite !storeDelay_length|].
    split; [by apply storeDelay_Forall|].
    intros ch p. rewrite (loadDelay_storeDelay N) by first [assumption | lia].
    destruct ch as [|[|ch]]; cbn [bool_decide decide_rel andb Nat.ltb Nat.leb];
      rewrite ?H0, ?H1; cbn [default];
      rewrite ?(Z.eqb_sym w p); destruct (p =? w); try reflexivity.
  - exists (storeDelay 1 w x1 (delayBuffer e)).
    split; [by destruct e|]. split; [by rewrite !storeDelay_length|].
    split; [by apply storeDelay_Forall|].
    intros ch p. rewrite (loadDelay_storeDelay N) by first [assumption | lia].
    destruct ch as [|[|ch]]; cbn [bool_decide decide_rel andb Nat.ltb Nat.leb];
      rewrite ?H0, ?H1; cbn [default];
      rewrite ?(Z.eqb_sym w p); destruct (p =? w); try reflexivity.
  - exists (delayBuffer e). split; [by rewrite set_delayBuffer_same|].
    split; [exact Hlen|]. split; [exact Hall|].
    intros ch p.
    destruct ch as [|[|ch]]; cbn [andb Nat.ltb Nat.leb];
      rewrite ?H0, ?H1; cbn [default]; destruct (p =? w); reflexivity.
Qed.

Lemma wellFormed_set_delayBuffer buf e :
  wellFormed e -> length buf = 2%nat ->
  Forall (fun channel => Z.of_nat (length channel) = delayBufferSize e) buf ->
  wellFormed (set_delayBuffer buf e).
Proof. intros (? & ? & ? & ?) ? ?. by destruct e. Qed.

Lemma inPhase_set_delayBuffer m buf e : inPhase m e -> inPhase m (set_delayBuffer buf e).
Proof. by destruct e. Qed.

Lemma inPhase_bounds m e :
  wellFormed e -> inPhase m e -> 0 <= m ->
  0 <= delayWritePos e < delayBufferSize e /\ 0 <= delayReadPos e < delayBufferSize e.
Proof.
  intros (Hsr & HD & _) (Hw & _ & _ & Hr) Hm. rewrite Hw, Hr.
  split; [apply Z.mod_pos_bound; lia|].
  destruct (_ <? _); [apply Z.mod_pos_bound; lia | lia].
Qed.

(** In phase [m] playback is on exactly when [m] has reached the delay; the
    pause of the dynamic buffering never triggers. *)
Lemma gatePlayback_spec m e :
  wellFormed e -> inPhase m e -> 0 <= m ->
  gatePlayback e
  = (delaySamples e <=? m,
     if delaySamples e <=? m then set_playbackStarted true e else e).
Proof.
  intros (Hsr & HD & _) (Hw & Hpaused & Hstarted & Hr) Hm.
  unfold gatePlayback, currentGap. rewrite Hstarted, Hw, Hr, Hpaused.
  unfold delaySamples in *.
  set (D := Qceiling (initialDelaySeconds e * inject_Z (sampleRate e))) in *.
  set (N := delayBufferSize e) in *.
  destruct (Z.ltb_spec D m) as [Hlt|Hge]; cbn [negb].
  - rewrite ring_gap by lia.
    pose proof (delay_never_short (initialDelaySeconds e) (sampleRate e) Hsr) as Hns.
    fold D in Hns. rewrite Hns. cbn [andb]. rewrite ?andb_false_r, Hpaused. cbn [negb].
    destruct (Z.leb_spec D m); [|lia]. f_equal.
    destruct e; fields. by subst.
  - assert (Hgap : Z.rem (m mod N - 0 + N) N = m).
    { rewrite (Z.mod_small m N) by lia. rewrite Z.rem_mod_nonneg by lia.
      replace (m - 0 + N) with (m + 1 * N) by lia.
      rewrite Z.mod_add by lia. apply Z.mod_small. lia. }
    rewrite Hgap. rewrite delay_reached by exact Hsr. fold D. reflexivity.
Qed.

Lemma delaySamples_config e e' : config e' = config e -> delaySamples e' = delaySamples e.
Proof. unfold config, delaySamples. intros [= -> -> _ _]. reflexivity. Qed.

(** The state and the output of an iteration, from what its first two
    parts did. *)
Lemma delayFrame_fields inputs outs e buf (canPlay : bool) :
  writeFrame inputs e = set_delayBuffer buf e ->
  gatePlayback (set_delayBuffer buf e)
  = (canPlay, if canPlay then set_playbackStarted true (set_delayBuffer buf e)
              else set_delayBuffer buf e) ->
  let r := delayFrame inputs outs e in
  delayBuffer (snd r) = buf
  /\ delayWritePos (snd r) = Z.rem (delayWritePos e + 1) (delayBufferSize e)
  /\ delayReadPos (snd r)
     = (if canPlay then Z.rem (delayReadPos e + 1) (delayBufferSize e) else delayReadPos e)
  /\ playbackStarted (snd r) = canPlay || playbackStarted e
  /\ wasPaused (snd r) = wasPaused e
  /\ config (snd r) = config e
  /\ forall c, outs !! c = Some true ->
       outputSample (fst r) c
       = Some (if canPlay then loadDelay buf (Nat.min c 1) (delayReadPos e) else 0%Q).
Proof.
  intros Hw Hg r. subst r. unfold delayFrame. rewrite Hw, Hg. clear Hw Hg.
  cbn [fst snd].
  assert (Hout : forall c e', outs !! c = Some true ->
            outputSample (readFrame outs canPlay e') c
            = Some (if canPlay then loadDelay (delayBuffer e') (Nat.min c 1) (delayReadPos e')
                    else 0%Q)).
  { intros c e' Hc. unfold outputSample, readFrame.
    rewrite list_lookup_imap, Hc. reflexivity. }
  destruct canPlay.
  - repeat split; try (destruct e; reflexivity).
    intros c Hc. rewrite Hout by exact Hc. destruct e; reflexivity.
  - repeat split; try (destruct e; reflexivity).
    intros c Hc. rewrite Hout by exact Hc. reflexivity.
Qed.

Lemma config_fields e e' :
  config e' = config e ->
  delayBufferSize e' = delayBufferSize e /\ currentCensorMode e' = currentCensorMode e.
Proof. unfold config. intros [= _ _ -> ->]. auto. Qed.

(** One frame in phase [m]: the input goes to cell [m mod N]; the output is
    silence while fewer than D frames are buffered and afterwards the cell
    D frames back. *)
Lemma frame_step m e inputs outs :
  wellFormed e -> inPhase m e -> 0 <= m ->
  let r := delayFrame inputs outs e in
  let D := delaySamples e in
  let N := delayBufferSize e in
  wellFormed (snd r) /\ inPhase (m + 1) (snd r) /\ config (snd r) = config e
  /\ (forall ch p,
        loadDelay (delayBuffer (snd r)) ch p
        = if (p =? m mod N) && (ch <? 2)%nat
          then default (loadDelay (delayBuffer e) ch p) (mjoin (inputs !! ch))
          else loadDelay (delayBuffer e) ch p)
  /\ (forall c, outs !! c = Some true ->
        outputSample (fst r) c
        = Some (if D <=? m
                then loadDelay (delayBuffer (snd r)) (Nat.min c 1) ((m - D) mod N)
                else 0%Q)).
Proof.
  intros Hwf Hph Hm r D N.
  destruct (inPhase_bounds m e Hwf Hph Hm) as [Hwb Hrb].
  destruct (writeFrame_spec inputs e Hwf Hwb) as (buf & Heq & Hlen & Hall & Hcells).
  assert (Hwf1 : wellFormed (set_delayBuffer buf e))
    by (by apply wellFormed_set_delayBuffer).
  assert (Hph1 : inPhase m (set_delayBuffer buf e)) by (by apply inPhase_set_delayBuffer).
  pose proof (gatePlayback_spec m _ Hwf1 Hph1 Hm) as Hgate.
  assert (HD1 : delaySamples (set_delayBuffer buf e) = D) by (by destruct e).
  rewrite HD1 in Hgate.
  destruct (delayFrame_fields inputs outs e buf (D <=? m) Heq Hgate)
    as (Hb & Hw' & Hr' & Hs' & Hp' & Hc' & Hout).
  fold r in Hb, Hw', Hr', Hs', Hp', Hc', Hout. clearbody r.
  clear Heq Hgate Hwf1 Hph1 HD1.
  pose proof (delaySamples_config _ _ Hc') as HD'. fold D in HD'.
  assert (HN' : delayBufferSize (snd r) = N) by (by injection Hc').
  assert (Hsr' : sampleRate (snd r) = sampleRate e) by (by injection Hc').
  destruct Hwf as (Hsr & HD & _ & _). fold D N in HD.
  destruct Hph as (Hw & Hpaused & Hstarted & Hr). fold D N in Hw, Hstarted, Hr.
  fold N in Hw', Hr', Hall.
  split; [|split; [|split; [|split]]].
  - unfold wellFormed. rewrite HD', HN', Hsr', Hb. auto.
  - unfold inPhase. rewrite HD', HN', Hw', Hr', Hs', Hp', Hw, Hr, Hstarted.
    split; [apply ring_next; lia|]. split; [exact Hpaused|].
    destruct (Z.leb_spec D m) as [Hle|Hlt].
    + destruct (Z.ltb_spec D (m + 1)); [|lia]. cbn [orb]. split; [reflexivity|].
      destruct (Z.ltb_spec D m).
      * replace (m + 1 - D) with (m - D + 1) by lia. apply ring_next. lia.
      * replace (m + 1 - D) with 1 by lia.
        rewrite Z.rem_mod_nonneg by lia. reflexivity.
    + destruct (Z.ltb_spec D (m + 1)); [lia|].
      destruct (Z.ltb_spec D m); [lia|]. split; reflexivity.
  - exact Hc'.
  - intros ch p. rewrite Hb, Hcells, Hw. reflexivity.
  - intros c Hc. rewrite (Hout c Hc), Hb, Hr. f_equal.
    destruct (Z.leb_spec D m), (Z.ltb_spec D m); try lia; try reflexivity.
    replace (m - D) with 0 by lia. rewrite Z.mod_0_l by lia. reflexivity.
Qed.

(** *** Rewrites of the delay line *)

Lemma existsb_seqZ_snoc (f : Z -> bool) lo n :
  0 <= n -> existsb f (seqZ lo (n + 1)) = existsb f (seqZ lo n) || f (lo + n).
Proof.
  intros Hn. rewrite seqZ_app by lia. rewrite existsb_app.
  rewrite (seqZ_cons _ 1) by lia. rewrite (seqZ_nil _ (Z.pred 1)) by lia.
  cbn [existsb]. by rewrite orb_false_r.
Qed.

(** A loop that stores [val i] in cell [idx i] of channel [ch]: afterwards a
    cell that some iteration hit holds [v], provided every iteration hitting
    it stores [v]; all other cells are as before. *)
Lemma store_loop ch (idx : Z -> Z -> Z) (val : Z -> Q) lo hi e :
  wellFormed e -> (ch < 2)%nat ->
  let e' := for_loop lo hi (fun i e =>
              set_delayBuffer
                (storeDelay ch (idx (delayBufferSize e) i) (val i) (delayBuffer e)) e) e in
  exists buf,
    e' = set_delayBuffer buf e /\ length buf = 2%nat
    /\ Forall (fun channel => Z.of_nat (length channel) = delayBufferSize e) buf
    /\ (forall ch', ch' <> ch -> forall q, loadDelay buf ch' q = loadDelay (delayBuffer e) ch' q)
    /\ (forall p v,
        (forall i, lo <= i < hi -> idx (delayBufferSize e) i = p -> val i = v) ->
        0 <= p < delayBufferSize e ->
        loadDelay buf ch p
        = if existsb (fun i => idx (delayBufferSize e) i =? p) (seqZ lo (hi - lo))
          then v else loadDelay (delayBuffer e) ch p).
Proof.
  intros Hwf Hch e'. subst e'. set (N := delayBufferSize e) in *.
  destruct Hwf as (Hsr & HD & Hlen & Hall).
  destruct (Z.le_gt_cases lo hi) as [Hle|Hgt].
  2:{ rewrite for_loop_nil by lia. exists (delayBuffer e).
      rewrite set_delayBuffer_same, seqZ_nil by lia. auto. }
  apply (for_loop_ind (fun i e' =>
    exists buf,
      e' = set_delayBuffer buf e /\ length buf = 2%nat
      /\ Forall (fun channel => Z.of_nat (length channel) = N) buf
      /\ (forall ch', ch' <> ch -> forall q, loadDelay buf ch' q = loadDelay (delayBuffer e) ch' q)
      /\ (forall p v,
          (forall j, lo <= j < i -> idx N j = p -> val j = v) ->
          0 <= p < N ->
          loadDelay buf ch p
          = if existsb (fun j => idx N j =? p) (seqZ lo (i - lo))
            then v else loadDelay (delayBuffer e) ch p))); [lia| |].
  - exists (delayBuffer e). rewrite set_delayBuffer_same, seqZ_nil by lia. auto.
  - intros i acc Hi (buf & -> & Hl & Ha & Hother & Hcell).
    exists (storeDelay ch (idx N i) (val i) buf).
    split; [by destruct e|]. split; [by rewrite storeDelay_length|].
    split; [by apply storeDelay_Forall|]. split.
    + intros ch' Hne q. rewrite <- (Hother ch' Hne q).
      unfold loadDelay, storeDelay. by rewrite list_lookup_alter_ne.
    + intros p v Hval Hp. replace (i + 1 - lo) with ((i - lo) + 1) by lia.
      rewrite existsb_seqZ_snoc by lia. replace (lo + (i - lo)) with i by lia.
      destruct (Z.eqb_spec (idx N i) p) as [Heq|Hne].
      * rewrite orb_true_r.
        rewrite (loadDelay_storeDelay N) by (first [assumption | lia]).
        rewrite bool_decide_eq_true_2 by reflexivity.
        destruct (Z.eqb_spec (idx N i) p); [|lia]. cbn [andb]. apply Hval; [lia|exact Heq].
      * rewrite orb_false_r.
        rewrite <- (Hcell p v) by (first [exact Hp | intros; apply Hval; [lia|assumption]]).
        destruct (decide (0 <= idx N i < N)) as [Hin|Hout].
        -- rewrite (loadDelay_storeDelay N) by (first [assumption | lia]).
           destruct (Z.eqb_spec (idx N i) p); [lia|]. by rewrite andb_false_r.
        -- by rewrite (loadDelay_storeDelay_out N).
Qed.

Lemma for_loop_two {St} (body : Z -> St -> St) s :
  for_loop 0 2 body s = body 1 (body 0 s).
Proof. reflexivity. Qed.

(** The inline mute of the engine: zeros in every covered cell of both
    channels, nothing else changes. *)
Lemma muteDelay_spec cs ss es e :
  wellFormed e ->
  exists buf,
    muteDelay cs ss es e = set_delayBuffer buf e /\ length buf = 2%nat
    /\ Forall (fun channel => Z.of_nat (length channel) = delayBufferSize e) buf
    /\ forall ch p, 0 <= p < delayBufferSize e ->
         loadDelay buf ch p
         = if covers (delayBufferSize e) cs ss es p && (ch <? 2)%nat
           then 0%Q else loadDelay (delayBuffer e) ch p.
Proof.
  intros Hwf. unfold muteDelay. rewrite for_loop_two.
  set (N := delayBufferSize e).
  destruct (store_loop 0 (fun n i => Z.rem (cs + i) n) (fun _ => 0%Q) ss es e Hwf ltac:(lia))
    as (buf0 & Heq0 & Hl0 & Ha0 & Hother0 & Hcell0).
  change (Z.to_nat 0) with 0%nat. change (Z.to_nat 1) with 1%nat.
  cbv zeta in Heq0 |- *. rewrite Heq0.
  assert (Hwf0 : wellFormed (set_delayBuffer buf0 e))
    by (by apply wellFormed_set_delayBuffer).
  destruct (store_loop 1 (fun n i => Z.rem (cs + i) n) (fun _ => 0%Q) ss es _ Hwf0 ltac:(lia))
    as (buf1 & Heq1 & Hl1 & Ha1 & Hother1 & Hcell1).
  cbv zeta in Heq1. rewrite Heq1.
  exists buf1. split; [by destruct e|]. split; [exact Hl1|].
  split; [by destruct e|].
  intros ch p Hp.
  assert (HN : delayBufferSize (set_delayBuffer buf0 e) = N) by (by destruct e).
  assert (Hb : delayBuffer (set_delayBuffer buf0 e) = buf0) by (by destruct e).
  change (delayBufferSize (set_delayBuffer buf0 e)) with N in Hcell1.
  rewrite ?Hb in Hcell1, Hother1. fold N in Hcell0. cbv beta in Hcell0, Hcell1.
  destruct ch as [|[|ch]].
  - rewrite Hother1 by lia. rewrite (Hcell0 p 0%Q) by auto.
    unfold covers. fold N. by destruct (existsb _ _).
  - rewrite (Hcell1 p 0%Q) by auto. rewrite Hother0 by lia.
    unfold covers. fold N. by destruct (existsb _ _).
  - rewrite Hother1 by lia. rewrite Hother0 by lia. by rewrite andb_false_r.
Qed.

Lemma existsb_false_seqZ (f : Z -> bool) lo n :
  existsb f (seqZ lo n) = false -> forall i, lo <= i < lo + n -> f i = false.
Proof.
  intros H i Hi. apply not_true_iff_false. intros Hf.
  apply not_true_iff_false in H. apply H. apply existsb_exists.
  exists i. split; [|exact Hf]. apply list_elem_of_In, elem_of_seqZ. lia.
Qed.

Lemma existsb_pointwise {A} (f g : A -> bool) l :
  (forall x, f x = g x) -> existsb f l = existsb g l.
Proof. intros H. induction l as [|x l IH]; [reflexivity|]. cbn. by rewrite H, IH. Qed.

Lemma existsb_shift (f : Z -> bool) lo n :
  existsb f (seqZ lo n) = existsb (fun i => f (lo + i)) (seqZ 0 n).
Proof.
  rewrite <- (Z.add_0_r lo) at 1. rewrite <- fmap_add_seqZ.
  generalize (seqZ 0 n). intros l. induction l as [|x l IH]; [reflexivity|].
  cbn. by rewrite IH.
Qed.

Lemma mod_window_inj N a i j :
  0 < N -> 0 <= i < N -> 0 <= j < N -> (a + i) mod N = (a + j) mod N -> i = j.
Proof.
  intros HN Hi Hj Heq.
  assert (Hd : forall x y, 0 <= x - y < N -> (a + x) mod N = (a + y) mod N -> x = y).
  { intros x y Hxy H.
    assert (H0 : ((a + x) - (a + y)) mod N = 0) by (rewrite Zminus_mod, H, Z.sub_diag; by apply Z.mod_0_l; lia).
    replace (a + x - (a + y)) with (x - y) in H0 by lia.
    rewrite Z.mod_small in H0 by lia. lia. }
  destruct (Z.le_gt_cases j i); [apply Hd; [lia|exact Heq] | symmetry; apply Hd; [lia|by symmetry]].
Qed.

Lemma vget_reverse_fmap (f : Z -> Q) n i :
  0 <= i < n -> vget 0%Q (reverse (f <$> seqZ 0 n)) i = f (n - 1 - i).
Proof.
  intros Hi. unfold vget. destruct (Z.ltb_spec i 0); [lia|].
  rewrite reverse_lookup by (rewrite length_fmap, length_seqZ; lia).
  rewrite length_fmap, length_seqZ, list_lookup_fmap.
  rewrite lookup_seqZ_lt by lia. cbn. f_equal. lia.
Qed.

(** The reversal: cells outside the interval keep their value; for an
    interval no longer than the ring that starts at a valid offset, cell
    number [i] of the interval receives the old value of its mirror cell
    scaled by the gain of position [i]. *)
Lemma reverseDelay_spec cs ss es e :
  wellFormed e ->
  let N := delayBufferSize e in
  let n := es - ss in
  let fadeSamples := Z.min 480 (Z.quot n 4) in
  exists buf,
    reverseDelay cs ss es e = set_delayBuffer buf e /\ length buf = 2%nat
    /\ Forall (fun channel => Z.of_nat (length channel) = N) buf
    /\ (forall ch p, 0 <= p < N -> covers N cs ss es p = false ->
          loadDelay buf ch p = loadDelay (delayBuffer e) ch p)
    /\ (forall ch i, (ch < 2)%nat -> 0 <= i < n -> n <= N -> 0 <= cs + ss ->
          loadDelay buf ch ((cs + ss + i) mod N)
          = (loadDelay (delayBuffer e) ch ((cs + ss + (n - 1 - i)) mod N)
             * reverseGain i n fadeSamples)%Q).
Proof.
  intros Hwf N n fadeSamples. unfold reverseDelay. fold n. cbv zeta. fold fadeSamples.
  rewrite for_loop_two.
  change (Z.to_nat 0) with 0%nat. change (Z.to_nat 1) with 1%nat.
  pose proof Hwf as (Hsr & HD & _ & _). fold N in HD.
  set (temp := fun (ch : nat) (e1 : t) =>
         reverse ((fun i => loadDelay (delayBuffer e1) ch
                               (Z.rem (cs + ss + i) (delayBufferSize e1))) <$> seqZ 0 n)).
  destruct (store_loop 0 (fun m i => Z.rem (cs + ss + i) m)
              (fun i => (vget 0%Q (temp 0%nat e) i * reverseGain i n fadeSamples)%Q)
              0 n e Hwf ltac:(lia))
    as (buf0 & Heq0 & Hl0 & Ha0 & Hother0 & Hcell0).
  cbv zeta in Heq0. fold (temp 0%nat e). rewrite Heq0.
  assert (Hwf0 : wellFormed (set_delayBuffer buf0 e))
    by (by apply wellFormed_set_delayBuffer).
  destruct (store_loop 1 (fun m i => Z.rem (cs + ss + i) m)
              (fun i => (vget 0%Q (temp 1%nat (set_delayBuffer buf0 e)) i
                         * reverseGain i n fadeSamples)%Q)
              0 n _ Hwf0 ltac:(lia))
    as (buf1 & Heq1 & Hl1 & Ha1 & Hother1 & Hcell1).
  cbv zeta in Heq1. fold (temp 1%nat (set_delayBuffer buf0 e)). rewrite Heq1.
  assert (HN : delayBufferSize (set_delayBuffer buf0 e) = N) by (by destruct e).
  assert (Hb : delayBuffer (set_delayBuffer buf0 e) = buf0) by (by destruct e).
  change (delayBufferSize (set_delayBuffer buf0 e)) with N in Hcell1.
  rewrite ?Hb in Hcell1, Hother1. fold N in Hcell0. rewrite Z.sub_0_r in Hcell0, Hcell1.
  cbv beta in Hcell0, Hcell1.
  assert (Hcov : forall p,
            existsb (fun i => Z.rem (cs + ss + i) N =? p) (seqZ 0 n) = covers N cs ss es p).
  { intros p. unfold covers. fold n. rewrite (existsb_shift _ ss n).
    apply existsb_pointwise. intros i. by rewrite Z.add_assoc. }
  exists buf1. split; [by destruct e|]. split; [exact Hl1|].
  split; [by destruct e|]. split.
  - intros ch p Hp Hnc. rewrite <- Hcov in Hnc.
    assert (Hno : forall i, 0 <= i < n -> Z.rem (cs + ss + i) N = p -> False).
    { intros i Hi Hidx.
      pose proof (existsb_false_seqZ _ 0 n Hnc i ltac:(lia)) as Hf.
      cbv beta in Hf. apply Z.eqb_neq in Hf. contradiction. }
    destruct ch as [|[|ch]].
    + rewrite Hother1 by lia.
      rewrite (Hcell0 p (loadDelay (delayBuffer e) 0 p)) by
        (first [exact Hp | intros i Hi Hidx; exfalso; by apply (Hno i)]).
      by destruct (existsb _ _).
    + rewrite (Hcell1 p (loadDelay buf0 1 p)) by
        (first [exact Hp | intros i Hi Hidx; exfalso; by apply (Hno i)]).
      rewrite Hother0 by lia. by destruct (existsb _ _).
    + rewrite Hother1 by lia. apply Hother0. lia.
  - intros ch i Hch Hi Hn Hcs.
    assert (Hrem : forall j, 0 <= j -> Z.rem (cs + ss + j) N = (cs + ss + j) mod N)
      by (intros; apply Z.rem_mod_nonneg; lia).
    assert (Hin : 0 <= (cs + ss + i) mod N < N) by (apply Z.mod_pos_bound; lia).
    assert (Hhit : existsb (fun j => Z.rem (cs + ss + j) N =? (cs + ss + i) mod N)
                     (seqZ 0 n) = true).
    { apply existsb_exists. exists i. split.
      - apply list_elem_of_In, elem_of_seqZ. lia.
      - apply Z.eqb_eq. apply Hrem. lia. }
    assert (Huniq : forall j, 0 <= j < n ->
              Z.rem (cs + ss + j) N = (cs + ss + i) mod N -> j = i).
    { intros j Hj Hidx. rewrite Hrem in Hidx by lia.
      apply (mod_window_inj N (cs + ss)); [lia | lia | lia | exact Hidx]. }
    destruct ch as [|[|ch]]; [| |lia].
    + rewrite Hother1 by lia.
      rewrite (Hcell0 _ (vget 0%Q (temp 0%nat e) i * reverseGain i n fadeSamples)%Q)
        by (first [exact Hin | intros j Hj Hidx; by rewrite (Huniq j Hj Hidx)]).
      rewrite Hhit. f_equal. unfold temp. rewrite vget_reverse_fmap by lia.
      fold N. rewrite Hrem by lia. reflexivity.
    + rewrite (Hcell1 _ (vget 0%Q (temp 1%nat (set_delayBuffer buf0 e)) i
                         * reverseGain i n fadeSamples)%Q)
        by (first [exact Hin | intros j Hj Hidx; by rewrite (Huniq j Hj Hidx)]).
      rewrite Hhit. f_equal. unfold temp. rewrite vget_reverse_fmap by lia.
      rewrite HN, Hb. rewrite Hrem by lia. apply Hother0. lia.
Qed.

(** *** Runs *)

Lemma frameCount_cons ev tr :
  frameCount (ev :: tr) = (if isFrame ev then 1 else 0) + frameCount tr.
Proof.
  unfold frameCount. destruct (isFrame ev) eqn:H.
  - rewrite filter_cons_True by exact H. cbn [length]. lia.
  - rewrite filter_cons_False by (rewrite H; discriminate). lia.
Qed.

Lemma frameCount_app tr1 tr2 : frameCount (tr1 ++ tr2) = frameCount tr1 + frameCount tr2.
Proof. unfold frameCount. rewrite filter_app, length_app. lia. Qed.

Lemma frameCount_nonneg tr : 0 <= frameCount tr.
Proof. unfold frameCount. lia. Qed.

Lemma run_app tr1 tr2 e :
  run (tr1 ++ tr2) e
  = (fst (run tr1 e) ++ fst (run tr2 (snd (run tr1 e))), snd (run tr2 (snd (run tr1 e)))).
Proof.
  revert e. induction tr1 as [|ev tr1 IH]; intros e; cbn [run app fst snd].
  - by destruct (run tr2 e).
  - destruct (exec ev e) as [out e1]. rewrite IH.
    destruct (run tr1 e1) as [o1 e2]. cbn [fst snd].
    destruct (run tr2 e2) as [o2 e3]. cbn [fst snd]. by rewrite app_assoc.
Qed.

Lemma run_cons ev tr e :
  run (ev :: tr) e
  = (fst (exec ev e) ++ fst (run tr (snd (exec ev e))), snd (run tr (snd (exec ev e)))).
Proof.
  cbn [run]. destruct (exec ev e) as [out e1]. cbn [fst snd].
  by destruct (run tr e1).
Qed.

Lemma wellFormed_view e e' :
  delayBuffer e' = delayBuffer e -> config e' = config e ->
  wellFormed e -> wellFormed e'.
Proof.
  intros Hb Hc (H1 & H2 & H3 & H4). unfold wellFormed.
  rewrite (delaySamples_config _ _ Hc), Hb.
  injection Hc as -> _ -> _. auto.
Qed.

Lemma set_delayBuffer_fields buf e :
  delayBuffer (set_delayBuffer buf e) = buf
  /\ config (set_delayBuffer buf e) = config e.
Proof. by destruct e. Qed.

Lemma tame_fields f e :
  (forall e, delayLine (f e) = delayLine e) ->
  delayBuffer (f e) = delayBuffer e /\ config (f e) = config e
  /\ (forall m, inPhase m e -> inPhase m (f e)).
Proof.
  intros H. specialize (H e). unfold delayLine in H.
  injection H as Hb HN Hr Hw Hs Hp Hsr Hd Hm.
  assert (Hc : config (f e) = config e) by (unfold config; congruence).
  split; [exact Hb|]. split; [exact Hc|].
  intros m (H1 & H2 & H3 & H4). unfold inPhase.
  rewrite (delaySamples_config _ _ Hc), HN, Hr, Hw, Hs, Hp. auto.
Qed.

(** One step of a run in phase [m]. *)
Lemma exec_step ev e m :
  tame ev -> wellFormed e -> inPhase m e -> 0 <= m ->
  let r := exec ev e in
  let N := delayBufferSize e in
  wellFormed (snd r) /\ inPhase (m + (if isFrame ev then 1 else 0)) (snd r)
  /\ config (snd r) = config e
  /\ (forall ch p, 0 <= p < N -> touches N ev p = false ->
        (isFrame ev = true -> p <> m mod N) ->
        loadDelay (delayBuffer (snd r)) ch p = loadDelay (delayBuffer e) ch p).
Proof.
  intros Htame Hwf Hph Hm r N. subst r. destruct ev as [inputs outs|cs ss es|f].
  - cbn [exec isFrame].
    destruct (frame_step m e inputs outs Hwf Hph Hm) as (H1 & H2 & H3 & H4 & _).
    destruct (delayFrame inputs outs e) as [out e']. cbn [fst snd] in *.
    split; [exact H1|]. split; [exact H2|]. split; [exact H3|].
    intros ch p Hp _ Hne. rewrite H4. fold N.
    destruct (Z.eqb_spec p (m mod N)); [by destruct Hne | reflexivity].
  - cbn [exec isFrame snd]. rewrite Z.add_0_r. unfold applyCensorMode.
    destruct (currentCensorMode e).
    + destruct (reverseDelay_spec cs ss es e Hwf) as (buf & -> & Hl & Ha & Hun & _).
      destruct (set_delayBuffer_fields buf e) as [Hb Hc].
      split; [by apply wellFormed_set_delayBuffer|].
      split; [by apply inPhase_set_delayBuffer|]. split; [exact Hc|].
      intros ch p Hp Ht _. rewrite Hb. apply Hun; assumption.
    + destruct (muteDelay_spec cs ss es e Hwf) as (buf & -> & Hl & Ha & Hcell).
      destruct (set_delayBuffer_fields buf e) as [Hb Hc].
      split; [by apply wellFormed_set_delayBuffer|].
      split; [by apply inPhase_set_delayBuffer|]. split; [exact Hc|].
      intros ch p Hp Ht _. rewrite Hb, (Hcell ch p Hp). cbn [touches] in Ht.
      fold N. by rewrite Ht.
  - cbn [exec isFrame snd tame] in *. rewrite Z.add_0_r.
    destruct (tame_fields f e Htame) as (Hb & Hc & Hin).
    split; [by apply (wellFormed_view e)|]. split; [by apply Hin|].
    split; [exact Hc|]. intros ch p _ _ _. by rewrite Hb.
Qed.

(** A whole run started in phase [m]. *)
Lemma run_steps tr : forall e m,
  Forall tame tr -> wellFormed e -> inPhase m e -> 0 <= m ->
  let r := run tr e in
  let N := delayBufferSize e in
  wellFormed (snd r) /\ inPhase (m + frameCount tr) (snd r)
  /\ config (snd r) = config e
  /\ (forall ch p, 0 <= p < N ->
        Forall (fun ev => touches N ev p = false) tr ->
        (forall j, m <= j < m + frameCount tr -> j mod N <> p) ->
        loadDelay (delayBuffer (snd r)) ch p = loadDelay (delayBuffer e) ch p).
Proof.
  induction tr as [|ev tr IH]; intros e m Htame Hwf Hph Hm r N; subst r.
  - cbn [run snd]. change (frameCount []) with 0. rewrite Z.add_0_r. auto.
  - rewrite run_cons. cbn [snd].
    apply Forall_cons in Htame as [Hev Htame].
    destruct (exec_step ev e m Hev Hwf Hph Hm) as (Hwf1 & Hph1 & Hc1 & Hcell1).
    assert (HN1 : delayBufferSize (snd (exec ev e)) = N) by (by injection Hc1).
    assert (Hm1 : 0 <= m + (if isFrame ev then 1 else 0)) by (destruct (isFrame ev); lia).
    destruct (IH _ _ Htame Hwf1 Hph1 Hm1) as (Hwf2 & Hph2 & Hc2 & Hcell2).
    rewrite HN1 in Hcell2. rewrite frameCount_cons.
    pose proof (frameCount_nonneg tr) as Hfc.
    split; [exact Hwf2|]. split; [by rewrite Z.add_assoc|].
    split; [by rewrite Hc2|].
    intros ch p Hp Hun Hfr. apply Forall_cons in Hun as [Hun1 Hun2].
    rewrite Hcell2, Hcell1; try assumption.
    + reflexivity.
    + intros Hf. rewrite Hf in Hfr. intros ->. apply (Hfr m); [lia | reflexivity].
    + intros j Hj. apply Hfr. destruct (isFrame ev); lia.
Qed.

(** *** The engine after [start] *)

Lemma start_wellFormed sr chunk delay mode pf :
  0 < sr -> (0 <= delay)%Q ->
  wellFormed (start sr chunk delay mode pf) /\ inPhase 0 (start sr chunk delay mode pf).
Proof.
  intros Hsr Hd.
  set (e0 := start sr chunk delay mode pf).
  assert (HDdef : delaySamples e0 = Qceiling (delay * inject_Z sr)) by reflexivity.
  assert (HNdef : delayBufferSize e0 = Qtrunc (inject_Z sr * (delay + 10))) by reflexivity.
  assert (Hsrq : (1 <= inject_Z sr)%Q) by (change 1%Q with (inject_Z 1); rewrite <- Zle_Qle; lia).
  assert (Hx : (0 <= delay * inject_Z sr)%Q) by (apply Qmult_le_0_compat; lra).
  assert (Hy : (0 <= inject_Z sr * (delay + 10))%Q) by (apply Qmult_le_0_compat; lra).
  assert (HD0 : 0 <= delaySamples e0).
  { rewrite HDdef. apply Qceiling_resp_le in Hx. exact Hx. }
  assert (HDN : delaySamples e0 < delayBufferSize e0).
  { rewrite HDdef, HNdef. rewrite Qtrunc_floor by exact Hy.
    pose proof (Qceiling_lt (delay * inject_Z sr)) as H1.
    pose proof (Qlt_floor (inject_Z sr * (delay + 10))) as H2.
    rewrite Zlt_Qlt.
    unfold Z.sub in H1. rewrite inject_Z_plus in H1, H2.
    change (inject_Z (- (1))) with (-1 # 1) in H1. change (inject_Z 1) with 1%Q in H2.
    assert (Heq : (inject_Z sr * (delay + 10) == delay * inject_Z sr + 10 * inject_Z sr)%Q)
      by ring.
    assert (Hle : (delay * inject_Z sr + 10 * inject_Z sr
                   <= inject_Z sr * (delay + 10))%Q)
      by (apply Qle_lteq; right; symmetry; exact Heq).
    pose proof (Qle_lt_trans _ _ _ Hle H2) as H3. clear Heq Hle H2.
    revert H1 H3 Hsrq.
    generalize (inject_Z (Qceiling (delay * inject_Z sr)))
      (inject_Z (Qfloor (inject_Z sr * (delay + 10)))).
    generalize (inject_Z sr). intros isr. generalize (delay * isr)%Q.
    intros t qd qn H1 H2 H3. lra. }
  split.
  - split; [exact Hsr|]. split; [lia|]. split; [reflexivity|].
    change (delayBuffer e0)
      with [replicate (Z.to_nat (delayBufferSize e0)) 0%Q;
            replicate (Z.to_nat (delayBufferSize e0)) 0%Q].
    repeat apply Forall_cons_2; try apply Forall_nil_2; rewrite length_replicate; lia.
  - unfold inPhase. change (delayWritePos e0) with 0. change (delayReadPos e0) with 0.
    change (wasPaused e0) with false. change (playbackStarted e0) with false.
    rewrite Z.mod_0_l by lia.
    destruct (Z.ltb_spec (delaySamples e0) 0); [lia|]. auto.
Qed.




(** *** The callback and the worker as runs *)

Lemma accumulate_delayLine input n e : delayLine (accumulate input n e) = delayLine e.
Proof.
  unfold accumulate. destruct (channelData input 0); [|reflexivity].
  destruct (Z.le_gt_cases 0 n) as [Hn|Hn]; [|by rewrite for_loop_nil by lia].
  apply (for_loop_ind (fun _ acc => delayLine acc = delayLine e)); [lia|reflexivity|].
  intros i acc _ <-. cbv zeta.
  destruct (_ <? _); [|reflexivity]. by destruct acc.
Qed.

Lemma handoff_delayLine n e : delayLine (handoff n e) = delayLine e.
Proof.
  unfold handoff. cbv zeta.
  repeat match goal with
         | |- context [if ?c then _ else _] => destruct c
         end; by destruct e.
Qed.

Lemma monitorBufferHealth_delayLine e : delayLine (monitorBufferHealth e) = delayLine e.
Proof.
  unfold monitorBufferHealth. cbv zeta.
  repeat match goal with
         | |- context [if ?c then _ else _] => destruct c
         end; by destruct e.
Qed.

(** The part of the callback before the delay loop, and the part after it:
    neither touches the delay line. *)
Lemma callback_head_tame input n :
  tame (EvOther (fun e => monitorBufferHealth (handoff n (accumulate input n e)))).
Proof.
  intros e. cbv beta.
  by rewrite monitorBufferHealth_delayLine, handoff_delayLine, accumulate_delayLine.
Qed.

Lemma callback_tail_tame n :
  tame (EvOther (fun e =>
          set_streamTime (streamTime e + inject_Z n / inject_Z (sampleRate e))%Q e)).
Proof. intros e. by destruct e. Qed.

Lemma delayLoop_run input outs n e :
  delayLoop input outs n e
  = run (map (fun i => EvFrame (frameInputs input i) outs) (seqZ 0 n)) e.
Proof.
  unfold delayLoop, for_loop. rewrite Z.sub_0_r.
  assert (H : forall l frames e,
            foldl (fun acc i =>
                     (fun i '(frames, e) =>
                        let '(out, e') := delayFrame (frameInputs input i) outs e in
                        (frames ++ [out], e')) i acc) (frames, e) l
            = (frames ++ fst (run (map (fun i => EvFrame (frameInputs input i) outs) l) e),
               snd (run (map (fun i => EvFrame (frameInputs input i) outs) l) e))).
  { induction l as [|i l IH]; intros frames e1.
    - cbn. by rewrite app_nil_r.
    - cbn [foldl map]. rewrite run_cons. cbn [exec].
      destruct (delayFrame (frameInputs input i) outs e1) as [out e2].
      rewrite IH. cbn [fst snd]. by rewrite <- app_assoc. }
  rewrite H. cbn [app]. by destruct (run _ e).
Qed.

(** A callback is a run: its head, one delay-loop iteration per sample, and
    its tail. *)
Lemma callback_as_run input outs n e :
  audioDeviceIOCallbackWithContext input outs n e
  = run (EvOther (fun e => monitorBufferHealth (handoff n (accumulate input n e)))
         :: map (fun i => EvFrame (frameInputs input i) outs) (seqZ 0 n)
         ++ [EvOther (fun e =>
               set_streamTime (streamTime e + inject_Z n / inject_Z (sampleRate e))%Q e)]) e.
Proof.
  unfold audioDeviceIOCallbackWithContext. rewrite run_cons. cbn [exec fst snd app].
  rewrite delayLoop_run, run_app. cbn [run exec fst snd].
  destruct (run _ _) as [frames e1]. cbn [fst snd]. by rewrite app_nil_r.
Qed.

(** A rewrite by the worker is a step that only records the event followed
    by the rewrite of the computed range. *)
Lemma censorProfanity_as_run text ps pe multi ct e :
  bufferUnderrun e = false ->
  exists f cs ss es,
    tame (EvOther f)
    /\ (cs, ss, es) = censorRange e ps pe ct
    /\ censorProfanity text ps pe multi ct e = snd (run [EvOther f; EvRewrite cs ss es] e).
Proof.
  intros Hu.
  exists (fun e => set_qualityAnalyzer
            (QualityAnalyzer.recordCensorshipEvent text ps true
               (match currentCensorMode e with
                | Reverse => "REVERSE" | Mute => "MUTE" end)%string multi
               (qualityAnalyzer e)) e).
  destruct (censorRange e ps pe ct) as [[cs ss] es] eqn:Hrange.
  exists cs, ss, es. split; [intros e1; by destruct e1|]. split; [reflexivity|].
  unfold censorProfanity. rewrite Hu. cbv zeta. cbn [run exec snd].
  replace (censorRange (set_qualityAnalyzer _ e) ps pe ct) with (cs, ss, es)
    by (rewrite <- Hrange; by destruct e).
  reflexivity.
Qed.

(** *** The accumulator *)

Lemma accumulate_step_eq input in0 i (e acc : t) :
  channelData input 0 = Some in0 ->
  acc = set_bufferWritePos (bufferWritePos acc) (set_audioBuffer (audioBuffer acc) e) ->
  let next :=
    if bufferWritePos acc <? Z.of_nat (length (audioBuffer acc))
    then set_bufferWritePos (bufferWritePos acc + 1)
           (set_audioBuffer (vset (audioBuffer acc) (bufferWritePos acc) (downmix input i)) acc)
    else acc in
  next = set_bufferWritePos (bufferWritePos next) (set_audioBuffer (audioBuffer next) e).
Proof.
  intros _ Hacc next. subst next. destruct (_ <? _); [|exact Hacc].
  rewrite Hacc. by destruct e.
Qed.

(** The accumulation loop stores the downmixed samples from the write
    position on, up to the end of the accumulator, and nothing after. *)
Lemma accumulate_spec input in0 n e :
  channelData input 0 = Some in0 ->
  0 <= n ->
  0 <= bufferWritePos e <= Z.of_nat (length (audioBuffer e)) ->
  let w := bufferWritePos e in
  let cap := Z.of_nat (length (audioBuffer e)) in
  let e' := accumulate input n e in
  e' = set_bufferWritePos (bufferWritePos e') (set_audioBuffer (audioBuffer e') e)
  /\ bufferWritePos e' = Z.min (w + n) cap
  /\ length (audioBuffer e') = length (audioBuffer e)
  /\ forall j, vget 0%Q (audioBuffer e') j
               = if (w <=? j) && (j <? Z.min (w + n) cap)
                 then downmix input (j - w) else vget 0%Q (audioBuffer e) j.
Proof.
  intros Hin Hn Hw w cap e'. subst e'. unfold accumulate. rewrite Hin.
  set (body := fun (i : Z) (e : t) => _).
  assert (Hbody : forall i acc, body i acc =
            if bufferWritePos acc <? Z.of_nat (length (audioBuffer acc))
            then set_bufferWritePos (bufferWritePos acc + 1)
                   (set_audioBuffer
                      (vset (audioBuffer acc) (bufferWritePos acc) (downmix input i)) acc)
            else acc).
  { intros i acc. subst body. cbv beta zeta. unfold downmix. rewrite Hin. reflexivity. }
  apply (for_loop_ind (fun i acc =>
           acc = set_bufferWritePos (bufferWritePos acc) (set_audioBuffer (audioBuffer acc) e)
           /\ bufferWritePos acc = Z.min (w + i) cap
           /\ length (audioBuffer acc) = length (audioBuffer e)
           /\ forall j, vget 0%Q (audioBuffer acc) j
                        = if (w <=? j) && (j <? Z.min (w + i) cap)
                          then downmix input (j - w) else vget 0%Q (audioBuffer e) j)).
  - exact Hn.
  - split; [by destruct e|]. split; [subst w cap; lia|]. split; [reflexivity|].
    intros j. destruct (Z.leb_spec w j), (Z.ltb_spec j (Z.min (w + 0) cap));
      try reflexivity. lia.
  - intros i acc Hi (Hacc & Hpos & Hlen & Hcells). rewrite Hbody.
    split; [exact (accumulate_step_eq input in0 i e acc Hin Hacc)|].
    rewrite Hlen. fold cap.
    destruct (Z.ltb_spec (bufferWritePos acc) cap) as [Hroom|Hfull].
    + assert (Hb : bufferWritePos (set_bufferWritePos (bufferWritePos acc + 1)
                     (set_audioBuffer
                        (vset (audioBuffer acc) (bufferWritePos acc) (downmix input i)) acc))
                   = bufferWritePos acc + 1) by by destruct acc.
      assert (Ha : audioBuffer (set_bufferWritePos (bufferWritePos acc + 1)
                     (set_audioBuffer
                        (vset (audioBuffer acc) (bufferWritePos acc) (downmix input i)) acc))
                   = vset (audioBuffer acc) (bufferWritePos acc) (downmix input i))
        by by destruct acc.
      rewrite Hb, Ha. split; [lia|]. split; [by rewrite length_vset|].
      intros j. rewrite vget_vset by lia. rewrite Hcells.
      destruct (Z.eqb_spec (bufferWritePos acc) j) as [<-|Hne].
      * rewrite Hpos.
        destruct (Z.leb_spec w (Z.min (w + i) cap)),
                 (Z.ltb_spec (Z.min (w + i) cap) (Z.min (w + (i + 1)) cap)); try lia.
        cbn [andb]. f_equal. lia.
      * destruct (Z.leb_spec w j), (Z.ltb_spec j (Z.min (w + i) cap)),
                 (Z.ltb_spec j (Z.min (w + (i + 1)) cap)); try reflexivity; lia.
    + split; [lia|]. split; [exact Hlen|]. intros j. rewrite Hcells.
      destruct (Z.leb_spec w j), (Z.ltb_spec j (Z.min (w + i) cap)),
               (Z.ltb_spec j (Z.min (w + (i + 1)) cap)); try reflexivity; lia.
Qed.



Lemma monitorBufferHealth_chunkState e :
  chunkState (monitorBufferHealth e) = chunkState e.
Proof.
  unfold monitorBufferHealth. cbv zeta.
  repeat match goal with
         | |- context [if ?c then _ else _] => destruct c
         end; by destruct e.
Qed.

(** The delay loop writes the delay buffer, the two positions and the two
    playback flags; any view of the state that ignores them is the same
    after a run of frames. *)
Section FrameViews.
Context {A : Type} (view : t -> A).
Hypothesis view_delayBuffer : forall v e, view (set_delayBuffer v e) = view e.
Hypothesis view_playbackStarted : forall v e, view (set_playbackStarted v e) = view e.
Hypothesis view_wasPaused : forall v e, view (set_wasPaused v e) = view e.
Hypothesis view_delayWritePos : forall v e, view (set_delayWritePos v e) = view e.
Hypothesis view_delayReadPos : forall v e, view (set_delayReadPos v e) = view e.

Lemma writeFrame_view inputs e : view (writeFrame inputs e) = view e.
Proof.
  unfold writeFrame.
  destruct (mjoin (inputs !! 0%nat)), (mjoin (inputs !! 1%nat));
    by rewrite ?view_delayBuffer.
Qed.

Lemma gatePlayback_view e : view (snd (gatePlayback e)) = view e.
Proof.
  unfold gatePlayback. cbv zeta.
  repeat match goal with
         | |- context [if ?c then _ else _] => destruct c
         end; cbn [snd]; by rewrite ?view_playbackStarted, ?view_wasPaused.
Qed.

Lemma advance_view canPlay e : view (advance canPlay e) = view e.
Proof.
  unfold advance. destruct canPlay; by rewrite ?view_delayReadPos, ?view_delayWritePos.
Qed.

Lemma delayFrame_view inputs outs e : view (snd (delayFrame inputs outs e)) = view e.
Proof.
  unfold delayFrame. cbv zeta.
  pose proof (gatePlayback_view (writeFrame inputs e)) as Hg.
  destruct (gatePlayback (writeFrame inputs e)) as [canPlay e1]. cbn [snd] in *.
  by rewrite advance_view, Hg, writeFrame_view.
Qed.

Lemma run_frames_view (tr : list event) e :
  Forall (fun ev => isFrame ev = true) tr ->
  view (snd (run tr e)) = view e.
Proof.
  intros Hfr. revert e. induction Hfr as [|ev tr Hev _ IH]; intros e; [reflexivity|].
  rewrite run_cons. cbn [snd]. rewrite IH.
  destruct ev; try discriminate. cbn [exec].
  pose proof (delayFrame_view inputs outputs e) as Hf.
  by destruct (delayFrame inputs outputs e).
Qed.

Lemma delayLoop_view input outs n e : view (snd (delayLoop input outs n e)) = view e.
Proof.
  rewrite delayLoop_run. apply run_frames_view.
  apply Forall_forall. intros ev Hev. apply list_elem_of_In in Hev.
  apply in_map_iff in Hev as (i & <- & _). reflexivity.
Qed.
End FrameViews.

Lemma delayLoop_chunkState input outs n e :
  chunkState (snd (delayLoop input outs n e)) = chunkState e.
Proof. apply delayLoop_view; intros v e0; by destruct e0. Qed.


(** Of a whole callback, only the first two stages touch the accumulator
    and the handoff. *)
Lemma callback_chunkState input outs n e :
  chunkState (snd (audioDeviceIOCallbackWithContext input outs n e))
  = chunkState (handoff n (accumulate input n e)).
Proof.
  unfold audioDeviceIOCallbackWithContext. cbv zeta.
  pose proof (delayLoop_chunkState input outs n
                (monitorBufferHealth (handoff n (accumulate input n e)))) as Hloop.
  destruct (delayLoop _ _ _ _) as [frames e1]. cbn [snd] in *.
  transitivity (chunkState e1); [by destruct e1|].
  rewrite Hloop. apply monitorBufferHealth_chunkState.
Qed.




(** *** The critical-underrun flag *)







(** The flag is raised when the buffer is below [chunkSeconds + 0.5]... *)
Lemma monitor_raises e :
  playbackStarted e = true -> bufferUnderrun e = false ->
  bufferUnderrun (monitorBufferHealth e)
  = Qltb (getCurrentBufferSize e) (chunkSeconds e + (1 # 2)).
Proof.
  intros Hp Hu. unfold monitorBufferHealth. cbv zeta. rewrite Hp, Hu.
  cbn [negb]. rewrite andb_true_r, andb_false_r.
  destruct (Qltb _ _); [by destruct e | exact Hu].
Qed.

(** ... and cleared when it is above [initialDelaySeconds]. *)
Lemma monitor_clears e :
  playbackStarted e = true -> bufferUnderrun e = true ->
  bufferUnderrun (monitorBufferHealth e)
  = negb (Qltb (initialDelaySeconds e) (getCurrentBufferSize e)).
Proof.
  intros Hp Hu. unfold monitorBufferHealth. cbv zeta. rewrite Hp, Hu.
  cbn [negb]. rewrite andb_true_r, andb_false_r.
  destruct (Qltb _ _); [by destruct e | exact Hu].
Qed.

Lemma monitor_keeps_flag e :
  playbackStarted e = true -> bufferUnderrun e = true ->
  (getCurrentBufferSize e == initialDelaySeconds e)%Q ->
  monitorBufferHealth e = e.
Proof.
  intros Hp Hu Hsize. unfold monitorBufferHealth. cbv zeta. rewrite Hp, Hu.
  cbn [negb]. rewrite andb_true_r, andb_false_r.
  assert (Hle : Qle_bool (getCurrentBufferSize e) (initialDelaySeconds e) = true)
    by (apply Qle_bool_iff; rewrite Hsize; apply Qle_refl).
  unfold Qltb. rewrite Hle. reflexivity.
Qed.

Lemma frameCount_frames {A} (f : A -> list (option Q)) outs (l : list A) :
  frameCount (map (fun i => EvFrame (f i) outs) l) = Z.of_nat (length l).
Proof.
  induction l as [|i l IH]; [reflexivity|].
  cbn [map]. rewrite frameCount_cons, IH. cbn [isFrame length]. lia.
Qed.

(** A callback keeps the delay line in shape and in phase. *)
Lemma callback_invariants input outs n m e :
  wellFormed e -> inPhase m e -> 0 <= m -> 0 <= n ->
  let e' := snd (audioDeviceIOCallbackWithContext input outs n e) in
  wellFormed e' /\ inPhase (m + n) e' /\ config e' = config e.
Proof.
  intros Hwf Hph Hm Hn e'. subst e'. rewrite callback_as_run.
  set (tr := _ :: _ ++ _).
  assert (Htame : Forall tame tr).
  { subst tr. apply List.Forall_cons; [apply callback_head_tame|].
    apply Forall_app. split.
    - apply Forall_forall. intros ev Hev. apply list_elem_of_In in Hev.
      apply in_map_iff in Hev as (i & <- & _). exact I.
    - apply List.Forall_cons; [apply callback_tail_tame | apply List.Forall_nil]. }
  assert (Hcount : frameCount tr = n).
  { subst tr. rewrite frameCount_cons, frameCount_app, frameCount_cons. cbn [isFrame].
    change (frameCount []) with 0. rewrite frameCount_frames, length_seqZ. lia. }
  destruct (run_steps tr e m Htame Hwf Hph Hm) as (H1 & H2 & H3 & _).
  rewrite Hcount in H2. auto.
Qed.









(** The engine as shipped (48 kHz, chunks of 2 s, 3 s of delay), three
    seconds behind the input, with the flag raised: the buffer measures
    3 s, the recovery level, and the monitor leaves the flag raised. *)
Lemma underrun_flag_at_three_seconds :
  let e := set_bufferUnderrun true
             (set_playbackStarted true
                (set_delayReadPos 6000
                   (set_delayWritePos 150000
                      (start 48000 2 3 Mute (ProfanityFilter.mk ∅))))) in
  currentGap e = 144000
  /\ (getCurrentBufferSize e == initialDelaySeconds e)%Q
  /\ Qle_bool (initialDelaySeconds e) (getCurrentBufferSize e) = true
  /\ bufferUnderrun (monitorBufferHealth e) = true.
Proof.
  intros e.
  assert (Hgap : currentGap e = 144000) by reflexivity.
  assert (Hsize : (getCurrentBufferSize e == initialDelaySeconds e)%Q).
  { unfold getCurrentBufferSize. rewrite Hgap. reflexivity. }
  split; [exact Hgap|]. split; [exact Hsize|]. split.
  - apply Qle_bool_iff. rewrite Hsize. apply Qle_refl.
  - by rewrite (monitor_keeps_flag e eq_refl eq_refl Hsize).
Qed.



End AudioEngineFacts.

Module QueueViewFacts.
Import LockFreeQueue QueueView LoopFacts.

Lemma seqZ_snoc lo n : 0 <= n -> seqZ lo (Z.succ n) = seqZ lo n ++ [lo + n].
Proof.
  intros Hn. replace (Z.succ n) with (n + 1) by lia.
  rewrite seqZ_app by lia. rewrite (seqZ_cons _ 1) by lia.
  by rewrite (seqZ_nil _ (Z.pred 1)) by lia.
Qed.

Section Facts.
Context {T : Type}.
Variable k : Z.
Hypothesis Hk : 0 <= k.
Let Capacity := 2 ^ k.

Lemma Capacity_pos : 0 < Capacity.
Proof. unfold Capacity. apply Z.pow_pos_nonneg; lia. Qed.

Lemma increment_pow2 idx : 0 <= idx -> increment Capacity idx = (idx + 1) mod Capacity.
Proof.
  intros Hidx. unfold increment, Capacity.
  replace (2 ^ k - 1) with (Z.ones k) by (rewrite Z.ones_equiv; lia).
  apply Z.land_ones; lia.
Qed.

Lemma omap_seqZ_ext {A} (f g : Z -> option A) lo len :
  (forall i, lo <= i < lo + len -> f i = g i) ->
  omap f (seqZ lo len) = omap g (seqZ lo len).
Proof.
  intros H. destruct (Z.le_gt_cases len 0) as [Hn|Hn]; [by rewrite seqZ_nil|].
  revert H. pattern len. apply natlike_ind; [| |lia].
  - rewrite seqZ_nil by lia. reflexivity.
  - intros n Hn0 IH H. rewrite seqZ_snoc by lia. rewrite !omap_app.
    rewrite IH by (intros; apply H; lia). f_equal. simpl. rewrite H by lia. reflexivity.
Qed.

Lemma occupancy_bounds (q : t T) : 0 <= occupancy Capacity q < Capacity.
Proof. unfold occupancy. apply Z.mod_pos_bound. apply Capacity_pos. Qed.

(** Slot [i] of the waiting items sits in cell [(head + i) mod Capacity],
    which is not the producer's cell. *)
Lemma slot_not_tail (q : t T) i :
  valid Capacity q -> 0 <= i < occupancy Capacity q ->
  (head_ q + i) mod Capacity <> tail_ q.
Proof.
  intros (Hh & Ht & _) Hi Heq. unfold occupancy in Hi.
  pose proof Capacity_pos as Hc.
  assert (Hm : (tail_ q - head_ q) mod Capacity = i mod Capacity).
  { rewrite <- Heq at 1. rewrite Zminus_mod_idemp_l. f_equal. lia. }
  pose proof (Z.mod_pos_bound (tail_ q - head_ q) Capacity Hc).
  rewrite (Z.mod_small i) in Hm by lia. lia.
Qed.

Lemma contents_length (q : t T) :
  valid Capacity q -> Z.of_nat (length (contents Capacity q)) = occupancy Capacity q.
Proof.
  intros (Hh & Ht & Hlen). unfold contents.
  pose proof (occupancy_bounds q) as [Ho _].
  revert Ho. generalize (occupancy Capacity q). intros n Hn.
  pattern n. apply natlike_ind; [| |exact Hn].
  - reflexivity.
  - intros m Hm IH. rewrite seqZ_snoc by lia. rewrite omap_app, length_app.
    simpl omap. rewrite Z.add_0_l.
    pose proof (Z.mod_pos_bound (head_ q + m) Capacity Capacity_pos) as Hb.
    destruct (lookup_lt_is_Some_2 (data_ q) (Z.to_nat ((head_ q + m) mod Capacity)))
      as [x Hx]; [lia|].
    rewrite Hx. cbn [length]. lia.
Qed.

Lemma omap_seqZ_shift {A} (f : Z -> option A) lo len :
  omap f (seqZ (lo + 1) len) = omap (fun i => f (i + 1)) (seqZ lo len).
Proof.
  destruct (Z.le_gt_cases len 0) as [Hn|Hn]; [by rewrite !seqZ_nil|].
  pattern len. apply natlike_ind; [| |lia].
  - reflexivity.
  - intros n Hn0 IH. rewrite !seqZ_snoc by lia. rewrite !omap_app, IH.
    f_equal. simpl. by replace (lo + 1 + n) with (lo + n + 1) by lia.
Qed.

Lemma occupancy_full (q : t T) :
  valid Capacity q ->
  (increment Capacity (tail_ q) =? head_ q) = (occupancy Capacity q =? Capacity - 1).
Proof.
  intros (Hh & Ht & _). pose proof Capacity_pos as Hc.
  rewrite increment_pow2 by lia. unfold occupancy.
  destruct (Z.lt_ge_cases (tail_ q) (head_ q)) as [Hlt|Hge].
  - replace ((tail_ q - head_ q) mod Capacity) with (tail_ q - head_ q + Capacity)
      by (apply (Z.mod_unique _ _ (-1)); lia).
    rewrite Z.mod_small by lia.
    destruct (Z.eqb_spec (tail_ q + 1) (head_ q)), (Z.eqb_spec (tail_ q - head_ q + Capacity)
      (Capacity - 1)); try reflexivity; lia.
  - rewrite (Z.mod_small (tail_ q - head_ q)) by lia.
    destruct (Z.eq_dec (tail_ q) (Capacity - 1)) as [Hlast|Hnot].
    + replace (tail_ q + 1) with Capacity by lia. rewrite Z.mod_same by lia.
      destruct (Z.eqb_spec 0 (head_ q)), (Z.eqb_spec (tail_ q - head_ q) (Capacity - 1));
        try reflexivity; lia.
    + rewrite Z.mod_small by lia.
      destruct (Z.eqb_spec (tail_ q + 1) (head_ q)),
               (Z.eqb_spec (tail_ q - head_ q) (Capacity - 1)); try reflexivity; lia.
Qed.

Lemma occupancy_empty (q : t T) :
  valid Capacity q -> (head_ q =? tail_ q) = (occupancy Capacity q =? 0).
Proof.
  intros (Hh & Ht & _). pose proof Capacity_pos as Hc. unfold occupancy.
  destruct (Z.lt_ge_cases (tail_ q) (head_ q)) as [Hlt|Hge].
  - replace ((tail_ q - head_ q) mod Capacity) with (tail_ q - head_ q + Capacity)
      by (apply (Z.mod_unique _ _ (-1)); lia).
    destruct (Z.eqb_spec (head_ q) (tail_ q)), (Z.eqb_spec (tail_ q - head_ q + Capacity) 0);
      try reflexivity; lia.
  - rewrite (Z.mod_small (tail_ q - head_ q)) by lia.
    destruct (Z.eqb_spec (head_ q) (tail_ q)), (Z.eqb_spec (tail_ q - head_ q) 0);
      try reflexivity; lia.
Qed.

Lemma push_view (x : T) (q : t T) :
  valid Capacity q ->
  let r := push Capacity x q in
  valid Capacity (snd r)
  /\ (occupancy Capacity q < Capacity - 1 ->
      fst r = true /\ contents Capacity (snd r) = contents Capacity q ++ [x])
  /\ (occupancy Capacity q = Capacity - 1 -> r = (false, q)).
Proof.
  intros Hv r. subst r. pose proof Hv as (Hh & Ht & Hlen).
  pose proof Capacity_pos as Hc. pose proof (occupancy_bounds q) as Hocc.
  unfold push. rewrite (occupancy_full q Hv).
  destruct (Z.eqb_spec (occupancy Capacity q) (Capacity - 1)) as [Hfull|Hroom]; cbn [fst snd].
  - split; [exact Hv|]. split; [lia | reflexivity].
  - assert (Hlen' : length (vset (data_ q) (tail_ q) x) = length (data_ q))
      by apply length_vset.
    assert (Hnext : 0 <= increment Capacity (tail_ q) < Capacity)
      by (rewrite increment_pow2 by lia; apply Z.mod_pos_bound; lia).
    split; [unfold valid; cbn [head_ tail_ data_]; rewrite Hlen'; lia|].
    split; [|lia]. intros _. split; [reflexivity|].
    assert (Hocc' : occupancy Capacity (mk (head_ q) (increment Capacity (tail_ q))
                                           (vset (data_ q) (tail_ q) x))
                    = Z.succ (occupancy Capacity q)).
    { unfold occupancy in *. cbn [head_ tail_]. rewrite increment_pow2 by lia.
      rewrite Zminus_mod_idemp_l.
      replace (tail_ q + 1 - head_ q) with (1 + (tail_ q - head_ q)) by lia.
      rewrite <- Zplus_mod_idemp_r. rewrite Z.mod_small by lia. lia. }
    unfold contents at 1. rewrite Hocc'. cbn [head_ data_].
    rewrite seqZ_snoc by lia. rewrite omap_app. f_equal.
    + unfold contents. apply omap_seqZ_ext. intros i Hi.
      unfold vset. destruct (Z.ltb_spec (tail_ q) 0); [lia|].
      apply list_lookup_insert_ne.
      pose proof (slot_not_tail q i Hv ltac:(lia)) as Hne.
      pose proof (Z.mod_pos_bound (head_ q + i) Capacity Hc). lia.
    + simpl. rewrite Z.add_0_l.
      replace ((head_ q + occupancy Capacity q) mod Capacity) with (tail_ q).
      2:{ unfold occupancy. rewrite Zplus_mod_idemp_r.
          replace (head_ q + (tail_ q - head_ q)) with (tail_ q) by lia.
          by rewrite Z.mod_small by lia. }
      unfold vset. destruct (Z.ltb_spec (tail_ q) 0); [lia|].
      rewrite list_lookup_insert_eq by lia. reflexivity.
Qed.

Lemma pop_view (q : t T) :
  valid Capacity q ->
  let r := pop Capacity q in
  valid Capacity (snd r)
  /\ fst r = head (contents Capacity q)
  /\ contents Capacity (snd r) = tail (contents Capacity q)
  /\ (contents Capacity q = [] -> snd r = q).
Proof.
  intros Hv r. subst r. pose proof Hv as (Hh & Ht & Hlen).
  pose proof Capacity_pos as Hc. pose proof (occupancy_bounds q) as Hocc.
  unfold pop. rewrite (occupancy_empty q Hv).
  destruct (Z.eqb_spec (occupancy Capacity q) 0) as [Hempty|Hsome]; cbn [fst snd].
  - unfold contents. rewrite Hempty. cbn. auto.
  - assert (Hnext : 0 <= increment Capacity (head_ q) < Capacity)
      by (rewrite increment_pow2 by lia; apply Z.mod_pos_bound; lia).
    assert (Hocc' : occupancy Capacity (mk (increment Capacity (head_ q)) (tail_ q) (data_ q))
                    = Z.pred (occupancy Capacity q)).
    { unfold occupancy in *. cbn [head_ tail_]. rewrite increment_pow2 by lia.
      rewrite Zminus_mod_idemp_r.
      replace (tail_ q - (head_ q + 1)) with ((tail_ q - head_ q) + (-1)) by lia.
      rewrite <- Zplus_mod_idemp_l. rewrite Z.mod_small by lia. lia. }
    destruct (lookup_lt_is_Some_2 (data_ q) (Z.to_nat (head_ q))) as [x Hx]; [lia|].
    assert (Hcontents : contents Capacity q
                        = x :: contents Capacity (mk (increment Capacity (head_ q))
                                                     (tail_ q) (data_ q))).
    { unfold contents at 1. rewrite (seqZ_cons 0) by lia. simpl omap.
      rewrite Z.add_0_r, Z.mod_small by lia. rewrite Hx. simpl. f_equal.
      unfold contents. rewrite Hocc'. cbn [head_ data_].
      change (Z.succ 0) with (0 + 1). rewrite omap_seqZ_shift.
      apply omap_seqZ_ext. intros i Hi. do 2 f_equal.
      rewrite increment_pow2 by lia. rewrite Zplus_mod_idemp_l. f_equal. lia. }
    split; [unfold valid; cbn [head_ tail_ data_]; lia|].
    rewrite Hcontents. cbn [head tail]. split; [exact Hx|]. split; [reflexivity|].
    discriminate.
Qed.

Lemma observers_view (q : t T) :
  valid Capacity q ->
  size Capacity q = occupancy Capacity q
  /\ isEmpty q = (occupancy Capacity q =? 0)
  /\ isFull Capacity q = (occupancy Capacity q =? Capacity - 1).
Proof.
  intros Hv. pose proof Hv as (Hh & Ht & Hlen). pose proof Capacity_pos as Hc.
  split; [|split].
  - unfold size, occupancy. destruct (Z.geb_spec (tail_ q) (head_ q)).
    + by rewrite Z.mod_small by lia.
    + apply (Z.mod_unique _ _ (-1)); lia.
  - unfold isEmpty. by apply occupancy_empty.
  - unfold isFull. by apply occupancy_full.
Qed.

Lemma pushAll_view (items : list T) : forall q : t T,
  valid Capacity q ->
  Z.of_nat (length items) <= Capacity - 1 - occupancy Capacity q ->
  let r := pushAll Capacity items q in
  fst r = replicate (length items) true
  /\ valid Capacity (snd r)
  /\ contents Capacity (snd r) = contents Capacity q ++ items.
Proof.
  induction items as [|x rest IH]; intros q Hv Hroom.
  - cbn. by rewrite app_nil_r.
  - cbn [pushAll length] in *.
    destruct (push_view x q Hv) as (Hv1 & Hok & _).
    destruct Hok as [Hok Hc1]; [lia|].
    destruct (push Capacity x q) as [ok q1]. cbn [fst snd] in *. subst ok.
    assert (Hocc1 : occupancy Capacity q1 = occupancy Capacity q + 1).
    { rewrite <- !contents_length by assumption. rewrite Hc1, length_app. cbn. lia. }
    destruct (IH q1 Hv1 ltac:(lia)) as (Hf & Hv2 & Hc2).
    destruct (pushAll Capacity rest q1) as [oks q2]. cbn [fst snd] in *.
    rewrite Hf, Hc2, Hc1, <- app_assoc. auto.
Qed.

Lemma popAll_view (n : nat) : forall q : t T,
  valid Capacity q ->
  let r := popAll Capacity n q in
  fst r = (Some <$> take n (contents Capacity q))
          ++ replicate (n - length (contents Capacity q)) None
  /\ valid Capacity (snd r)
  /\ contents Capacity (snd r) = drop n (contents Capacity q).
Proof.
  induction n as [|n IH]; intros q Hv.
  - cbn. rewrite drop_0. auto.
  - cbn [popAll].
    destruct (pop_view q Hv) as (Hv1 & Hx & Hc1 & _).
    destruct (pop Capacity q) as [x q1]. cbn [fst snd] in *.
    destruct (IH q1 Hv1) as (Hf & Hv2 & Hc2).
    destruct (popAll Capacity n q1) as [xs q2]. cbn [fst snd] in *.
    rewrite Hf, Hc2, Hc1, Hx. split; [|split; [exact Hv2|]].
    + destruct (contents Capacity q) as [|y ys]; cbn [head tail take length].
      * rewrite take_nil. cbn. by rewrite Nat.sub_0_r.
      * reflexivity.
    + destruct (contents Capacity q) as [|y ys]; cbn [tail drop]; [by rewrite drop_nil|].
      reflexivity.
Qed.
End Facts.

(** X1: for a queue whose capacity is a power of two and whose indices are
    in range, [push] appends the item behind the items already waiting and
    returns true while fewer than Capacity - 1 items wait; with
    Capacity - 1 items waiting it returns false and changes nothing.
    Either way the indices stay in range. *)
Theorem push_appends_or_rejects {T : Type} (k : Z) (x : T) (q : t T) :
  0 <= k -> valid (2 ^ k) q ->
  let r := push (2 ^ k) x q in
  valid (2 ^ k) (snd r)
  /\ Z.of_nat (length (contents (2 ^ k) q)) <= 2 ^ k - 1
  /\ (Z.of_nat (length (contents (2 ^ k) q)) < 2 ^ k - 1 ->
      fst r = true /\ contents (2 ^ k) (snd r) = contents (2 ^ k) q ++ [x])
  /\ (Z.of_nat (length (contents (2 ^ k) q)) = 2 ^ k - 1 -> r = (false, q)).
Proof.
  intros Hk Hv r. destruct (push_view k Hk x q Hv) as (Hv1 & Hroom & Hfull).
  pose proof (occupancy_bounds k Hk q). rewrite (contents_length k Hk q Hv).
  split; [exact Hv1|]. split; [lia|]. split; [exact Hroom | exact Hfull].
Qed.

Lemma push_appends_or_rejects_witness :
  let q := mk 3 1 [10; 20; 30; 40] in
  contents 4 q = [40; 10]
  /\ contents 4 (snd (push 4 50 q)) = [40; 10; 50].
Proof.
  split; [reflexivity|].
  assert (Hv : valid (2 ^ 2) (mk 3 1 [10; 20; 30; 40])) by (unfold valid; cbn; lia).
  destruct (push_appends_or_rejects 2 50 (mk 3 1 [10; 20; 30; 40]) ltac:(lia) Hv)
    as (_ & _ & Hroom & _).
  apply Hroom. vm_compute. reflexivity.
Defined.

(** X2: for such a queue [pop] returns the item that has waited longest and
    removes it, leaving the other items in their order; on an empty queue
    it returns nothing and changes nothing. *)
Theorem pop_takes_oldest {T : Type} (k : Z) (q : t T) :
  0 <= k -> valid (2 ^ k) q ->
  let r := pop (2 ^ k) q in
  valid (2 ^ k) (snd r)
  /\ fst r = head (contents (2 ^ k) q)
  /\ contents (2 ^ k) (snd r) = tail (contents (2 ^ k) q)
  /\ (contents (2 ^ k) q = [] -> r = (None, q)).
Proof.
  intros Hk Hv r. destruct (pop_view k Hk q Hv) as (Hv1 & Hx & Hc & Hempty).
  split; [exact Hv1|]. split; [exact Hx|]. split; [exact Hc|].
  intros He. subst r. rewrite (surjective_pairing (pop (2 ^ k) q)).
  rewrite Hx, He, (Hempty He). reflexivity.
Qed.

Lemma pop_takes_oldest_witness :
  let q := mk 3 1 [10; 20; 30; 40] in
  fst (pop 4 q) = Some 40 /\ contents 4 (snd (pop 4 q)) = [10].
Proof.
  assert (Hv : valid (2 ^ 2) (mk 3 1 [10; 20; 30; 40])) by (unfold valid; cbn; lia).
  destruct (pop_takes_oldest 2 (mk 3 1 [10; 20; 30; 40]) ltac:(lia) Hv)
    as (_ & Hx & Hc & _).
  split; [exact Hx | exact Hc].
Defined.

(** X3: for such a queue [size] is the number of waiting items, [isEmpty]
    holds exactly when none waits and [isFull] exactly when Capacity - 1
    wait. *)
Theorem observers_count_contents {T : Type} (k : Z) (q : t T) :
  0 <= k -> valid (2 ^ k) q ->
  size (2 ^ k) q = Z.of_nat (length (contents (2 ^ k) q))
  /\ (isEmpty q = true <-> contents (2 ^ k) q = [])
  /\ (isFull (2 ^ k) q = true <-> Z.of_nat (length (contents (2 ^ k) q)) = 2 ^ k - 1).
Proof.
  intros Hk Hv. destruct (observers_view k Hk q Hv) as (Hs & He & Hf).
  pose proof (contents_length k Hk q Hv) as Hlen.
  split; [lia|]. split.
  - rewrite He, Z.eqb_eq, <- Hlen. destruct (contents (2 ^ k) q); cbn; split; try done; lia.
  - rewrite Hf, Z.eqb_eq. lia.
Qed.

Lemma observers_count_contents_witness :
  size 4 (mk 3 1 [10; 20; 30; 40]) = 2.
Proof.
  assert (Hv : valid (2 ^ 2) (mk 3 1 [10; 20; 30; 40])) by (unfold valid; cbn; lia).
  destruct (observers_count_contents 2 (mk 3 1 [10; 20; 30; 40]) ltac:(lia) Hv) as (Hs & _).
  exact Hs.
Defined.

(** X4: first in, first out.  Pushing a list of items that fits into the
    free cells succeeds for every item, and popping afterwards returns the
    items that waited before, then the new items, in the order they were
    pushed. *)
Theorem fifo_round_trip {T : Type} (k : Z) (items : list T) (q : t T) :
  0 <= k -> valid (2 ^ k) q ->
  Z.of_nat (length (contents (2 ^ k) q) + length items) <= 2 ^ k - 1 ->
  let pushed := pushAll (2 ^ k) items q in
  let n := (length (contents (2 ^ k) q) + length items)%nat in
  let popped := popAll (2 ^ k) n (snd pushed) in
  fst pushed = replicate (length items) true
  /\ fst popped = Some <$> (contents (2 ^ k) q ++ items)
  /\ contents (2 ^ k) (snd popped) = []
  /\ isEmpty (snd popped) = true.
Proof.
  intros Hk Hv Hfit pushed n popped.
  pose proof (contents_length k Hk q Hv) as Hlen.
  destruct (pushAll_view k Hk items q Hv ltac:(lia)) as (Hoks & Hv1 & Hc1).
  fold pushed in Hoks, Hv1, Hc1.
  destruct (popAll_view k Hk n (snd pushed) Hv1) as (Hxs & Hv2 & Hc2).
  fold popped in Hxs, Hv2, Hc2.
  assert (Hn : n = length (contents (2 ^ k) (snd pushed)))
    by (rewrite Hc1, length_app; reflexivity).
  split; [exact Hoks|].
  assert (Hdone : contents (2 ^ k) (snd popped) = [])
    by (rewrite Hc2, Hn; apply drop_all).
  split; [|split; [exact Hdone|]].
  - rewrite Hxs, Hn, firstn_all, Nat.sub_diag, Hc1. cbn. by rewrite app_nil_r.
  - destruct (observers_view k Hk (snd popped) Hv2) as (_ & -> & _).
    rewrite <- (contents_length k Hk _ Hv2), Hdone. reflexivity.
Qed.

Lemma fifo_round_trip_witness :
  let q := mk 3 0 [10; 20; 30; 40] in
  fst (popAll 4 3 (snd (pushAll 4 [50; 60] q))) = [Some 40; Some 50; Some 60].
Proof.
  assert (Hv : valid (2 ^ 2) (mk 3 0 [10; 20; 30; 40])) by (unfold valid; cbn; lia).
  destruct (fifo_round_trip 2 [50; 60] (mk 3 0 [10; 20; 30; 40]) ltac:(lia) Hv
              ltac:(vm_compute; discriminate)) as (_ & Hpopped & _).
  exact Hpopped.
Defined.
End QueueViewFacts.

Module ProfanitySpansFacts.
Import Text ProfanityFilter ProfanitySpans LoopFacts.

Lemma longestPhrase_Some f words i n len :
  longestPhrase f words i n = Some len ->
  1 <= len <= Z.of_nat n
  /\ isProfane f (phraseAt words i len) = true
  /\ forall longer, len < longer <= Z.of_nat n ->
       isProfane f (phraseAt words i longer) = false.
Proof.
  induction n as [|n IH]; [discriminate|].
  intros Hlen. cbn [longestPhrase] in Hlen.
  destruct (isProfane f (phraseAt words i (Z.of_nat (S n)))) eqn:Hp.
  - injection Hlen as Heq. subst len. split; [lia|]. split; [exact Hp|].
    intros longer Hl. lia.
  - destruct (IH Hlen) as (Hr & Hpro & Hmax).
    split; [lia|]. split; [exact Hpro|]. intros longer Hl.
    destruct (Z.eq_dec longer (Z.of_nat (S n))) as [->|Hne]; [exact Hp|].
    apply Hmax. lia.
Qed.

Lemma longestPhrase_None f words i n :
  longestPhrase f words i n = None ->
  forall len, 1 <= len <= Z.of_nat n -> isProfane f (phraseAt words i len) = false.
Proof.
  induction n as [|n IH]; [intros _ len; lia|].
  intros Hnone len Hlen. cbn [longestPhrase] in Hnone.
  destruct (isProfane f (phraseAt words i (Z.of_nat (S n)))) eqn:Hp; [discriminate|].
  destruct (Z.eq_dec len (Z.of_nat (S n))) as [->|Hne]; [exact Hp|].
  apply IH; [exact Hnone | lia].
Qed.

Lemma phraseAt_one words i : phraseAt words i 1 = text (wordAt words i).
Proof.
  unfold phraseAt. rewrite (for_loop_cons 0 1) by lia.
  rewrite for_loop_nil by lia. cbn. by rewrite Z.add_0_r.
Qed.

Lemma detectFrom_spec f words fuel : forall i,
  let size := Z.of_nat (length words) in
  0 <= i <= size -> size - i <= Z.of_nat fuel ->
  exists spans,
    detectFrom fuel f words i = Some spans
    /\ Forall (spanOk f words) spans
    /\ StronglySorted (fun a b => end_word_idx a < start_word_idx b) spans
    /\ Forall (fun s => i <= start_word_idx s) spans
    /\ forall j, i <= j < size -> isProfane f (text (wordAt words j)) = true ->
         Exists (fun s => start_word_idx s <= j <= end_word_idx s) spans.
Proof.
  induction fuel as [|fuel IH]; intros i size Hi Hfuel.
  - assert (i = size) as -> by lia. exists []. cbn [detectFrom]. fold size.
    rewrite Z.leb_refl. repeat split; try constructor. intros j Hj. lia.
  - cbn [detectFrom]. fold size.
    destruct (Z.leb_spec size i) as [Hend|Hin].
    { exists []. repeat split; try constructor. intros j Hj. lia. }
    set (n := Z.to_nat (Z.min max_phrase_length (size - i))).
    assert (Hn : Z.of_nat n = Z.min max_phrase_length (size - i))
      by (unfold n, max_phrase_length; lia).
    destruct (longestPhrase f words i n) as [len|] eqn:Hlong.
    + destruct (longestPhrase_Some f words i n len Hlong) as (Hlen & Hpro & Hmax).
      rewrite Hn in Hlen, Hmax. unfold max_phrase_length in Hlen.
      replace (i + (len - 1) + 1) with (i + len) by lia.
      destruct (IH (i + len) ltac:(fold size; lia) ltac:(fold size; lia))
        as (spans & Hd & Hok & Hsorted & Hfrom & Hcover).
      fold size in Hcover.
      rewrite Hd. cbn [fmap option_fmap option_map].
      eexists. split; [reflexivity|].
      split; [|split; [|split]].
      * apply List.Forall_cons; [|exact Hok].
        unfold spanOk. cbn [start_word_idx end_word_idx span_text span_start_time
                             span_end_time]. fold size.
        replace (i + len - 1 - i + 1) with len by lia. unfold max_phrase_length.
        repeat split; try lia; try exact Hpro. intros longer Hlonger.
        apply Hmax. unfold max_phrase_length. lia.
      * constructor; [exact Hsorted|].
        eapply Forall_impl; [exact Hfrom|]. cbn. intros s Hs. lia.
      * apply List.Forall_cons; [cbn; lia|].
        eapply Forall_impl; [exact Hfrom|]. cbn. intros s Hs. lia.
      * intros j Hj Hp. destruct (Z.lt_ge_cases j (i + len)) as [Hlt|Hge].
        -- apply Exists_cons_hd. cbn. lia.
        -- apply Exists_cons_tl. apply Hcover; [lia | exact Hp].
    + destruct (IH (i + 1) ltac:(fold size; lia) ltac:(fold size; lia))
        as (spans & Hd & Hok & Hsorted & Hfrom & Hcover).
      fold size in Hcover.
      exists spans. split; [exact Hd|]. split; [exact Hok|]. split; [exact Hsorted|].
      split.
      * eapply Forall_impl; [exact Hfrom|]. cbn. intros s Hs. lia.
      * intros j Hj Hp. destruct (Z.eq_dec j i) as [->|Hne]; [|apply Hcover; [lia|exact Hp]].
        pose proof (longestPhrase_None f words i n Hlong 1
                      ltac:(rewrite Hn; unfold max_phrase_length; lia)) as Hone.
        rewrite phraseAt_one in Hone. congruence.
Qed.

(** X5: [detectProfanity] always returns, and the spans it reports are
    well formed: each lies inside the word list, spans one to five words,
    carries the phrase of its words joined by single spaces and the times
    of its first and last word, that phrase is in the lexicon and no longer
    phrase starting at the same word is; the spans come in order and never
    overlap. *)
Theorem detectProfanity_spans (f : t) (words : list Word) :
  exists spans,
    detectProfanity f words = Some spans
    /\ Forall (spanOk f words) spans
    /\ StronglySorted (fun a b => end_word_idx a < start_word_idx b) spans.
Proof.
  destruct (detectFrom_spec f words (length words) 0 ltac:(lia) ltac:(lia))
    as (spans & Hd & Hok & Hsorted & _).
  exists spans. auto.
Qed.

(** X6: [detectProfanity] misses no word: every word that is in the lexicon
    on its own lies inside one of the reported spans. *)
Theorem detectProfanity_covers (f : t) (words : list Word) :
  exists spans,
    detectProfanity f words = Some spans
    /\ forall j, 0 <= j < Z.of_nat (length words) ->
         isProfane f (text (wordAt words j)) = true ->
         Exists (fun s => start_word_idx s <= j <= end_word_idx s) spans.
Proof.
  destruct (detectFrom_spec f words (length words) 0 ltac:(lia) ltac:(lia))
    as (spans & Hd & _ & _ & _ & Hcover).
  exists spans. auto.
Qed.

End ProfanitySpansFacts.

Module QualityMetricsFacts.
Import QualityMetrics.
Local Open Scope Q_scope.

Lemma Qmin_spec x y : Qmin x y <= x /\ Qmin x y <= y /\ (Qmin x y == x \/ Qmin x y == y).
Proof.
  unfold Qmin, Qltb. destruct (Qle_bool x y) eqn:H; cbn [negb].
  - apply Qle_bool_iff in H. repeat split; first [lra | by left].
  - assert (y < x) by (apply Qnot_le_lt; intros H'; apply Qle_bool_iff in H'; congruence).
    repeat split; first [lra | by right].
Qed.

Lemma Qmax_spec x y : x <= Qmax x y /\ y <= Qmax x y /\ (Qmax x y == x \/ Qmax x y == y).
Proof.
  unfold Qmax, Qltb. destruct (Qle_bool y x) eqn:H; cbn [negb].
  - apply Qle_bool_iff in H. repeat split; first [lra | by left].
  - assert (x < y) by (apply Qnot_le_lt; intros H'; apply Qle_bool_iff in H'; congruence).
    repeat split; first [lra | by right].
Qed.

Lemma rate_bounds (a b : Z) :
  (0 <= a <= b)%Z -> (0 < b)%Z -> 0 <= inject_Z a / inject_Z b /\ inject_Z a / inject_Z b <= 1.
Proof.
  intros Ha Hb.
  assert (Hbq : 0 < inject_Z b) by (change 0 with (inject_Z 0); rewrite <- Zlt_Qlt; lia).
  assert (Haq : 0 <= inject_Z a) by (change 0 with (inject_Z 0); rewrite <- Zle_Qle; lia).
  assert (Hab : inject_Z a <= inject_Z b) by (rewrite <- Zle_Qle; lia).
  split.
  - apply Qle_shift_div_l; [exact Hbq|]. lra.
  - apply Qle_shift_div_r; [exact Hbq|]. lra.
Qed.

Lemma perform_counted m c : counted m -> counted (perform m c).
Proof.
  unfold counted. intros H.
  destruct c as [censored multi| | | | | | |]; cbn; try lia.
  destruct censored, multi; cbn; lia.
Qed.

Lemma session_counted calls : counted (session calls).
Proof.
  unfold session. induction calls as [|c calls IH] using rev_ind.
  - unfold counted. cbn. lia.
  - rewrite foldl_app. cbn [foldl]. by apply perform_counted.
Qed.

Lemma clamp_bounds s : 15 <= s -> 15 <= Qmax 0 (Qmin 100 s) /\ Qmax 0 (Qmin 100 s) <= 100.
Proof.
  intros Hs.
  destruct (Qmin_spec 100 s) as (H1 & H2 & H3).
  destruct (Qmax_spec 0 (Qmin 100 s)) as (H4 & H5 & H6).
  split; [destruct H3; lra | destruct H6; lra].
Qed.

(** X7: whatever was recorded in a session, the quality score lies between
    15 and 100: the four penalties take away at most 30, 20, 20 and 15
    points, and the result is capped at 100.  A new analyzer scores 100. *)
Theorem quality_score_range (calls : list call) :
  15 <= calculateQualityScore (session calls)
  /\ calculateQualityScore (session calls) <= 100
  /\ calculateQualityScore fresh == 100.
Proof.
  split; [|split]; [| |reflexivity].
  all: pose proof (session_counted calls) as Hc;
    generalize dependent (session calls); intros m
      (Hs & Hcen & Hdet & Hmulti & Hunder & Hclip & _);
    unfold calculateQualityScore; cbv zeta; apply clamp_bounds.
  all: destruct (Z.gtb_spec (totalWordsDetected m) 0) as [Hpos|Hzero];
    [destruct (rate_bounds (totalWordsSkipped m) (totalWordsDetected m) ltac:(lia) Hpos)
       as [Hr1 Hr2];
     destruct (rate_bounds (multiWordDetections m) (totalWordsDetected m) ltac:(lia) Hpos)
       as [Hm1 Hm2];
     revert Hr1 Hr2 Hm1 Hm2;
     generalize (inject_Z (totalWordsSkipped m) / inject_Z (totalWordsDetected m));
     generalize (inject_Z (multiWordDetections m) / inject_Z (totalWordsDetected m));
     intros multiRate skipRate Hr1 Hr2 Hm1 Hm2|].
  all: destruct (Qmin_spec ((averageRTF m - 1) * 20) 20) as (_ & Hrtf & _);
    destruct (Qmin_spec (inject_Z (bufferUnderrunCount m) * 5) 20) as (_ & Hun & _);
    destruct (Qmin_spec (inject_Z (clippingEvents m) * 2) 15) as (_ & Hcl & _);
    revert Hrtf Hun Hcl;
    generalize (Qmin ((averageRTF m - 1) * 20) 20);
    generalize (Qmin (inject_Z (bufferUnderrunCount m) * 5) 20);
    generalize (Qmin (inject_Z (clippingEvents m) * 2) 15);
    intros pc pu pr Hrtf Hun Hcl;
    destruct (Qltb 1 (averageRTF m)), (bufferUnderrunCount m >? 0)%Z,
             (clippingEvents m >? 0)%Z; lra.
Qed.

Lemma Qsum_snoc rs r : Qsum (rs ++ [r]) == Qsum rs + r.
Proof.
  unfold Qsum. induction rs as [|x rs IH]; cbn [app foldr]; [lra|]. rewrite IH. lra.
Qed.

Lemma rtfs_snoc calls c :
  rtfsSinceReset (calls ++ [c])
  = match c with
    | RecordRTF rtf => rtfsSinceReset calls ++ [rtf]
    | Reset => []
    | _ => rtfsSinceReset calls
    end.
Proof. unfold rtfsSinceReset. rewrite foldl_app. reflexivity. Qed.

Lemma session_snoc calls c : session (calls ++ [c]) = perform (session calls) c.
Proof. unfold session. rewrite foldl_app. reflexivity. Qed.

(** X8: the running average is the mean.  After any session the analyzer
    has counted the RTF values recorded since the last reset, its average
    times their number is their sum (in exact arithmetic), and every one of
    them lies between [minRTF] and [maxRTF]. *)
Theorem average_rtf_is_mean (calls : list call) :
  let m := session calls in
  let rtfs := rtfsSinceReset calls in
  rtfSamples m = Z.of_nat (length rtfs)
  /\ averageRTF m * inject_Z (Z.of_nat (length rtfs)) == Qsum rtfs
  /\ Forall (fun rtf => minRTF m <= rtf /\ rtf <= maxRTF m) rtfs.
Proof.
  cbv zeta. induction calls as [|c calls IH] using rev_ind.
  - split; [reflexivity|]. split; [vm_compute; reflexivity | constructor].
  - rewrite session_snoc, rtfs_snoc. destruct IH as (Hn & Havg & Hall).
    destruct c as [censored multi|rtf| | | | | |]; cbn [perform];
      try (split; [exact Hn|]; split; [exact Havg | exact Hall]).
    + (* recordRTF *)
      set (m := session calls) in *. set (rtfs := rtfsSinceReset calls) in *.
      unfold recordRTF; cbn [rtfSamples averageRTF minRTF maxRTF].
      rewrite length_app. cbn [length].
      replace (rtfSamples m + 1 - 1)%Z with (rtfSamples m) by lia.
      rewrite Hn in *.
      replace (Z.of_nat (length rtfs + 1)) with (Z.of_nat (length rtfs) + 1)%Z by lia.
      split; [reflexivity|]. split.
      * rewrite Qsum_snoc, <- Havg.
        assert (Hne : ~ inject_Z (Z.of_nat (length rtfs) + 1) == 0).
        { intros H0. unfold Qeq in H0. cbn in H0. lia. }
        field. exact Hne.
      * destruct (Qmin_spec (minRTF m) rtf) as (Hm1 & Hm2 & _).
        destruct (Qmax_spec (maxRTF m) rtf) as (Hx1 & Hx2 & _).
        apply Forall_app. split.
        -- eapply Forall_impl; [exact Hall|]. cbn. intros r [Hr1 Hr2]. split; lra.
        -- constructor; [split; lra | constructor].
    + (* reset *)
      split; [reflexivity|]. split; [vm_compute; reflexivity | constructor].
Qed.

End QualityMetricsFacts.

Module QualityHistoryFacts.
Import QualityAnalyzer QualityHistory.

Lemma recordAll_snoc reports r : recordAll (reports ++ [r]) = record (recordAll reports) r.
Proof. unfold recordAll. rewrite foldl_app. reflexivity. Qed.

Lemma history_last_thousand (reports : list report) :
  let q := recordAll reports in
  let n := length reports in
  totalWordsDetected q = Z.of_nat n
  /\ totalWordsCensored q
     = Z.of_nat (length (filter (fun r => r_wasCensored r = true) reports))
  /\ totalWordsSkipped q
     = Z.of_nat (length (filter (fun r => r_wasCensored r = false) reports))
  /\ totalWordsDetected q = totalWordsCensored q + totalWordsSkipped q
  /\ multiWordDetections q
     = Z.of_nat (length (filter (fun r => r_isMultiWord r = true) reports))
  /\ censorshipHistory q = drop (n - 1000) (eventOf <$> reports)
  /\ (length (censorshipHistory q) = Nat.min n 1000)%nat.
Proof.
  cbv zeta. induction reports as [|r reports IH] using rev_ind.
  - cbn. repeat split.
  - rewrite recordAll_snoc. destruct IH as (Hd & Hc & Hs & Hsum & Hm & Hh & Hl).
    rewrite Hd, Hc, Hs in Hsum.
    set (q := recordAll reports) in *.
    rewrite !filter_app, !length_app, fmap_app. cbn [length fmap list_fmap].
    unfold record, recordCensorshipEvent.
    cbn [totalWordsDetected totalWordsCensored totalWordsSkipped multiWordDetections
         censorshipHistory].
    rewrite Hd, Hc, Hs, Hm.
    assert (Hhist : (if Z.of_nat (length (censorshipHistory q
                                            ++ [mkEvent (r_word r) (r_timestamp r)
                                                  (r_wasCensored r) (r_mode r)]))
                        >? MAX_HISTORY_SIZE
                     then drop 1 (censorshipHistory q
                                  ++ [mkEvent (r_word r) (r_timestamp r)
                                        (r_wasCensored r) (r_mode r)])
                     else censorshipHistory q
                          ++ [mkEvent (r_word r) (r_timestamp r)
                                (r_wasCensored r) (r_mode r)])
                    = drop (length reports + 1 - 1000) ((eventOf <$> reports) ++ [eventOf r])).
    { rewrite length_app, Hl. cbn [length]. unfold MAX_HISTORY_SIZE.
      destruct (Z.gtb_spec (Z.of_nat (Nat.min (length reports) 1000 + 1)) 1000) as [Hbig|Hsmall].
      - rewrite Hh. rewrite drop_app_le by (rewrite length_drop, length_fmap; lia).
        rewrite drop_drop.
        rewrite (drop_app_le (eventOf <$> reports)) by (rewrite length_fmap; lia).
        f_equal. f_equal. lia.
      - rewrite Hh.
        replace (length reports - 1000)%nat with 0%nat by lia.
        replace (length reports + 1 - 1000)%nat with 0%nat by lia.
        reflexivity. }
    rewrite Hhist.
    assert (Hcount : forall b : bool,
              (length (filter (fun r0 => r_wasCensored r0 = b) [r])
               = if bool_decide (r_wasCensored r = b) then 1 else 0)%nat
              /\ (length (filter (fun r0 => r_isMultiWord r0 = b) [r])
                  = if bool_decide (r_isMultiWord r = b) then 1 else 0)%nat).
    { intros b. split.
      - destruct (decide (r_wasCensored r = b)) as [H|H].
        + rewrite filter_cons_True by exact H. by rewrite bool_decide_eq_true_2.
        + rewrite filter_cons_False by exact H. by rewrite bool_decide_eq_false_2.
      - destruct (decide (r_isMultiWord r = b)) as [H|H].
        + rewrite filter_cons_True by exact H. by rewrite bool_decide_eq_true_2.
        + rewrite filter_cons_False by exact H. by rewrite bool_decide_eq_false_2. }
    destruct (Hcount true) as [Hct Hmt]. destruct (Hcount false) as [Hcf _].
    rewrite Hct, Hcf, Hmt.
    assert (Hlen : length (drop (length reports + 1 - 1000)
                             ((eventOf <$> reports) ++ [eventOf r]))
                   = Nat.min (length reports + 1) 1000)
      by (rewrite length_drop, length_app, length_fmap; cbn [length]; lia).
    destruct (r_wasCensored r), (r_isMultiWord r);
      repeat (first [rewrite bool_decide_eq_true_2 by done
                    | rewrite bool_decide_eq_false_2 by done]);
      (split; [lia|]); (split; [lia|]); (split; [lia|]); (split; [lia|]);
      (split; [lia|]); (split; [reflexivity | exact Hlen]).
Qed.

(** X9: after any number of recorded events the analyzer has counted every
    event once, as censored or as skipped, its history holds the last 1000
    events (all of them while there are fewer), oldest first, and
    [getRecentEvents(maxCount)] returns the last [maxCount] of all events
    recorded, for [maxCount] up to 1000. *)
Theorem history_keeps_last_thousand (reports : list report) :
  let q := recordAll reports in
  let n := length reports in
  totalWordsDetected q = Z.of_nat n
  /\ totalWordsDetected q = totalWordsCensored q + totalWordsSkipped q
  /\ totalWordsSkipped q
     = Z.of_nat (length (filter (fun r => r_wasCensored r = false) reports))
  /\ censorshipHistory q = drop (n - 1000) (eventOf <$> reports)
  /\ (length (censorshipHistory q) = Nat.min n 1000)%nat
  /\ forall maxCount, 0 <= maxCount <= 1000 ->
       getRecentEvents maxCount q = drop (n - Z.to_nat maxCount) (eventOf <$> reports).
Proof.
  intros q n.
  destruct (history_last_thousand reports) as (Hd & _ & Hs & Hsum & _ & Hh & Hl).
  fold q in Hd, Hs, Hsum, Hh, Hl. fold n in Hd, Hh, Hl.
  split; [exact Hd|]. split; [exact Hsum|]. split; [exact Hs|].
  split; [exact Hh|]. split; [exact Hl|].
  intros maxCount Hmax. unfold getRecentEvents. rewrite Hl, Hh, drop_drop.
  f_equal. lia.
Qed.

End QualityHistoryFacts.

Module NormalFormFacts.
Import Text NormalForm LyricsAlignment.
Local Open Scope string_scope.

Lemma append_cons c (a b : string) : String c a ++ b = String c (a ++ b).
Proof. reflexivity. Qed.

Lemma append_nil_l (s : string) : EmptyString ++ s = s.
Proof. reflexivity. Qed.

Lemma append_nil_r (s : string) : s ++ EmptyString = s.
Proof. induction s as [|c s IH]; [reflexivity|]. by rewrite append_cons, IH. Qed.

Lemma append_assoc (a b c : string) : (a ++ b) ++ c = a ++ (b ++ c).
Proof. induction a as [|x a IH]; [reflexivity|]. by rewrite !append_cons, IH. Qed.

Lemma append_eq_nil (a b : string) : a ++ b = EmptyString -> a = EmptyString /\ b = EmptyString.
Proof. destruct a; [cbn; auto | discriminate]. Qed.

Lemma eqb_nil_false (a : string) c : String.eqb (a ++ String c EmptyString) EmptyString = false.
Proof. destruct a; reflexivity. Qed.

Lemma plain_facts c :
  plain c = true ->
  isspace c = false /\ isalnum c = true /\ tolower c = c.
Proof.
  destruct c as [[] [] [] [] [] [] [] []]; cbn; intros H; try discriminate; auto.
Qed.

Lemma tolower_kept c :
  negb (isalnum (tolower c)) && negb (isspace (tolower c)) = false ->
  isspace (tolower c) = true \/ plain (tolower c) = true.
Proof.
  destruct c as [[] [] [] [] [] [] [] []]; cbn; intros H; try discriminate; auto.
Qed.

Lemma all_chars_app p a b : all_chars p (a ++ b) = all_chars p a && all_chars p b.
Proof.
  induction a as [|c a IH]; [reflexivity|].
  rewrite append_cons. cbn [all_chars]. by rewrite IH, andb_assoc.
Qed.

(** The characters left by the first two steps of [normalizeText]. *)
Lemma kept_chars s :
  all_chars (fun c => isspace c || plain c)
    (remove_if (fun c => negb (isalnum c) && negb (isspace c)) (transform tolower s)) = true.
Proof.
  induction s as [|c s IH]; [reflexivity|]. cbn [transform remove_if].
  destruct (negb (isalnum (tolower c)) && negb (isspace (tolower c))) eqn:Hc; [exact IH|].
  cbn [all_chars]. rewrite IH, andb_true_r.
  destruct (tolower_kept c Hc) as [-> | ->]; [reflexivity | apply orb_true_r].
Qed.

(** The words read from kept characters are plain words. *)
Lemma extract_words_plain s : forall cur,
  all_chars plain cur = true ->
  all_chars (fun c => isspace c || plain c) s = true ->
  Forall (fun w => plainWord w = true) (extract_words cur s).
Proof.
  induction s as [|c s IH]; intros cur Hcur Hs; cbn [extract_words].
  - destruct (String.eqb cur EmptyString) eqn:He; constructor; [|constructor].
    unfold plainWord. by rewrite He, Hcur.
  - cbn [all_chars] in Hs. apply andb_true_iff in Hs as [Hc Hs].
    destruct (isspace c) eqn:Hsp.
    + destruct (String.eqb cur EmptyString) eqn:He; [by apply IH|].
      constructor; [unfold plainWord; by rewrite He, Hcur | by apply IH].
    + cbn [orb] in Hc. apply IH; [|exact Hs].
      rewrite all_chars_app, Hcur. cbn [all_chars andb]. by rewrite Hc.
Qed.

Lemma extract_words_word w : forall cur s,
  all_chars plain w = true ->
  extract_words cur (w ++ s) = extract_words (cur ++ w) s.
Proof.
  induction w as [|c w IH]; intros cur s Hw.
  - by rewrite append_nil_r.
  - cbn [all_chars] in Hw. apply andb_true_iff in Hw as [Hc Hw].
    destruct (plain_facts c Hc) as (Hsp & _ & _).
    rewrite append_cons. cbn [extract_words]. rewrite Hsp, IH by exact Hw.
    by rewrite append_assoc.
Qed.

(** Reading the single-space join of plain words gives the words back. *)
Lemma extract_join ws :
  Forall (fun w => plainWord w = true) ws ->
  extract_words EmptyString (join_words ws) = ws.
Proof.
  induction 1 as [|w ws Hw Hws IH]; [reflexivity|].
  unfold plainWord in Hw. apply andb_true_iff in Hw as [Hne Hw].
  apply negb_true_iff in Hne.
  destruct ws as [|w' ws'].
  - cbn [join_words]. rewrite <- (append_nil_r w) at 1.
    rewrite extract_words_word by exact Hw. rewrite append_nil_l. cbn [extract_words]. by rewrite Hne.
  - change (join_words (w :: w' :: ws')) with (w ++ " " ++ join_words (w' :: ws')).
    rewrite extract_words_word by exact Hw. rewrite append_nil_l, append_cons, append_nil_l.
    cbn [extract_words]. change (isspace " ") with true. cbv iota. rewrite Hne.
    by rewrite IH.
Qed.

Lemma transform_plain s :
  all_chars (fun c => isspace c || plain c) s = true ->
  remove_if (fun c => negb (isalnum c) && negb (isspace c)) (transform tolower s) = s.
Proof.
  induction s as [|c s IH]; [reflexivity|]. cbn [all_chars transform remove_if].
  intros H. apply andb_true_iff in H as [Hc Hs].
  assert (Hl : tolower c = c /\ negb (isalnum c) && negb (isspace c) = false).
  { destruct c as [[] [] [] [] [] [] [] []]; cbn in Hc |- *; try discriminate; auto. }
  destruct Hl as [-> ->]. by rewrite IH.
Qed.

Lemma join_words_chars ws :
  Forall (fun w => plainWord w = true) ws ->
  all_chars (fun c => isspace c || plain c) (join_words ws) = true.
Proof.
  assert (Hw : forall w, plainWord w = true ->
            all_chars (fun c => isspace c || plain c) w = true).
  { intros w H. unfold plainWord in H. apply andb_true_iff in H as [_ H].
    induction w as [|c w IH]; [reflexivity|]. cbn [all_chars] in *.
    apply andb_true_iff in H as [-> H]. rewrite orb_true_r. by apply IH. }
  induction 1 as [|w ws Hpw Hws IH]; [reflexivity|].
  destruct ws as [|w' ws']; [by apply Hw|].
  change (join_words (w :: w' :: ws')) with (w ++ " " ++ join_words (w' :: ws')).
  rewrite !all_chars_app, (Hw w Hpw), IH. reflexivity.
Qed.


Lemma split_plain s : Forall (fun w => plainWord w = true) (extract_words EmptyString
    (remove_if (fun c => negb (isalnum c) && negb (isspace c)) (transform tolower s))).
Proof. apply extract_words_plain; [reflexivity | apply kept_chars]. Qed.

Lemma normalizeText_join ws :
  Forall (fun w => plainWord w = true) ws ->
  normalizeText (join_words ws) = join_words ws.
Proof.
  intros Hws. unfold normalizeText.
  rewrite transform_plain by (by apply join_words_chars).
  by rewrite extract_join.
Qed.

Lemma normalizeText_facts (s : string) :
  normalizeText (normalizeText s) = normalizeText s
  /\ normalizeText s = join_words (splitIntoWords s)
  /\ Forall (fun w => plainWord w = true) (splitIntoWords s)
  /\ splitIntoWords (normalizeText s) = splitIntoWords s.
Proof.
  pose proof (split_plain s) as Hws.
  assert (Hsplit : splitIntoWords s
                   = extract_words EmptyString
                       (remove_if (fun c => negb (isalnum c) && negb (isspace c))
                          (transform tolower s))).
  { unfold splitIntoWords, normalizeText. by rewrite extract_join. }
  assert (Hnorm : normalizeText s = join_words (splitIntoWords s))
    by (by rewrite Hsplit).
  assert (Hidem : normalizeText (normalizeText s) = normalizeText s).
  { rewrite Hnorm. apply normalizeText_join. by rewrite Hsplit. }
  split; [exact Hidem|]. split; [exact Hnorm|]. split; [by rewrite Hsplit|].
  unfold splitIntoWords at 1. by rewrite Hidem.
Qed.

(** X10: normalization is idempotent.  The normalized text is the
    single-space join of the words [splitIntoWords] returns, these words
    are not empty and consist of lower-case letters and digits only, and
    normalizing or splitting the normalized text again changes nothing. *)
Theorem normalizeText_idempotent (s : string) :
  normalizeText (normalizeText s) = normalizeText s
  /\ normalizeText s = join_words (splitIntoWords s)
  /\ Forall (fun w => plainWord w = true) (splitIntoWords s)
  /\ splitIntoWords (normalizeText s) = splitIntoWords s.
Proof. apply normalizeText_facts. Qed.

Lemma length_append (a b : string) :
  String.length (a ++ b) = (String.length a + String.length b)%nat.
Proof. induction a as [|c a IH]; [reflexivity|]. rewrite append_cons. cbn. by rewrite IH. Qed.

Lemma padZeros_length fuel : forall code_ : string,
  (4 <= String.length code_ + fuel)%nat -> (4 <= String.length (padZeros fuel code_))%nat.
Proof.
  induction fuel as [|fuel IH]; intros code_ H; cbn [padZeros]; [lia|].
  destruct (Nat.ltb_spec (String.length code_) 4); [|lia].
  apply IH. rewrite length_append. cbn. lia.
Qed.

Lemma substring_length n : forall s : string,
  (n <= String.length s)%nat -> String.length (substring 0 n s) = n.
Proof.
  induction n as [|n IH]; intros s H.
  - destruct s; reflexivity.
  - destruct s as [|c s]; cbn in *; [lia|]. rewrite IH by lia. reflexivity.
Qed.

Lemma substring_chars p n : forall s : string,
  all_chars p s = true -> all_chars p (substring 0 n s) = true.
Proof.
  induction n as [|n IH]; intros s H.
  - destruct s; reflexivity.
  - destruct s as [|c s]; cbn in *; [reflexivity|].
    apply andb_true_iff in H as [-> H]. by apply IH.
Qed.

Lemma soundexDigit_digit c : isdigit (soundexDigit c) = true.
Proof.
  unfold soundexDigit.
  repeat match goal with |- context [if ?b then _ else _] => destruct b end; reflexivity.
Qed.

Lemma soundexLoop_chars rest : forall code_ : string,
  all_chars isdigit code_ = true -> all_chars isdigit (soundexLoop rest code_) = true.
Proof.
  induction rest as [|c rest IH]; intros code_ H; cbn [soundexLoop]; [exact H|].
  destruct (_ <? _)%nat; [|exact H].
  destruct (_ && _); [|by apply IH].
  apply IH. rewrite all_chars_app, H. cbn. by rewrite soundexDigit_digit.
Qed.

Lemma soundexLoop_cons rest c0 : forall digits : string,
  exists digits', soundexLoop rest (String c0 digits) = String c0 digits'
                  /\ (all_chars isdigit digits = true -> all_chars isdigit digits' = true).
Proof.
  induction rest as [|c rest IH]; intros digits; cbn [soundexLoop]; [eauto|].
  destruct (_ <? _)%nat; [|eauto].
  destruct (_ && _); [|apply IH].
  rewrite append_cons.
  destruct (IH (digits ++ String (soundexDigit c) EmptyString)) as (d' & -> & Hd').
  exists d'. split; [reflexivity|]. intros Hd. apply Hd'.
  rewrite all_chars_app, Hd. cbn. by rewrite soundexDigit_digit.
Qed.

Lemma padZeros_cons fuel c0 : forall digits : string,
  exists digits', padZeros fuel (String c0 digits) = String c0 digits'
                  /\ (all_chars isdigit digits = true -> all_chars isdigit digits' = true).
Proof.
  induction fuel as [|fuel IH]; intros digits; cbn [padZeros]; [eauto|].
  destruct (_ <? _)%nat; [|eauto]. rewrite append_cons.
  destruct (IH (digits ++ "0")) as (d' & -> & Hd').
  exists d'. split; [reflexivity|]. intros Hd. apply Hd'.
  by rewrite all_chars_app, Hd.
Qed.

Lemma toupper_plain c : plain c = true -> isupper (toupper c) || isdigit (toupper c) = true.
Proof. destruct c as [[] [] [] [] [] [] [] []]; cbn; intros H; try discriminate; auto. Qed.

Lemma normalizeText_first s c rest :
  normalizeText s = String c rest -> plain c = true.
Proof.
  intros H. destruct (normalizeText_facts s) as (_ & Hjoin & Hws & _).
  rewrite Hjoin in H. destruct Hws as [|w ws Hw _]; [discriminate|].
  unfold plainWord in Hw. apply andb_true_iff in Hw as [Hne Hw].
  destruct w as [|c' w]; [discriminate|]. cbn [all_chars] in Hw.
  apply andb_true_iff in Hw as [Hc _].
  destruct ws; cbn [join_words] in H; [|rewrite append_cons in H]; by injection H as <- _.
Qed.


Lemma soundexEncode_normalized w :
  soundexEncode w
  = match normalizeText w with
    | EmptyString => EmptyString
    | String c0 rest =>
        substring 0 4 (padZeros 4 (soundexLoop rest (String (toupper c0) EmptyString)))
    end.
Proof. unfold soundexEncode. destruct w; reflexivity. Qed.

(** X11: the Soundex code of a word is empty exactly when nothing is left
    of the word after normalization; otherwise it has four characters, the
    first letter of the normalized word in upper case (or its first digit)
    followed by three digits.  The code depends on the normalized word
    only. *)
Theorem soundexEncode_shape (w : string) :
  (soundexEncode w = EmptyString <-> normalizeText w = EmptyString)
  /\ (forall c rest, normalizeText w = String c rest ->
        exists digits,
          soundexEncode w = String (toupper c) digits
          /\ String.length digits = 3%nat
          /\ all_chars isdigit digits = true
          /\ isupper (toupper c) || isdigit (toupper c) = true)
  /\ soundexEncode (normalizeText w) = soundexEncode w.
Proof.
  assert (Hshape : forall c rest, normalizeText w = String c rest ->
            exists digits,
              soundexEncode w = String (toupper c) digits
              /\ String.length digits = 3%nat
              /\ all_chars isdigit digits = true
              /\ isupper (toupper c) || isdigit (toupper c) = true).
  { intros c rest Hn. rewrite soundexEncode_normalized, Hn.
    destruct (soundexLoop_cons rest (toupper c) EmptyString) as (d1 & -> & Hd1).
    destruct (padZeros_cons 4 (toupper c) d1) as (d2 & Hpad & Hd2).
    pose proof (padZeros_length 4 (String (toupper c) d1) ltac:(cbn; lia)) as Hlen.
    rewrite Hpad in *. cbn [String.length] in Hlen.
    change (substring 0 4 (String (toupper c) d2))
      with (String (toupper c) (substring 0 3 d2)).
    eexists. split; [reflexivity|]. split; [apply substring_length; lia|].
    split; [apply substring_chars; auto|].
    apply toupper_plain. by apply (normalizeText_first w c rest). }
  split; [|split; [exact Hshape|]].
  - destruct (normalizeText w) as [|c rest] eqn:Hn.
    + rewrite soundexEncode_normalized, Hn. done.
    + destruct (Hshape c rest eq_refl) as (d & -> & _). split; discriminate.
  - rewrite (soundexEncode_normalized (normalizeText w)), (soundexEncode_normalized w).
    by rewrite (proj1 (normalizeText_facts w)).
Qed.

End NormalFormFacts.

Module SimilarityFacts.
Import Text NormalForm LyricsAlignment NormalFormFacts.





End SimilarityFacts.

Module AlignmentWindowsFacts.
Import Text LyricsAlignment AlignmentWindows LoopFacts.

Lemma Qltb_lt x y : Qltb x y = true <-> (x < y)%Q.
Proof.
  unfold Qltb. rewrite negb_true_iff. split.
  - intros H. apply Qnot_le_lt. intros Hle. apply Qle_bool_iff in Hle. congruence.
  - intros H. destruct (Qle_bool y x) eqn:Hb; [|reflexivity].
    apply Qle_bool_iff in Hb. exfalso. apply (Qlt_not_le _ _ H Hb).
Qed.

Lemma Qltb_ge x y : Qltb x y = false <-> (y <= x)%Q.
Proof.
  unfold Qltb. rewrite negb_false_iff. apply Qle_bool_iff.
Qed.

(** X13: [findBestStartPosition] returns the first position of the search
    range whose window scores highest, with that score, provided some
    window scores above 0; otherwise it returns -1 with score 0.  No window
    of the range scores higher than the score returned. *)
Theorem findBestStartPosition_first_maximum (a : t) (ws : list WordSegment)
    (searchStart searchEnd : Z) :
  let hi := Z.min searchEnd (getTotalWords a) in
  let r := findBestStartPosition a ws searchStart searchEnd in
  (forall p, searchStart <= p < hi -> (windowScore a ws p <= snd r)%Q)
  /\ ((fst r = -1 /\ snd r = 0%Q)
      \/ (searchStart <= fst r < hi
          /\ snd r = windowScore a ws (fst r)
          /\ (0 < snd r)%Q
          /\ forall p, searchStart <= p < fst r -> (windowScore a ws p < snd r)%Q)).
Proof.
  intros hi r. subst r. unfold findBestStartPosition. fold hi.
  destruct (Z.le_gt_cases searchStart hi) as [Hle|Hgt].
  2:{ rewrite for_loop_nil by lia. cbn [fst snd]. split; [intros p Hp; lia | by left]. }
  apply (for_loop_ind (fun i (r : Z * Q) =>
           (forall p, searchStart <= p < i -> (windowScore a ws p <= snd r)%Q)
           /\ ((fst r = -1 /\ snd r = 0%Q)
               \/ (searchStart <= fst r < i
                   /\ snd r = windowScore a ws (fst r)
                   /\ (0 < snd r)%Q
                   /\ forall p, searchStart <= p < fst r ->
                        (windowScore a ws p < snd r)%Q)))); [exact Hle| |].
  - cbn [fst snd]. split; [intros p Hp; lia | by left].
  - intros i [bp bs] Hi [Hall Hbest]. cbn [fst snd] in *.
    change (calculateSimilarity _ _) with (windowScore a ws i).
    assert (Hbs : (0 <= bs)%Q).
    { destruct Hbest as [[_ ->]|(_ & _ & H & _)]; lra. }
    destruct (Qltb bs (windowScore a ws i)) eqn:Hcmp; cbn [fst snd].
    + apply Qltb_lt in Hcmp. split.
      * intros p Hp. destruct (Z.eq_dec p i) as [->|Hne]; [lra|].
        specialize (Hall p ltac:(lia)). lra.
      * right. split; [lia|]. split; [reflexivity|]. split; [lra|].
        intros p Hp. specialize (Hall p ltac:(lia)). lra.
    + apply Qltb_ge in Hcmp. split.
      * intros p Hp. destruct (Z.eq_dec p i) as [->|Hne]; [exact Hcmp|].
        apply Hall. lia.
      * destruct Hbest as [Hnone|(Hr & Hs & Hpos & Hfirst)]; [by left|].
        right. split; [lia|]. auto.
Qed.

Lemma unlockOnJump_lock a T : lockEarned a -> lockEarned (unlockOnJump a T).
Proof.
  intros H. unfold unlockOnJump. destruct (Qltb 0 T); [|exact H].
  destruct (_ && _); [|exact H].
  split; cbn [consecutiveMatches locked]; [lia | discriminate].
Qed.

Lemma withState_unlocked a pos : lockEarned (withState a pos false 0).
Proof. split; cbn [withState consecutiveMatches locked]; [lia | discriminate]. Qed.

Lemma alignChunk_lock a ws T : lockEarned a -> lockEarned (snd (alignChunk a ws T)).
Proof.
  intros Hinv. unfold alignChunk.
  destruct (_ || _); [exact Hinv|].
  destruct (bool_decide (ws = [])); [exact Hinv|].
  destruct (isNonLyricalContent ws); [exact Hinv|].
  cbv zeta.
  pose proof (unlockOnJump_lock a T Hinv) as Hinv1.
  set (a1 := unlockOnJump a T) in *.
  destruct (searchRange a1 _) as [ss se].
  destruct (findBestStartPosition a1 ws ss se) as [pos score].
  destruct (pos <? 0); [apply withState_unlocked|].
  destruct (Qle_bool LOCK_THRESHOLD score);
    [|destruct (Qle_bool TEXT_MATCH_THRESHOLD score); apply withState_unlocked].
  destruct Hinv1 as [Hcm Hlk]. cbn [snd].
  split; cbn [withState consecutiveMatches locked]; [lia|].
  destruct (Z.geb_spec (consecutiveMatches a1 + 1) LOCK_REQUIRED_MATCHES) as [Hge|Hlt].
  - intros _. exact Hge.
  - intros Hl. specialize (Hlk Hl). lia.
Qed.

Lemma predictNextWords_lock a d :
  lockEarned a -> lockEarned (snd (predictNextWords a d)).
Proof.
  intros Hinv. unfold predictNextWords.
  destruct (_ || _); [exact Hinv|]. exact Hinv.
Qed.

Lemma alignChunk_lyrics a ws T :
  preprocessedLyrics (snd (alignChunk a ws T)) = preprocessedLyrics a
  /\ initialized (snd (alignChunk a ws T)) = initialized a.
Proof.
  unfold alignChunk.
  destruct (_ || _); [done|].
  destruct (bool_decide (ws = [])); [done|].
  destruct (isNonLyricalContent ws); [done|].
  cbv zeta.
  destruct (LyricsAlignmentFacts.unlockOnJump_same a T) as (Hl & _ & Hi).
  set (a1 := unlockOnJump a T) in *.
  destruct (searchRange a1 _) as [ss se].
  destruct (findBestStartPosition a1 ws ss se) as [pos score].
  destruct (pos <? 0); [done|].
  destruct (Qle_bool LOCK_THRESHOLD score);
    [|destruct (Qle_bool TEXT_MATCH_THRESHOLD score)]; done.
Qed.

Lemma predictNextWords_lyrics a d :
  preprocessedLyrics (snd (predictNextWords a d)) = preprocessedLyrics a
  /\ initialized (snd (predictNextWords a d)) = initialized a
  /\ locked (snd (predictNextWords a d)) = locked a
  /\ consecutiveMatches (snd (predictNextWords a d)) = consecutiveMatches a.
Proof. unfold predictNextWords. destruct (_ || _); done. Qed.

Lemma aligner_session_snoc calls c : session (calls ++ [c]) = perform (session calls) c.
Proof. unfold session. by rewrite foldl_app. Qed.

(** X14: in every session of calls on an aligner (setLyrics, reset,
    alignChunk, predictNextWords, in any order and with any arguments) the
    aligner is locked only while at least two strong matches in a row are
    counted, and the count is never negative.  alignChunk and
    predictNextWords never change the loaded lyrics, and predictNextWords
    changes neither the lock nor the count. *)
Theorem lock_is_earned (calls : list call) :
  let a := session calls in
  lockEarned a
  /\ (forall ws T, preprocessedLyrics (snd (alignChunk a ws T)) = preprocessedLyrics a
                   /\ isReady (snd (alignChunk a ws T)) = isReady a)
  /\ (forall d, preprocessedLyrics (snd (predictNextWords a d)) = preprocessedLyrics a
                /\ isReady (snd (predictNextWords a d)) = isReady a
                /\ locked (snd (predictNextWords a d)) = locked a
                /\ consecutiveMatches (snd (predictNextWords a d)) = consecutiveMatches a).
Proof.
  cbv zeta. split.
  - induction calls as [|c calls IH] using rev_ind.
    + split; cbn; [lia | discriminate].
    + rewrite aligner_session_snoc. destruct c; cbn [perform].
      * split; cbn; [lia | discriminate].
      * split; cbn; [lia | discriminate].
      * by apply alignChunk_lock.
      * by apply predictNextWords_lock.
  - split.
    + intros ws T. destruct (alignChunk_lyrics (session calls) ws T) as [Hl Hi].
      split; [exact Hl|]. unfold isReady. by rewrite Hl, Hi.
    + intros d. destruct (predictNextWords_lyrics (session calls) d) as (Hl & Hi & Hk & Hc).
      split; [exact Hl|]. split; [unfold isReady; by rewrite Hl, Hi|]. by split.
Qed.

Lemma lookup_map_seqZ {A} (f : Z -> A) n i w :
  map f (seqZ 0 n) !! i = Some w -> Z.of_nat i < n /\ w = f (Z.of_nat i).
Proof.
  intros H. change (map f (seqZ 0 n)) with (f <$> seqZ 0 n) in H.
  rewrite list_lookup_fmap in H.
  destruct (seqZ 0 n !! i) as [z|] eqn:Hz; [|discriminate].
  apply lookup_seqZ in Hz. cbn in H. destruct Hz as [-> Hlt].
  split; [lia|]. injection H as <-. f_equal.
Qed.

(** X15: [alignChunk] either hands the transcription back unchanged and
    leaves the cursor where it was, or it answers with n >= 1 consecutive
    words of the lyrics, from a position pos >= 0 on, with n at most the
    number of transcribed words and pos + n inside the lyrics; it then moves
    the cursor to pos + n, and the n words share the time span of the chunk
    evenly: the first starts with the first transcribed word, each word
    ends where the next one starts, all last equally long, and the last one
    ends with the last transcribed word. *)
Theorem alignChunk_output (a : t) (ws : list WordSegment) (T : Q) :
  let out := fst (alignChunk a ws T) in
  let a' := snd (alignChunk a ws T) in
  (out = ws /\ currentPosition a' = currentPosition a)
  \/ exists front pos n,
       head ws = Some front
       /\ 0 <= pos /\ 1 <= n <= Z.of_nat (length ws) /\ pos + n <= getTotalWords a
       /\ currentPosition a' = pos + n
       /\ Z.of_nat (length out) = n
       /\ (forall i w, out !! i = Some w -> word w = lyricsAt a (pos + Z.of_nat i))
       /\ (forall w, out !! 0%nat = Some w -> (start w == start front)%Q)
       /\ (forall i w w', out !! i = Some w -> out !! S i = Some w' ->
              (end_ w == start w')%Q)
       /\ (forall w, w ∈ out ->
              (end_ w - start w == (end_ (List.last ws front) - start front) / inject_Z n)%Q)
       /\ (forall w, out !! Z.to_nat (n - 1) = Some w ->
              (end_ w == end_ (List.last ws front))%Q).
Proof.
  cbv zeta. unfold alignChunk.
  destruct (_ || _); [by left|].
  destruct (bool_decide_reflect (ws = [])) as [|Hne]; [by left|].
  destruct (isNonLyricalContent ws); [by left|].
  cbv zeta.
  destruct (LyricsAlignmentFacts.unlockOnJump_same a T) as (Hl & Hc & _).
  set (a1 := unlockOnJump a T) in *.
  assert (Htotal : getTotalWords a1 = getTotalWords a)
    by (unfold getTotalWords; by rewrite Hl).
  destruct (searchRange a1 _) as [ss se].
  pose proof (LyricsAlignmentFacts.findBestStartPosition_range a1 ws ss se) as Hr.
  cbv zeta in Hr.
  destruct (findBestStartPosition a1 ws ss se) as [pos score]. cbn [fst snd] in Hr.
  destruct (Z.ltb_spec pos 0) as [Hneg|Hpos]; [left; by split|].
  assert (Hmapped : forall lk cm,
    let n := Z.min (Z.of_nat (length ws)) (getTotalWords a1 - pos) in
    let out := mapTimestamps a1 pos n ws in
    exists front pos0 n0,
       head ws = Some front
       /\ 0 <= pos0 /\ 1 <= n0 <= Z.of_nat (length ws) /\ pos0 + n0 <= getTotalWords a
       /\ currentPosition (withState a1 (pos + n) lk cm) = pos0 + n0
       /\ Z.of_nat (length out) = n0
       /\ (forall i w, out !! i = Some w -> word w = lyricsAt a (pos0 + Z.of_nat i))
       /\ (forall w, out !! 0%nat = Some w -> (start w == start front)%Q)
       /\ (forall i w w', out !! i = Some w -> out !! S i = Some w' ->
              (end_ w == start w')%Q)
       /\ (forall w, w ∈ out ->
              (end_ w - start w == (end_ (List.last ws front) - start front) / inject_Z n0)%Q)
       /\ (forall w, out !! Z.to_nat (n0 - 1) = Some w ->
              (end_ w == end_ (List.last ws front))%Q)).
  { intros lk cm n out.
    assert (Hlt : pos < getTotalWords a1) by (destruct Hr as [[? _]|?]; lia).
    destruct ws as [|front rest]; [done|].
    assert (Hn : 1 <= n <= getTotalWords a1 - pos)
      by (subst n; cbn [length]; lia).
    exists front, pos, n.
    subst out. rewrite LyricsAlignmentFacts.mapTimestamps_window by exact Hn.
    cbv zeta.
    set (tpw := ((end_ (List.last (front :: rest) front) - start front) / inject_Z n)%Q).
    assert (Hn0 : ~ (inject_Z n == 0)%Q).
    { unfold Qeq. cbn. lia. }
    split; [reflexivity|]. split; [exact Hpos|]. split; [subst n; lia|].
    split; [lia|]. split; [reflexivity|].
    split; [rewrite length_map, length_seqZ; lia|].
    split.
    { intros i w Hw. apply lookup_map_seqZ in Hw as [_ ->]. cbn [word].
      by apply LyricsAlignmentFacts.lyricsAt_same. }
    split.
    { intros w Hw. apply lookup_map_seqZ in Hw as [_ ->]. cbn [start].
      change (inject_Z (Z.of_nat 0)) with (inject_Z 0). unfold inject_Z. lra. }
    split.
    { intros i w w' Hw Hw'. apply lookup_map_seqZ in Hw as [_ ->].
      apply lookup_map_seqZ in Hw' as [_ ->]. cbn [start end_].
      rewrite Nat2Z.inj_succ. unfold Z.succ. rewrite inject_Z_plus.
      change (inject_Z 1) with 1%Q. lra. }
    split.
    { intros w Hw. apply list_elem_of_lookup in Hw as [i Hw].
      apply lookup_map_seqZ in Hw as [_ ->]. cbn [start end_]. fold tpw. lra. }
    intros w Hw. apply lookup_map_seqZ in Hw as [_ ->]. cbn [end_].
    rewrite Z2Nat.id by lia.
    replace (inject_Z (n - 1)) with (inject_Z n - 1)%Q.
    2:{ unfold Zminus. rewrite inject_Z_plus. reflexivity. }
    subst tpw. field. exact Hn0. }
  destruct (Qle_bool LOCK_THRESHOLD score);
    [right; apply Hmapped|].
  destruct (Qle_bool TEXT_MATCH_THRESHOLD score);
    [right; apply Hmapped | left; by split].
Qed.

End AlignmentWindowsFacts.

Module SpeechRegionsFacts.
Import LyricsAlignment TimestampRefiner SpeechRegions LoopFacts.
Import AlignmentWindowsFacts.

Lemma for_loop_step_count lo hi step k :
  0 < step -> 0 <= k ->
  k < (if hi <=? lo then 0 else (hi - lo + step - 1) / step) <-> lo + k * step < hi.
Proof.
  intros Hstep Hk. destruct (Z.leb_spec hi lo) as [Hle|Hlt]; [nia|].
  pose proof (Z.div_mod (hi - lo + step - 1) step ltac:(lia)) as Hdm.
  pose proof (Z.mod_pos_bound (hi - lo + step - 1) step Hstep) as Hr.
  set (q := (hi - lo + step - 1) / step) in *.
  set (r := (hi - lo + step - 1) mod step) in *.
  split; intros H; nia.
Qed.

(** Invariants of [for (i = lo; i < hi; i += step)]: [P k] holds after the
    first [k] rounds. *)
Lemma for_loop_step_ind {St} (P : Z -> St -> Prop) lo hi step (body : Z -> St -> St) s :
  0 < step ->
  P 0 s ->
  (forall k acc, 0 <= k -> lo + k * step < hi -> P k acc ->
     P (k + 1) (body (lo + k * step) acc)) ->
  exists n, 0 <= n
    /\ (forall k, 0 <= k -> k < n <-> lo + k * step < hi)
    /\ P n (for_loop_step lo hi step body s).
Proof.
  intros Hstep H0 Hbody.
  set (n := if hi <=? lo then 0 else (hi - lo + step - 1) / step).
  assert (Hcount : forall k, 0 <= k -> k < n <-> lo + k * step < hi)
    by (intros k Hk; by apply for_loop_step_count).
  assert (Hn : 0 <= n).
  { destruct (Z.le_gt_cases 0 n) as [|Hneg]; [done|].
    exfalso. assert (H := proj2 (Hcount 0 ltac:(lia))).
    subst n. destruct (Z.leb_spec hi lo); [lia|].
    assert (0 <= (hi - lo + step - 1) / step) by (apply Z.div_pos; lia). lia. }
  exists n. split; [exact Hn|]. split; [exact Hcount|].
  change (for_loop_step lo hi step body s)
    with (foldl (fun acc k => body (lo + k * step) acc) s (seqZ 0 n)).
  replace (seqZ 0 n) with (seqZ 0 (n - 0)) by (f_equal; lia).
  change (P n (for_loop 0 n (fun k acc => body (lo + k * step) acc) s)).
  apply (for_loop_ind P); [exact Hn | exact H0|].
  intros k acc Hk HP. apply Hbody; [lia | by apply Hcount; lia | exact HP].
Qed.

Lemma StronglySorted_snoc {A} (R : A -> A -> Prop) l x :
  StronglySorted R l -> (forall y, y ∈ l -> R y x) -> StronglySorted R (l ++ [x]).
Proof.
  induction 1 as [|a l Hl IH Ha]; intros Hx; cbn [app].
  - constructor; [constructor | constructor].
  - constructor.
    + apply IH. intros y Hy. apply Hx. by right.
    + apply List.Forall_app. split; [exact Ha|].
      constructor; [|constructor]. apply Hx. by left.
Qed.

Section RegionFacts.
Variable sqrtf : Q -> Q.

(** What [energyRegions] computes. *)
Lemma energyRegions_spec audio lo hi :
  let regions := energyRegions sqrtf audio lo hi in
  (forall r, r ∈ regions ->
     (exists k, 0 <= k /\ fst r = lo + k * WINDOW_SIZE)
     /\ lo <= fst r < snd r /\ snd r <= hi)
  /\ StronglySorted (apart Z.lt) regions
  /\ forall k, 0 <= k -> lo + k * WINDOW_SIZE < hi ->
       isSpeechWindow sqrtf audio (lo + k * WINDOW_SIZE) = true
       <-> inRegions regions (lo + k * WINDOW_SIZE).
Proof.
  cbv zeta. unfold energyRegions.
  set (W := fun k => lo + k * WINDOW_SIZE).
  set (body := fun (i : Z) '(regions, inSpeech, regionStart) => _).
  destruct (for_loop_step_ind
    (fun k '(regions, inS, rs) =>
       (forall r, r ∈ regions ->
          (exists j, 0 <= j /\ fst r = W j)
          /\ lo <= fst r < snd r /\ (exists j, 0 <= j < k /\ snd r = W j))
       /\ StronglySorted (apart Z.lt) regions
       /\ (inS = true ->
             (exists j, 0 <= j < k /\ rs = W j)
             /\ forall r, r ∈ regions -> snd r < rs)
       /\ forall j, 0 <= j < k ->
            isSpeechWindow sqrtf audio (W j) = true
            <-> (inRegions regions (W j) \/ (inS = true /\ rs <= W j)))
    lo hi WINDOW_SIZE body ([], false, 0)) as (n & Hn & Hcount & Hfinal).
  - reflexivity.
  - split; [intros r Hr; by apply elem_of_nil in Hr|].
    split; [constructor|]. split; [discriminate|]. intros j Hj. lia.
  - intros k [[regions inS] rs] Hk Hlt (Hreg & Hsorted & Hin & Hcov).
    assert (HW : forall j, W (j + 1) = W j + 480) by (intros j; unfold W, WINDOW_SIZE; lia).
    assert (Hmono : forall i j, i < j -> W i < W j) by (intros i j; unfold W, WINDOW_SIZE; lia).
    assert (Hmono' : forall i j, W i <= W j -> i <= j) by (intros i j; unfold W, WINDOW_SIZE; lia).
    assert (Hclosed : forall r, r ∈ regions -> snd r < W k).
    { intros r Hr. destruct (Hreg r Hr) as (_ & _ & j & Hj & ->). apply Hmono. lia. }
    assert (HWk : W k = lo + k * WINDOW_SIZE) by reflexivity.
    unfold body. cbv zeta.
    change (Qltb ENERGY_THRESHOLD _ && Qltb ZC_THRESHOLD _)
      with (isSpeechWindow sqrtf audio (W k)).
    destruct (isSpeechWindow sqrtf audio (W k)) eqn:Hsp; destruct inS; cbn [andb negb].
    + (* speech goes on *)
      destruct (Hin eq_refl) as [(j0 & Hj0 & Hrs) Hbefore].
      split.
      { intros r Hr. destruct (Hreg r Hr) as (H1 & H2 & j & Hj & H3).
        split; [exact H1|]. split; [exact H2|]. exists j. split; [lia | exact H3]. }
      split; [exact Hsorted|]. split.
      { intros _. split; [exists j0; split; [lia | exact Hrs] | exact Hbefore]. }
      intros j Hj. destruct (Z.eq_dec j k) as [->|Hne].
      * split; [|intros _; exact Hsp]. intros _. right. split; [reflexivity|].
        rewrite Hrs. apply Z.lt_le_incl, Hmono. lia.
      * apply Hcov. lia.
    + (* a region starts *)
      split.
      { intros r Hr. destruct (Hreg r Hr) as (H1 & H2 & j & Hj & H3).
        split; [exact H1|]. split; [exact H2|]. exists j. split; [lia | exact H3]. }
      split; [exact Hsorted|]. split.
      { intros _. split; [exists k; split; [lia | reflexivity] | exact Hclosed]. }
      intros j Hj. destruct (Z.eq_dec j k) as [->|Hne].
      * split; [|intros _; exact Hsp]. intros _. right. split; [reflexivity | lia].
      * rewrite (Hcov j ltac:(lia)). split.
        -- intros [H|[H _]]; [by left | discriminate].
        -- intros [H|[_ H]]; [by left|]. apply Hmono' in H. lia.
    + (* a region ends *)
      destruct (Hin eq_refl) as [(j0 & Hj0 & Hrs) Hbefore].
      split.
      { intros r Hr. apply elem_of_app in Hr as [Hr|Hr].
        - destruct (Hreg r Hr) as (H1 & H2 & j & Hj & H3).
          split; [exact H1|]. split; [exact H2|]. exists j. split; [lia | exact H3].
        - apply list_elem_of_singleton in Hr as ->. cbn [fst snd].
          split; [exists j0; split; [lia | exact Hrs]|].
          split; [split; [rewrite Hrs; unfold W, WINDOW_SIZE; lia | rewrite Hrs; apply Hmono; lia]|].
          exists k. split; [lia | reflexivity]. }
      split.
      { apply StronglySorted_snoc; [exact Hsorted|]. intros r Hr. apply (Hbefore r Hr). }
      split; [discriminate|].
      intros j Hj. destruct (Z.eq_dec j k) as [->|Hne].
      * split; [rewrite Hsp; discriminate|]. intros [(r & Hr & Hr1 & Hr2)|[H _]]; [|discriminate].
        exfalso. apply elem_of_app in Hr as [Hr|Hr].
        -- specialize (Hclosed r Hr). lia.
        -- apply list_elem_of_singleton in Hr as ->. cbn [fst snd] in *. lia.
      * rewrite (Hcov j ltac:(lia)). split.
        -- intros [(r & Hr & Hr1)|[_ H]].
           ++ left. exists r. split; [apply elem_of_app; by left | exact Hr1].
           ++ left. exists (rs, W k). split; [apply elem_of_app; right; by apply list_elem_of_singleton|].
              cbn [fst snd]. split; [exact H | apply Hmono; lia].
        -- intros [(r & Hr & Hr1)|[H _]]; [|discriminate].
           apply elem_of_app in Hr as [Hr|Hr].
           ++ left. by exists r.
           ++ apply list_elem_of_singleton in Hr as ->. cbn [fst snd] in Hr1.
              right. split; [reflexivity | lia].
    + (* silence goes on *)
      split.
      { intros r Hr. destruct (Hreg r Hr) as (H1 & H2 & j & Hj & H3).
        split; [exact H1|]. split; [exact H2|]. exists j. split; [lia | exact H3]. }
      split; [exact Hsorted|]. split; [discriminate|].
      intros j Hj. destruct (Z.eq_dec j k) as [->|Hne].
      * split; [rewrite Hsp; discriminate|]. intros [(r & Hr & Hr1 & Hr2)|[H _]]; [|discriminate].
        specialize (Hclosed r Hr). lia.
      * apply Hcov. lia.
  - destruct (for_loop_step lo hi WINDOW_SIZE body ([], false, 0)) as [[regions inS] rs].
    destruct Hfinal as (Hreg & Hsorted & Hin & Hcov).
    assert (Hend : forall j, 0 <= j < n -> W j < hi).
    { intros j Hj. apply Hcount; lia. }
    assert (Hreg' : forall r, r ∈ regions ->
              (exists k, 0 <= k /\ fst r = W k) /\ lo <= fst r < snd r /\ snd r <= hi).
    { intros r Hr. destruct (Hreg r Hr) as (H1 & H2 & j & Hj & H3).
      split; [exact H1|]. split; [exact H2|]. rewrite H3. apply Z.lt_le_incl, Hend. lia. }
    destruct inS.
    + destruct (Hin eq_refl) as [(j0 & Hj0 & Hrs) Hbefore].
      split.
      { intros r Hr. apply elem_of_app in Hr as [Hr|Hr]; [by apply Hreg'|].
        apply list_elem_of_singleton in Hr as ->. cbn [fst snd].
        split; [exists j0; split; [lia | exact Hrs]|].
        split; [|lia]. rewrite Hrs. split; [unfold W, WINDOW_SIZE; lia | apply Hend; lia]. }
      split.
      { apply StronglySorted_snoc; [exact Hsorted|]. intros r Hr. apply (Hbefore r Hr). }
      intros k Hk Hlt. assert (Hkn : k < n) by (apply Hcount; [lia | exact Hlt]).
      fold (W k). rewrite (Hcov k ltac:(lia)). split.
      * intros [(r & Hr & Hr1)|[_ H]].
        -- exists r. split; [apply elem_of_app; by left | exact Hr1].
        -- exists (rs, hi). split; [apply elem_of_app; right; by apply list_elem_of_singleton|].
           cbn [fst snd]. split; [exact H | exact Hlt].
      * intros (r & Hr & Hr1). apply elem_of_app in Hr as [Hr|Hr].
        -- left. by exists r.
        -- apply list_elem_of_singleton in Hr as ->. cbn [fst snd] in Hr1.
           right. split; [reflexivity | lia].
    + split; [exact Hreg'|]. split; [exact Hsorted|].
      intros k Hk Hlt. assert (Hkn : k < n) by (apply Hcount; [lia | exact Hlt]).
      fold (W k). rewrite (Hcov k ltac:(lia)). split.
      * intros [H|[H _]]; [exact H | discriminate].
      * intros H. by left.
Qed.

(** X16: the regions [searchForSpeech] collects in a search range are
    exactly the runs of speech windows.  Every region starts at a window
    start, is not empty and lies inside the range; the regions come in
    order, each ending before the next one starts; and a window of the
    range is speech if and only if it starts inside one of the regions. *)
Theorem energyRegions_are_speech_runs (audio : list Q) (lo hi : Z) :
  let regions := energyRegions sqrtf audio lo hi in
  (forall r, r ∈ regions ->
     (exists k, 0 <= k /\ fst r = lo + k * WINDOW_SIZE)
     /\ lo <= fst r < snd r /\ snd r <= hi)
  /\ StronglySorted (apart Z.lt) regions
  /\ forall k, 0 <= k -> lo + k * WINDOW_SIZE < hi ->
       isSpeechWindow sqrtf audio (lo + k * WINDOW_SIZE) = true
       <-> inRegions regions (lo + k * WINDOW_SIZE).
Proof. apply energyRegions_spec. Qed.

Lemma foldl_related {A B C} (R : A -> B -> Prop) (f : A -> C -> A) (g : B -> C -> B) l a b :
  R a b -> (forall x a b, R a b -> R (f a x) (g b x)) -> R (foldl f a l) (foldl g b l).
Proof.
  intros H0 Hstep. revert a b H0.
  induction l as [|x l IH]; intros a b H0; cbn [foldl]; [exact H0|].
  apply IH. by apply Hstep.
Qed.

(** [findSpeechRegions] finds the regions of the whole buffer, in seconds. *)
Lemma findSpeechRegions_energyRegions audio sampleRate :
  findSpeechRegions sqrtf audio sampleRate
  = map (fun r => (seconds sampleRate (fst r), seconds sampleRate (snd r)))
        (energyRegions sqrtf audio 0 (asize audio)).
Proof.
  unfold findSpeechRegions, energyRegions, for_loop_step.
  pose (R := fun (x : list (Q * Q) * bool * Z) (y : list (Z * Z) * bool * Z) =>
               x.1.1 = map (fun r => (seconds sampleRate (fst r), seconds sampleRate (snd r))) y.1.1
               /\ x.1.2 = y.1.2 /\ x.2 = y.2).
  match goal with
  | |- context [foldl ?f ?a ?l] =>
      match goal with
      | |- context [foldl ?g ([], false, 0) l] =>
          assert (Hrel : R (foldl f a l) (foldl g ([], false, 0) l));
          [|destruct (foldl f a l) as [[rq iq] sq];
            destruct (foldl g ([], false, 0) l) as [[rz iz] sz]]
      end
  end.
  - apply (foldl_related R); [done|].
    intros k [[rq iq] sq] [[rz iz] sz] (H1 & H2 & H3). unfold R. cbn [fst snd] in *. subst.
    destruct (_ && negb iz); [done|].
    destruct (_ && iz); [|done].
    cbn [fst snd]. split; [|done]. by rewrite map_app.
  - destruct Hrel as (H1 & H2 & H3). cbn [fst snd] in *. subst.
    destruct iz; [|done]. by rewrite map_app.
Qed.

End RegionFacts.

Lemma seconds_lt rate i j : 0 < rate -> i < j <-> (seconds rate i < seconds rate j)%Q.
Proof.
  intros Hrate. destruct rate as [|p|p]; try lia.
  unfold seconds, Qlt, Qdiv, Qmult, Qinv, inject_Z. cbn. nia.
Qed.

Lemma seconds_le rate i j : 0 < rate -> i <= j <-> (seconds rate i <= seconds rate j)%Q.
Proof.
  intros Hrate. destruct rate as [|p|p]; try lia.
  unfold seconds, Qle, Qdiv, Qmult, Qinv, inject_Z. cbn. nia.
Qed.

Lemma seconds_nonneg rate i : 0 < rate -> 0 <= i -> (0 <= seconds rate i)%Q.
Proof.
  intros Hrate Hi. destruct rate as [|p|p]; try lia.
  unfold seconds, Qle, Qdiv, Qmult, Qinv, inject_Z. cbn. nia.
Qed.

Lemma StronglySorted_map {A B} (R : A -> A -> Prop) (R' : B -> B -> Prop) (f : A -> B) l :
  (forall x y, R x y -> R' (f x) (f y)) ->
  StronglySorted R l -> StronglySorted R' (map f l).
Proof.
  intros Hf. induction 1 as [|a l Hl IH Ha]; cbn [map]; constructor; [exact IH|].
  apply List.Forall_map. eapply List.Forall_impl; [|exact Ha]. intros y. apply Hf.
Qed.

(** X17: for a positive sample rate, [findSpeechRegions] returns the runs of
    speech windows of the whole buffer in seconds: every region is not
    empty and lies between 0 and the length of the audio, the regions come
    in order, each ending before the next one starts, and a window of the
    buffer is speech if and only if its start time lies inside one of the
    regions. *)
Theorem findSpeechRegions_are_speech_runs (sqrtf : Q -> Q) (audio : list Q)
    (sampleRate : Z) :
  0 < sampleRate ->
  let regions := findSpeechRegions sqrtf audio sampleRate in
  (forall r, r ∈ regions ->
     (0 <= fst r)%Q /\ (fst r < snd r)%Q
     /\ (snd r <= seconds sampleRate (asize audio))%Q)
  /\ StronglySorted (apart Qlt) regions
  /\ forall k, 0 <= k -> k * WINDOW_SIZE < asize audio ->
       isSpeechWindow sqrtf audio (k * WINDOW_SIZE) = true
       <-> exists r, r ∈ regions
             /\ (fst r <= seconds sampleRate (k * WINDOW_SIZE))%Q
             /\ (seconds sampleRate (k * WINDOW_SIZE) < snd r)%Q.
Proof.
  intros Hrate. cbv zeta. rewrite findSpeechRegions_energyRegions.
  destruct (energyRegions_spec sqrtf audio 0 (asize audio)) as (Hreg & Hsorted & Hcov).
  set (regions := energyRegions sqrtf audio 0 (asize audio)) in *.
  split.
  { intros r Hr. apply list_elem_of_In, in_map_iff in Hr as (z & <- & Hz).
    apply list_elem_of_In in Hz. destruct (Hreg z Hz) as (_ & H1 & H2). cbn [fst snd].
    split; [|split].
    - apply seconds_nonneg; [exact Hrate | lia].
    - apply seconds_lt; [exact Hrate | lia].
    - apply seconds_le; [exact Hrate | lia]. }
  split.
  { eapply StronglySorted_map; [|exact Hsorted].
    intros x y Hxy. unfold apart in *. cbn [fst snd]. by apply seconds_lt. }
  intros k Hk Hlt. specialize (Hcov k Hk). cbn [Z.add] in Hcov.
  rewrite (Hcov Hlt). split.
  - intros (z & Hz & Hz1 & Hz2).
    exists (seconds sampleRate (fst z), seconds sampleRate (snd z)).
    split; [apply list_elem_of_In, in_map_iff; exists z; split;
              [reflexivity | by apply list_elem_of_In]|].
    cbn [fst snd]. split; [by apply seconds_le | by apply seconds_lt].
  - intros (r & Hr & Hr1 & Hr2).
    apply list_elem_of_In, in_map_iff in Hr as (z & <- & Hz).
    apply list_elem_of_In in Hz. cbn [fst snd] in *.
    exists z. split; [exact Hz|]. split.
    + by apply (seconds_le sampleRate).
    + by apply (seconds_lt sampleRate).
Qed.

(** The theorem at work: 20 ms at 48 kHz, one window of full-scale
    alternating samples and one of silence. *)
Lemma findSpeechRegions_are_speech_runs_witness :
  StronglySorted (apart Qlt) (findSpeechRegions sqrtApprox isolatedBurst 48000).
Proof.
  pose proof (findSpeechRegions_are_speech_runs sqrtApprox isolatedBurst 48000
                ltac:(reflexivity)) as (_ & H & _).
  exact H.
Defined.

Section BoundaryFacts.
Variable sqrtf : Q -> Q.

(** What [findBestBoundary] computes. *)
Lemma findBestBoundary_spec (audio : list Q) (centerSample searchRadius sampleRate : Z)
    (findStart : bool) :
  let lo := Z.max 0 (centerSample - (if findStart then searchRadius else 0)) in
  let hi := Z.min (asize audio) (centerSample + (if findStart then 0 else searchRadius)) in
  let looked i :=
    (exists k, 0 <= k /\ i = lo + k * 120) /\ i < hi
    /\ boundaryCandidate sqrtf audio i = true in
  let score := boundaryScore sqrtf audio findStart in
  exists s,
    findBestBoundary sqrtf audio centerSample searchRadius sampleRate findStart
    = seconds sampleRate s
    /\ ((s = centerSample /\ forall i, looked i -> (score i <= -1)%Q)
        \/ (looked s /\ (-1 < score s)%Q
            /\ forall i, looked i ->
                 (score i <= score s)%Q /\ (i < s -> (score i < score s)%Q))).
Proof.
  intros lo hi looked score. unfold findBestBoundary. fold lo hi.
  change (Z.quot WINDOW_SIZE 4) with 120.
  match goal with
  | |- context [for_loop_step lo hi 120 ?b _] => set (body := b)
  end.
  assert (Hbody : forall i bs s,
            body i (bs, s)
            = if boundaryCandidate sqrtf audio i && Qltb bs (score i)
              then (score i, i) else (bs, s)).
  { intros i bs s. unfold body, boundaryCandidate, score, boundaryScore. cbv zeta.
    destruct ((i <? WINDOW_SIZE) || (i + WINDOW_SIZE >=? asize audio)); [reflexivity|].
    cbn [negb andb].
    destruct (Qltb ENERGY_THRESHOLD _); [|by rewrite andb_false_r].
    rewrite andb_true_r. cbn [andb]. reflexivity. }
  destruct (for_loop_step_ind
    (fun (k : Z) '((bs, s) : Q * Z) =>
       (forall j, 0 <= j < k -> boundaryCandidate sqrtf audio (lo + j * 120) = true ->
          (score (lo + j * 120)%Z <= bs)%Q)
       /\ ((bs = (-1)%Q /\ s = centerSample)
           \/ exists j0, 0 <= j0 < k /\ s = lo + j0 * 120
                /\ boundaryCandidate sqrtf audio s = true
                /\ bs = score s /\ (-1 < bs)%Q
                /\ forall j, 0 <= j < j0 ->
                     boundaryCandidate sqrtf audio (lo + j * 120) = true ->
                     (score (lo + j * 120)%Z < bs)%Q))
    lo hi 120 body ((-1)%Q, centerSample)) as (n & Hn & Hcount & Hfinal).
  - reflexivity.
  - split; [intros j Hj; lia | by left].
  - intros k [bs s] Hk Hlt [Hall Hbest]. rewrite Hbody.
    assert (Hbs : (-1 <= bs)%Q).
    { destruct Hbest as [[-> _]|(_ & _ & _ & _ & _ & H & _)]; lra. }
    destruct (boundaryCandidate sqrtf audio (lo + k * 120)) eqn:Hcand; cbn [andb].
    + destruct (Qltb bs (score (lo + k * 120))) eqn:Hcmp.
      * apply Qltb_lt in Hcmp. split.
        -- intros j Hj Hc. destruct (Z.eq_dec j k) as [->|Hne]; [lra|].
           specialize (Hall j ltac:(lia) Hc). lra.
        -- right. exists k. split; [lia|]. split; [reflexivity|]. split; [exact Hcand|].
           split; [reflexivity|]. split; [lra|].
           intros j Hj Hc. specialize (Hall j ltac:(lia) Hc). lra.
      * apply Qltb_ge in Hcmp. split.
        -- intros j Hj Hc. destruct (Z.eq_dec j k) as [->|Hne]; [exact Hcmp|].
           apply Hall; [lia | exact Hc].
        -- destruct Hbest as [H|(j0 & Hj0 & H)]; [by left|].
           right. exists j0. split; [lia | exact H].
    + split.
      * intros j Hj Hc. destruct (Z.eq_dec j k) as [->|Hne]; [congruence|].
        apply Hall; [lia | exact Hc].
      * destruct Hbest as [H|(j0 & Hj0 & H)]; [by left|].
        right. exists j0. split; [lia | exact H].
  - destruct (for_loop_step lo hi 120 body ((-1)%Q, centerSample)) as [bs s].
    destruct Hfinal as [Hall Hbest].
    exists s. split; [reflexivity|].
    assert (Hall' : forall i, looked i -> (score i <= bs)%Q).
    { intros i ((k & Hk & ->) & Hlt & Hc). apply Hall; [|exact Hc].
      split; [lia|]. apply Hcount; [lia | exact Hlt]. }
    destruct Hbest as [[-> ->]|(j0 & Hj0 & Hs & Hc & Hbs & Hpos & Hfirst)].
    + left. split; [reflexivity | exact Hall'].
    + right. split.
      { split; [exists j0; split; [lia | exact Hs]|]. split; [|exact Hc].
        rewrite Hs. apply Hcount; lia. }
      rewrite <- Hbs. split; [exact Hpos|].
      intros i Hi. split; [by apply Hall'|].
      destruct Hi as ((k & Hk & ->) & Hlt & Hc'). intros Hlts.
      apply Hfirst; [lia | exact Hc'].
Qed.

(** X18: [findBestBoundary] looks at the samples of its search range in
    steps of 120 that have a full window on either side and an energy
    gradient above the threshold.  It returns, in seconds, the first of
    them with the highest score, if that score is above -1; when no such
    sample scores above -1 it returns the centre sample. *)
Theorem findBestBoundary_steepest (audio : list Q)
    (centerSample searchRadius sampleRate : Z) (findStart : bool) :
  let lo := Z.max 0 (centerSample - (if findStart then searchRadius else 0)) in
  let hi := Z.min (asize audio) (centerSample + (if findStart then 0 else searchRadius)) in
  let looked i :=
    (exists k, 0 <= k /\ i = lo + k * 120) /\ i < hi
    /\ boundaryCandidate sqrtf audio i = true in
  let score := boundaryScore sqrtf audio findStart in
  exists s,
    findBestBoundary sqrtf audio centerSample searchRadius sampleRate findStart
    = seconds sampleRate s
    /\ ((s = centerSample /\ forall i, looked i -> (score i <= -1)%Q)
        \/ (looked s /\ (-1 < score s)%Q
            /\ forall i, looked i ->
                 (score i <= score s)%Q /\ (i < s -> (score i < score s)%Q))).
Proof. apply findBestBoundary_spec. Qed.




End BoundaryFacts.

(** X20: the region [searchForSpeech] refines is the first of the regions
    found that is nearest to the centre of the estimate, regions before the
    centre counting for 80% of their distance (the fallback region is kept
    only if no distance is below [INT_MAX]). *)
Theorem closestRegion_nearest (regions : list (Z * Z)) (whisperCenter : Z)
    (first : Z * Z) :
  let best := closestRegion regions whisperCenter first in
  (best = first /\ forall r, r ∈ regions -> INT_MAX <= regionDistance whisperCenter r)
  \/ (exists i, regions !! i = Some best
        /\ regionDistance whisperCenter best < INT_MAX
        /\ (forall r, r ∈ regions ->
              regionDistance whisperCenter best <= regionDistance whisperCenter r)
        /\ forall j r, (j < i)%nat -> regions !! j = Some r ->
              regionDistance whisperCenter best < regionDistance whisperCenter r).
Proof.
  cbv zeta. unfold closestRegion.
  set (step := fun '(closestDist, bestRegion) region => _).
  destruct (fold_left step regions (INT_MAX, first)) as [cd br] eqn:Hfold. cbn [snd].
  assert (Hcd : (cd = INT_MAX /\ br = first
                 /\ forall r, r ∈ regions -> INT_MAX <= regionDistance whisperCenter r)
                \/ (cd = regionDistance whisperCenter br /\ cd < INT_MAX
                    /\ exists i, regions !! i = Some br
                         /\ (forall r, r ∈ regions -> cd <= regionDistance whisperCenter r)
                         /\ forall j r, (j < i)%nat -> regions !! j = Some r ->
                              cd < regionDistance whisperCenter r)).
  { revert cd br Hfold.
    induction regions as [|y l IHl] using rev_ind; intros cd br Hfold.
    - cbn in Hfold. injection Hfold as <- <-. left.
      split; [reflexivity|]. split; [reflexivity|]. intros r Hr. by apply elem_of_nil in Hr.
    - rewrite fold_left_app in Hfold. cbn [fold_left] in Hfold.
      destruct (fold_left step l (INT_MAX, first)) as [cd0 br0] eqn:Hfold0.
      specialize (IHl cd0 br0 eq_refl).
      change (step (cd0, br0) y)
        with (if regionDistance whisperCenter y <? cd0
              then (regionDistance whisperCenter y, y) else (cd0, br0)) in Hfold.
      destruct (Z.ltb_spec (regionDistance whisperCenter y) cd0) as [Hlt|Hge];
        injection Hfold as <- <-.
      + right. split; [reflexivity|].
        assert (Hall : forall r, r ∈ l -> cd0 <= regionDistance whisperCenter r).
        { destruct IHl as [(-> & _ & Hall)|(_ & _ & _ & _ & Hall & _)]; exact Hall. }
        assert (Hmax : cd0 <= INT_MAX) by (destruct IHl as [(-> & _)|(_ & ? & _)]; lia).
        split; [lia|]. exists (length l).
        split; [by rewrite lookup_app_r, Nat.sub_diag by lia|]. split.
        * intros r Hr. apply elem_of_app in Hr as [Hr|Hr].
          -- specialize (Hall r Hr). lia.
          -- apply list_elem_of_singleton in Hr as ->. lia.
        * intros j r Hj Hr. rewrite lookup_app_l in Hr by exact Hj.
          apply list_elem_of_lookup_2 in Hr. specialize (Hall r Hr). lia.
      + destruct IHl as [(-> & -> & Hall)|(Hd & Hmax & i & Hi & Hall & Hfirst)].
        * left. split; [reflexivity|]. split; [reflexivity|].
          intros r Hr. apply elem_of_app in Hr as [Hr|Hr]; [by apply Hall|].
          apply list_elem_of_singleton in Hr as ->. exact Hge.
        * right. split; [exact Hd|]. split; [exact Hmax|]. exists i.
          split; [rewrite lookup_app_l; [exact Hi | by eapply lookup_lt_Some]|]. split.
          -- intros r Hr. apply elem_of_app in Hr as [Hr|Hr]; [by apply Hall|].
             apply list_elem_of_singleton in Hr as ->. exact Hge.
          -- intros j r Hj Hr. apply (Hfirst j r Hj).
             rewrite lookup_app_l in Hr; [exact Hr|].
             apply lookup_lt_Some in Hi. lia. }
  destruct Hcd as [(_ & -> & Hall)|(Hd & Hmax & i & Hi & Hall & Hfirst)].
  - left. by split.
  - right. exists i. rewrite <- Hd. by repeat split.
Qed.

Lemma vget_nonneg audio i :
  (forall x, x ∈ audio -> (0 <= x)%Q) -> (0 <= vget 0%Q audio i)%Q.
Proof.
  intros Hall. unfold vget. destruct (i <? 0); [lra|].
  destruct (audio !! Z.to_nat i) as [x|] eqn:Hx; cbn; [|lra].
  apply Hall. by eapply list_elem_of_lookup_2.
Qed.

Lemma no_sign_change_no_crossing audio start len :
  (forall x, x ∈ audio -> (0 <= x)%Q) ->
  Qltb ZC_THRESHOLD (calculateZeroCrossing audio start len) = false.
Proof.
  intros Hall. unfold calculateZeroCrossing.
  destruct (_ || _); [reflexivity|]. cbv zeta.
  match goal with
  | |- context [for_loop ?lo ?hi ?body 0] =>
      assert (Hzero : for_loop lo hi body 0 = 0)
  end.
  { unfold for_loop. generalize (seqZ (start + 1) (start + len - (start + 1))).
    intros l. induction l as [|i l IH] using rev_ind; [reflexivity|].
    rewrite foldl_app. cbn [foldl]. rewrite IH.
    assert (H1 : Qltb (vget 0%Q audio (i - 1)) 0 = false)
      by (apply Qltb_ge, vget_nonneg, Hall).
    assert (H2 : Qltb (vget 0%Q audio i) 0 = false)
      by (apply Qltb_ge, vget_nonneg, Hall).
    rewrite H1, H2. by rewrite andb_false_r. }
  rewrite Hzero. apply Qltb_ge. unfold ZC_THRESHOLD, Qdiv, Qmult, Qle. cbn.
  destruct (Qinv (inject_Z len)) as [n d]. cbn. lia.
Qed.

(** X21: audio without a negative sample, digital silence for one, has no
    zero crossing and therefore no speech window: [findSpeechRegions] finds
    no region, [searchForSpeech] returns every estimate unchanged and
    [refineWordTimestamp] returns the word as it was. *)
Theorem no_sign_change_no_refinement (sqrtf : Q -> Q) (audio : list Q) (sampleRate : Z) :
  (forall x, x ∈ audio -> (0 <= x)%Q) ->
  findSpeechRegions sqrtf audio sampleRate = []
  /\ (forall whisperStart whisperEnd,
        searchForSpeech sqrtf audio whisperStart whisperEnd sampleRate
        = (whisperStart, whisperEnd))
  /\ forall w, refineWordTimestamp sqrtf w audio sampleRate = w.
Proof.
  intros Hall.
  assert (Hnone : forall lo hi, energyRegions sqrtf audio lo hi = []).
  { intros lo hi.
    destruct (energyRegions_spec sqrtf audio lo hi) as (Hreg & _ & Hcov).
    destruct (energyRegions sqrtf audio lo hi) as [|r regions]; [reflexivity|].
    exfalso. destruct (Hreg r ltac:(by left)) as ((k & Hk & Hr) & Hr1 & Hr2).
    assert (Hsp : isSpeechWindow sqrtf audio (lo + k * WINDOW_SIZE) = true).
    { apply Hcov; [exact Hk | lia|]. exists r. split; [by left | lia]. }
    unfold isSpeechWindow in Hsp. rewrite no_sign_change_no_crossing in Hsp by exact Hall.
    by rewrite andb_false_r in Hsp. }
  assert (Hsearch : forall whisperStart whisperEnd,
            searchForSpeech sqrtf audio whisperStart whisperEnd sampleRate
            = (whisperStart, whisperEnd)).
  { intros whisperStart whisperEnd. unfold searchForSpeech. by rewrite Hnone. }
  split; [by rewrite findSpeechRegions_energyRegions, Hnone|].
  split; [exact Hsearch|].
  intros w. unfold refineWordTimestamp. rewrite Hsearch. by destruct w.
Qed.

(** The theorem at work on 20 ms of digital silence. *)
Lemma no_sign_change_no_refinement_witness :
  findSpeechRegions sqrtApprox (replicate 960 0%Q) 48000 = [].
Proof.
  apply (no_sign_change_no_refinement sqrtApprox (replicate 960 0%Q) 48000).
  intros x Hx. apply elem_of_replicate in Hx as [-> _]. discriminate.
Defined.

End SpeechRegionsFacts.

Module ReverseFacts.
Import CensorshipEngine LoopFacts CensorshipEngineFacts.

(** The swap loop of [reverseSamples] on one channel mirrors the interval
    and leaves the rest alone. *)
Lemma swap_loop_mirrors (data : list Q) (s e n : Z) :
  0 <= s -> e <= n -> n = Z.of_nat (length data) -> s < e ->
  let out :=
    for_loop 0 (Z.quot (e - s) 2) (fun i data =>
      let left_idx := s + i in
      let right_idx := e - 1 - i in
      if (left_idx >=? 0) && (right_idx <? n) && (left_idx <? n) && (right_idx >=? 0)
      then vset (vset data left_idx (vget 0%Q data right_idx))
                right_idx (vget 0%Q data left_idx)
      else data) data in
  length out = length data
  /\ forall j, vget 0%Q out j
               = if (s <=? j) && (j <? e) then vget 0%Q data (s + e - 1 - j)
                 else vget 0%Q data j.
Proof.
  intros Hs He Hn Hse out. subst out.
  rewrite Z.quot_div_nonneg by lia.
  set (h := (e - s) / 2).
  assert (Hh : 0 <= h /\ 2 * h <= e - s < 2 * h + 2).
  { subst h. pose proof (Z.div_mod (e - s) 2 ltac:(lia)).
    pose proof (Z.mod_pos_bound (e - s) 2 ltac:(lia)). lia. }
  assert (Hinv :
    length (for_loop 0 h (fun i data =>
      let left_idx := s + i in
      let right_idx := e - 1 - i in
      if (left_idx >=? 0) && (right_idx <? n) && (left_idx <? n) && (right_idx >=? 0)
      then vset (vset data left_idx (vget 0%Q data right_idx))
                right_idx (vget 0%Q data left_idx)
      else data) data) = length data
    /\ forall j, vget 0%Q (for_loop 0 h (fun i data =>
      let left_idx := s + i in
      let right_idx := e - 1 - i in
      if (left_idx >=? 0) && (right_idx <? n) && (left_idx <? n) && (right_idx >=? 0)
      then vset (vset data left_idx (vget 0%Q data right_idx))
                right_idx (vget 0%Q data left_idx)
      else data) data) j
        = if ((s <=? j) && (j <? s + h)) || ((e - h <=? j) && (j <? e))
          then vget 0%Q data (s + e - 1 - j) else vget 0%Q data j).
  { apply (for_loop_ind (fun i d =>
      length d = length data /\
      forall j, vget 0%Q d j
        = if ((s <=? j) && (j <? s + i)) || ((e - i <=? j) && (j <? e))
          then vget 0%Q data (s + e - 1 - j) else vget 0%Q data j)); [lia| |].
    - split; [reflexivity|]. intros j.
      destruct (Z.leb_spec s j), (Z.ltb_spec j (s + 0)), (Z.leb_spec (e - 0) j),
        (Z.ltb_spec j e); cbn [andb orb]; try reflexivity; lia.
    - intros i acc Hi [Hlen Hacc]. cbv zeta.
      destruct (Z.geb_spec (s + i) 0); [|lia].
      destruct (Z.ltb_spec (e - 1 - i) n); [|lia].
      destruct (Z.ltb_spec (s + i) n); [|lia].
      destruct (Z.geb_spec (e - 1 - i) 0); [|lia]. cbn [andb].
      split; [by rewrite !length_vset|]. intros j.
      rewrite vget_vset by (rewrite length_vset, Hlen; lia).
      destruct (Z.eqb_spec (e - 1 - i) j) as [<-|Hne1].
      + rewrite Hacc.
        destruct (Z.leb_spec s (s + i)), (Z.ltb_spec (s + i) (s + i)),
          (Z.leb_spec (e - i) (s + i)), (Z.ltb_spec (s + i) e); cbn [andb orb]; try lia.
        all: destruct (Z.leb_spec s (e - 1 - i)), (Z.ltb_spec (e - 1 - i) (s + (i + 1))),
          (Z.leb_spec (e - (i + 1)) (e - 1 - i)), (Z.ltb_spec (e - 1 - i) e);
          cbn [andb orb]; try lia; f_equal; lia.
      + rewrite vget_vset by (rewrite Hlen; lia).
        destruct (Z.eqb_spec (s + i) j) as [<-|Hne2].
        * rewrite Hacc.
          destruct (Z.leb_spec s (e - 1 - i)), (Z.ltb_spec (e - 1 - i) (s + i)),
            (Z.leb_spec (e - i) (e - 1 - i)), (Z.ltb_spec (e - 1 - i) e);
            cbn [andb orb]; try lia.
          all: destruct (Z.leb_spec s (s + i)), (Z.ltb_spec (s + i) (s + (i + 1))),
            (Z.leb_spec (e - (i + 1)) (s + i)), (Z.ltb_spec (s + i) e);
            cbn [andb orb]; try lia; f_equal; lia.
        * rewrite Hacc.
          destruct (Z.leb_spec s j), (Z.ltb_spec j (s + i)), (Z.ltb_spec j (s + (i + 1))),
            (Z.leb_spec (e - i) j), (Z.leb_spec (e - (i + 1)) j), (Z.ltb_spec j e);
            cbn [andb orb]; try reflexivity; lia. }
  destruct Hinv as [Hlen Hv]. split; [exact Hlen|]. intros j. rewrite Hv.
  destruct (Z.leb_spec s j), (Z.ltb_spec j (s + h)), (Z.leb_spec (e - h) j),
    (Z.ltb_spec j e); cbn [andb orb]; try reflexivity; try lia.
  f_equal. lia.
Qed.

(** What [reverseSamples] leaves in every cell of a channel, for an
    interval inside the buffer that is at least two fade windows long. *)
Lemma reverseSamples_cells b s e sr ch c :
  channels b !! ch = Some c ->
  Z.of_nat (length c) = numSamples b ->
  let F := calculateFadeSamples sr in
  0 <= s -> e <= numSamples b -> s < e -> 0 <= F -> 2 * F <= e - s ->
  forall j,
    sampleAt (reverseSamples b s e sr) ch j =
      if (s <=? j) && (j <? s + F)
      then (vget 0%Q c (s + e - 1 - j) * fadeInGain (j - s) F)%Q
      else if (e - F <=? j) && (j <? e)
      then (vget 0%Q c (s + e - 1 - j) * fadeOutGain (j - (e - F)) F)%Q
      else if (s <=? j) && (j <? e) then vget 0%Q c (s + e - 1 - j)
      else vget 0%Q c j.
Proof.
  intros Hc Hlen F Hs He Hse HF H2F j.
  unfold reverseSamples. fold F.
  destruct (Z.leb_spec (e - s) 0) as [|_]; [lia|]. cbv zeta.
  set (n := numSamples b) in *.
  set (guard := fun idx => (0 <=? idx) && (idx <? n)).
  assert (Hguard : forall d : list Q, length d = length c ->
            forall idx, guard idx = true -> 0 <= idx < Z.of_nat (length d)).
  { intros d Hd idx. unfold guard. rewrite Hd. lia. }
  (* stage 1: the swaps *)
  destruct (swap_loop_mirrors c s e n Hs He (eq_sym Hlen) Hse) as [Hl1 Hv1].
  cbv zeta in Hl1, Hv1.
  match type of Hl1 with
  | length (for_loop 0 ?h ?body c) = _ =>
      set (f1 := fun channel_data : list Q => for_loop 0 h body channel_data) in *;
      change (for_loop 0 h body c) with (f1 c) in Hl1, Hv1
  end.
  assert (Hc1 : channels (each_channel f1 b) !! ch = Some (f1 c))
    by (apply (channels_each_channel f1); exact Hc).
  change (each_channel _ b) with (each_channel f1 b) at 1.
  set (b1 := each_channel f1 b) in *.
  (* stage 2: fade in *)
  destruct (for_loop_pointwise (fun i x => (x * fadeInGain i F)%Q) guard s F (f1 c)
              (Hguard (f1 c) Hl1)) as [Hl2 Hv2].
  cbv zeta in Hl2, Hv2.
  match type of Hl2 with
  | length (for_loop 0 F ?body (f1 c)) = _ =>
      set (f2 := fun channel_data : list Q => for_loop 0 F body channel_data) in *;
      change (for_loop 0 F body (f1 c)) with (f2 (f1 c)) in Hl2, Hv2
  end.
  assert (Hc2 : channels (applyFadeIn b1 s F) !! ch = Some (f2 (f1 c)))
    by (apply (channels_each_channel f2); exact Hc1).
  (* stage 3: fade out *)
  unfold applyFadeOut. erewrite sampleAt_each_channel by exact Hc2.
  change (numSamples (applyFadeIn b1 s F)) with n.
  destruct (for_loop_pointwise (fun i x => (x * fadeOutGain i F)%Q) guard (e - F) F
              (f2 (f1 c)) (Hguard (f2 (f1 c)) ltac:(congruence))) as [_ Hv3].
  cbv zeta in Hv3. rewrite Hv3. rewrite Hv2, Hv1. unfold guard.
  replace (e - F + F) with e by lia.
  destruct (Z.leb_spec s j), (Z.ltb_spec j (s + F)), (Z.leb_spec (e - F) j),
    (Z.ltb_spec j e), (Z.leb_spec 0 j), (Z.ltb_spec j n);
    cbn [andb]; try reflexivity; lia.
Qed.

(** X22: for an interval [s, e) that lies inside the buffer and is at
    least two fade windows long (F samples each),
    [CensorshipEngine::reverseSamples] plays the interval backwards: sample
    j of the interval becomes the original sample s + e - 1 - j, multiplied
    by the fade-in gain (j - s)/F over the first F samples and by the
    fade-out gain 1 - (j - (e - F))/F over the last F samples; samples
    outside the interval are unchanged.  With an empty interval the buffer
    comes back as it was. *)
Theorem reverseSamples_plays_backwards b s e sr ch c :
  channels b !! ch = Some c ->
  Z.of_nat (length c) = numSamples b ->
  let F := calculateFadeSamples sr in
  let x := vget 0%Q c in
  let y := sampleAt (reverseSamples b s e sr) ch in
  0 <= s -> e <= numSamples b -> s < e -> 0 <= F -> 2 * F <= e - s ->
  (forall j, s <= j < s + F -> y j = (x (s + e - 1 - j)%Z * fadeInGain (j - s) F)%Q)
  /\ (forall j, s + F <= j < e - F -> y j = x (s + e - 1 - j))
  /\ (forall j, e - F <= j < e ->
        y j = (x (s + e - 1 - j)%Z * fadeOutGain (j - (e - F)) F)%Q)
  /\ (forall j, j < s \/ e <= j -> y j = x j)
  /\ (forall s' e', e' <= s' -> reverseSamples b s' e' sr = b).
Proof.
  intros Hc Hlen F x y Hs He Hse HF H2F.
  pose proof (reverseSamples_cells b s e sr ch c Hc Hlen Hs He Hse HF H2F) as Hy.
  fold F in Hy. fold y in Hy. fold x in Hy.
  repeat split.
  - intros j Hj. rewrite Hy.
    destruct (Z.leb_spec s j), (Z.ltb_spec j (s + F)); cbn [andb]; try lia. reflexivity.
  - intros j Hj. rewrite Hy.
    destruct (Z.leb_spec s j), (Z.ltb_spec j (s + F)), (Z.leb_spec (e - F) j),
      (Z.ltb_spec j e); cbn [andb]; try lia; reflexivity.
  - intros j Hj. rewrite Hy.
    destruct (Z.leb_spec s j), (Z.ltb_spec j (s + F)), (Z.leb_spec (e - F) j),
      (Z.ltb_spec j e); cbn [andb]; try lia; reflexivity.
  - intros j Hj. rewrite Hy.
    destruct (Z.leb_spec s j), (Z.ltb_spec j (s + F)), (Z.leb_spec (e - F) j),
      (Z.ltb_spec j e); cbn [andb]; try lia; reflexivity.
  - intros s' e' Hempty. unfold reverseSamples.
    destruct (Z.leb_spec (e' - s') 0); [reflexivity | lia].
Qed.

(** The theorem at work: 24 samples 0, 1, ..., 23 reversed over [0, 24) at
    1600 Hz (fade window of 8 samples). *)
Lemma reverseSamples_plays_backwards_witness :
  let c := map inject_Z (seqZ 0 24) in
  let y := sampleAt (reverseSamples (mkBuffer 24 [c]) 0 24 1600) 0 in
  y 10 = (13 # 1)%Q.
Proof.
  pose proof (reverseSamples_plays_backwards (mkBuffer 24 [map inject_Z (seqZ 0 24)])
                0 24 1600 0%nat (map inject_Z (seqZ 0 24)) eq_refl eq_refl
                ltac:(lia) ltac:(cbn; lia) ltac:(lia)
                ltac:(by_compute) ltac:(by_compute))
    as (_ & Hmid & _).
  cbv zeta. etransitivity; [apply (Hmid 10); by_compute | by_compute].
Defined.

End ReverseFacts.

Module WorkerRewritesFacts.
Import LyricsAlignment AudioEngine WorkerRewrites LoopFacts AudioEngineFacts.

Lemma kept_set_lyricsAlignment v e : keptByWorker (set_lyricsAlignment v e) = keptByWorker e.
Proof. by destruct e. Qed.
Lemma kept_set_songElapsedTime v e : keptByWorker (set_songElapsedTime v e) = keptByWorker e.
Proof. by destruct e. Qed.






















End WorkerRewritesFacts.

Module HandoffFacts.
Import LyricsAlignment AudioEngine LoopFacts AudioEngineFacts.

Lemma callback_transcriptionInterval input outs n e :
  transcriptionInterval (snd (audioDeviceIOCallbackWithContext input outs n e))
  = transcriptionInterval (handoff n (accumulate input n e)).
Proof.
  unfold audioDeviceIOCallbackWithContext. cbv zeta.
  pose proof (delayLoop_view transcriptionInterval
                ltac:(intros v e0; by destruct e0) ltac:(intros v e0; by destruct e0)
                ltac:(intros v e0; by destruct e0) ltac:(intros v e0; by destruct e0)
                ltac:(intros v e0; by destruct e0) input outs n
                (monitorBufferHealth (handoff n (accumulate input n e)))) as Hloop.
  destruct (delayLoop _ _ _ _) as [frames e1]. cbn [snd] in *.
  transitivity (transcriptionInterval e1); [by destruct e1|].
  rewrite Hloop. unfold monitorBufferHealth. cbv zeta.
  repeat match goal with
         | |- context [if ?c then _ else _] => destruct c
         end; by destruct e.
Qed.

Lemma vget_take_drop (a p : list Q) (k : nat) j :
  (k <= length a)%nat ->
  vget 0%Q (take k a ++ drop k p) j
  = if (0 <=? j) && (j <? Z.of_nat k) then vget 0%Q a j else vget 0%Q p j.
Proof.
  intros Hk. unfold vget. destruct (Z.ltb_spec j 0) as [Hneg|Hpos].
  { destruct (Z.leb_spec 0 j); [lia | reflexivity]. }
  destruct (Z.leb_spec 0 j); [|lia]. cbn [andb].
  destruct (Z.ltb_spec j (Z.of_nat k)) as [Hlt|Hge].
  - rewrite lookup_app_l by (rewrite length_take; lia).
    rewrite lookup_take_lt by lia. reflexivity.
  - rewrite lookup_app_r by (rewrite length_take; lia).
    rewrite length_take, lookup_drop. do 2 f_equal. lia.
Qed.

(** The handoff stage when the worker is idle. *)
Lemma handoff_idle n e :
  hasNewBuffer e = false ->
  let due := Qle_bool (inject_Z (sampleRate e) * chunkSeconds e)
                      (inject_Z (transcriptionInterval e + n)) in
  let k := Z.to_nat (Z.min (bufferWritePos e) (chunkSamples e)) in
  chunkState (handoff n e)
  = (if due
     then (audioBuffer e, 0, take k (audioBuffer e) ++ drop k (processingBuffer e),
           true, inject_Z (delayWritePos e))
     else chunkState e)
  /\ transcriptionInterval (handoff n e) = if due then 0 else transcriptionInterval e + n.
Proof.
  intros Hidle. cbv zeta. unfold handoff. cbv zeta.
  replace (hasNewBuffer (set_transcriptionInterval (transcriptionInterval e + n) e))
    with false by (rewrite <- Hidle; by destruct e).
  replace (sampleRate (set_transcriptionInterval (transcriptionInterval e + n) e))
    with (sampleRate e) by (by destruct e).
  replace (chunkSeconds (set_transcriptionInterval (transcriptionInterval e + n) e))
    with (chunkSeconds e) by (by destruct e).
  replace (transcriptionInterval (set_transcriptionInterval (transcriptionInterval e + n) e))
    with (transcriptionInterval e + n) by (by destruct e).
  destruct (Qle_bool _ _); cbn [andb negb].
  - destruct (wasWaiting _); by destruct e.
  - by destruct e.
Qed.

(** X25: a callback that finds the worker idle hands a chunk over exactly
    when the samples counted since the last handoff, the new block
    included, reach sampleRate * chunkSeconds.  It then copies the
    accumulated samples, the downmixed new block included and at most one
    chunk of them, to the front of the processing buffer, raises the
    chunk-in-flight flag, restarts the accumulator and the count at 0, and
    records as capture position the delay write position at which the
    callback started, which is n cells before the write position it
    leaves.  Otherwise it only accumulates and counts. *)
Theorem callback_hands_chunk_over input outs n e in0 m :
  channelData input 0 = Some in0 ->
  hasNewBuffer e = false ->
  0 <= n ->
  0 <= bufferWritePos e <= Z.of_nat (length (audioBuffer e)) ->
  wellFormed e -> inPhase m e -> 0 <= m ->
  let w := bufferWritePos e in
  let cap := Z.of_nat (length (audioBuffer e)) in
  let due := Qle_bool (inject_Z (sampleRate e) * chunkSeconds e)
                      (inject_Z (transcriptionInterval e + n)) in
  let taken := Z.min (Z.min (w + n) cap) (chunkSamples e) in
  let e' := snd (audioDeviceIOCallbackWithContext input outs n e) in
  hasNewBuffer e' = due
  /\ bufferWritePos e' = (if due then 0 else Z.min (w + n) cap)
  /\ transcriptionInterval e' = (if due then 0 else transcriptionInterval e + n)
  /\ (forall j, vget 0%Q (processingBuffer e') j
                = if due && (0 <=? j) && (j <? taken)
                  then (if w <=? j then downmix input (j - w)
                        else vget 0%Q (audioBuffer e) j)
                  else vget 0%Q (processingBuffer e) j)
  /\ (due = true ->
        bufferCaptureTime e' = inject_Z (m mod delayBufferSize e)
        /\ delayWritePos e' = (m + n) mod delayBufferSize e)
  /\ (due = false -> bufferCaptureTime e' = bufferCaptureTime e).
Proof.
  intros Hin Hidle Hn Hw Hwf Hph Hm w cap due taken e'.
  destruct (accumulate_spec input in0 n e Hin Hn Hw) as (Hacc & Hpos & Hlen & Hcells).
  set (e1 := accumulate input n e) in *.
  assert (Hfields : hasNewBuffer e1 = false /\ processingBuffer e1 = processingBuffer e
                    /\ sampleRate e1 = sampleRate e /\ chunkSeconds e1 = chunkSeconds e
                    /\ transcriptionInterval e1 = transcriptionInterval e
                    /\ delayWritePos e1 = delayWritePos e
                    /\ bufferCaptureTime e1 = bufferCaptureTime e).
  { rewrite Hacc, <- Hidle. by destruct e. }
  destruct Hfields as (Hidle1 & Hproc & Hsr & Hcs & Hti & Hdw & Hct).
  pose proof (callback_chunkState input outs n e) as Hcb. fold e' e1 in Hcb.
  pose proof (callback_transcriptionInterval input outs n e) as Hcti. fold e' e1 in Hcti.
  destruct (handoff_idle n e1 Hidle1) as [Hh Hhti]. cbv zeta in Hh, Hhti.
  rewrite Hsr, Hcs, Hti in Hh, Hhti. fold due in Hh, Hhti.
  assert (Hchunk : chunkSamples e1 = chunkSamples e)
    by (unfold chunkSamples; by rewrite Hsr, Hcs).
  rewrite Hchunk, Hpos, Hproc, Hdw in Hh. fold w cap in Hh.
  rewrite Hh in Hcb. rewrite Hhti in Hcti.
  destruct (callback_invariants input outs n m e Hwf Hph Hm Hn) as (_ & Hph' & Hcfg).
  cbv zeta in Hph', Hcfg. fold e' in Hph', Hcfg.
  destruct (config_fields _ _ Hcfg) as [HN _].
  destruct Hph' as (Hw' & _). rewrite HN in Hw'.
  destruct Hph as (Hwm & _).
  destruct due eqn:Hdue.
  - unfold chunkState in Hcb. injection Hcb as Ha Hb Hp Hf Hc.
    split; [exact Hf|]. split; [exact Hb|]. split; [exact Hcti|].
    split.
    { intros j. rewrite Hp. cbn [andb].
      rewrite vget_take_drop by (rewrite Hlen; unfold cap; lia).
      fold taken.
      replace ((0 <=? j) && (j <? Z.of_nat (Z.to_nat taken)))
        with ((0 <=? j) && (j <? taken))
        by (destruct (Z.leb_spec 0 j), (Z.ltb_spec j taken),
              (Z.ltb_spec j (Z.of_nat (Z.to_nat taken))); cbn [andb]; try reflexivity; lia).
      destruct ((0 <=? j) && (j <? taken)) eqn:Hj; [|reflexivity].
      rewrite Hcells. fold w cap.
      apply andb_true_iff in Hj as [Hj0 Hj1].
      apply Z.leb_le in Hj0. apply Z.ltb_lt in Hj1.
      destruct (Z.leb_spec w j); [|reflexivity].
      destruct (Z.ltb_spec j (Z.min (w + n) cap)); [reflexivity|].
      subst taken. lia. }
    split; [|discriminate].
    intros _. split; [by rewrite Hc, Hwm | exact Hw'].
  - unfold chunkState in Hcb. injection Hcb as Ha Hb Hp Hf Hc.
    split; [by rewrite Hf|]. split; [by rewrite Hb|]. split; [exact Hcti|].
    split; [intros j; by rewrite Hp, Hproc|].
    split; [discriminate|]. intros _. by rewrite Hc, Hct.
Qed.

(** The theorem at work: the first callback of an engine at 4 Hz with
    chunks of 1 s, a block of four samples. *)
Lemma callback_hands_chunk_over_witness :
  let e := start 4 1 3 Mute (ProfanityFilter.mk ∅) in
  let e' := snd (audioDeviceIOCallbackWithContext [Some [1; 2; 3; 4]%Q] [] 4 e) in
  hasNewBuffer e' = true /\ bufferWritePos e' = 0.
Proof.
  cbv zeta.
  pose proof (callback_hands_chunk_over [Some [1; 2; 3; 4]%Q] [] 4
                (start 4 1 3 Mute (ProfanityFilter.mk ∅)) [1; 2; 3; 4]%Q 0
                eq_refl eq_refl ltac:(lia) ltac:(by_compute)
                (proj1 (start_wellFormed 4 1 3 Mute (ProfanityFilter.mk ∅)
                          ltac:(lia) ltac:(discriminate)))
                (proj2 (start_wellFormed 4 1 3 Mute (ProfanityFilter.mk ∅)
                          ltac:(lia) ltac:(discriminate)))
                ltac:(lia))
    as (H1 & H2 & _).
  split; [exact H1 | exact H2].
Defined.

End HandoffFacts.

Module CircularAudioBufferFacts.
Import CensorshipEngine CircularAudioBuffer LoopFacts.

Lemma shaped_channel nc cap buf ch :
  shaped nc cap buf -> 0 <= ch < nc -> Z.of_nat (length (vget [] buf ch)) = cap.
Proof.
  intros [Hlen Hall] Hch. unfold vget. destruct (Z.ltb_spec ch 0); [lia|].
  destruct (buf !! Z.to_nat ch) as [c|] eqn:Hc.
  - cbn. rewrite Forall_lookup in Hall. by apply (Hall _ _ Hc).
  - apply lookup_ge_None in Hc. lia.
Qed.

Lemma store_shaped nc cap buf ch idx x :
  shaped nc cap buf -> shaped nc cap (store buf ch idx x).
Proof.
  intros [Hlen Hall]. unfold store. split; [by rewrite length_vset|].
  unfold vset at 1. destruct (ch <? 0) eqn:Hneg; [exact Hall|].
  destruct (buf !! Z.to_nat ch) as [c|] eqn:Hc.
  - apply Forall_insert; [exact Hall|].
    rewrite length_vset. unfold vget. rewrite Hneg, Hc. cbn.
    rewrite Forall_lookup in Hall. by apply (Hall _ _ Hc).
  - apply lookup_ge_None in Hc. by rewrite list_insert_ge.
Qed.

Lemma load_store nc cap buf ch idx x ch' p :
  shaped nc cap buf -> 0 <= ch < nc -> 0 <= idx < cap ->
  load (store buf ch idx x) ch' p
  = if (ch' =? ch) && (p =? idx) then x else load buf ch' p.
Proof.
  intros Hshape Hch Hidx. unfold load, store.
  pose proof (shaped_channel nc cap buf ch Hshape Hch) as Hc.
  destruct Hshape as [Hlen _].
  rewrite vget_vset by lia.
  destruct (Z.eqb_spec ch ch') as [<-|Hne].
  - rewrite Z.eqb_refl. cbn [andb]. rewrite vget_vset by lia.
    destruct (Z.eqb_spec idx p) as [<-|Hne]; [by rewrite Z.eqb_refl|].
    destruct (Z.eqb_spec p idx); [lia | reflexivity].
  - destruct (Z.eqb_spec ch' ch); [lia | reflexivity].
Qed.

(** The inner loop of [writeSamples]: cell [p] of channel [ch] takes
    sample number [(p - wp) mod cap] of the block if that is below [n]. *)
Lemma write_channel_spec nc cap buf ch (src : list Q) wp n :
  shaped nc cap buf -> 0 <= ch < nc -> 0 <= wp < cap -> 0 <= n <= cap ->
  let buf' := for_loop 0 n (fun i buf =>
                let idx := Z.rem (wp + i) cap in
                store buf ch idx (vget 0%Q src i)) buf in
  shaped nc cap buf'
  /\ forall ch' p, 0 <= p < cap ->
       load buf' ch' p
       = if (ch' =? ch) && ((p - wp) mod cap <? n)
         then vget 0%Q src ((p - wp) mod cap) else load buf ch' p.
Proof.
  intros Hshape Hch Hwp Hn. cbv zeta.
  apply (for_loop_ind (fun i acc =>
    shaped nc cap acc
    /\ forall ch' p, 0 <= p < cap ->
         load acc ch' p
         = if (ch' =? ch) && ((p - wp) mod cap <? i)
           then vget 0%Q src ((p - wp) mod cap) else load buf ch' p)); [lia| |].
  - split; [exact Hshape|]. intros ch' p Hp.
    pose proof (Z.mod_pos_bound (p - wp) cap ltac:(lia)).
    destruct (Z.ltb_spec ((p - wp) mod cap) 0); [lia|]. by rewrite andb_false_r.
  - intros i acc Hi [Hsh Hcells]. cbv zeta.
    split; [by apply store_shaped|]. intros ch' p Hp.
    rewrite Z.rem_mod_nonneg by lia.
    pose proof (Z.mod_pos_bound (wp + i) cap ltac:(lia)) as Hidx.
    rewrite (load_store nc cap) by assumption.
    rewrite Hcells by exact Hp.
    pose proof (Z.mod_pos_bound (p - wp) cap ltac:(lia)) as Hd.
    destruct (Z.eqb_spec ch' ch) as [->|Hne]; cbn [andb]; [|reflexivity].
    destruct (Z.eqb_spec p ((wp + i) mod cap)) as [->|Hp'].
    + assert (Hoff : ((wp + i) mod cap - wp) mod cap = i).
      { rewrite Zminus_mod_idemp_l. replace (wp + i - wp) with i by lia.
        apply Z.mod_small. lia. }
      rewrite Hoff. destruct (Z.ltb_spec i (i + 1)); [reflexivity | lia].
    + assert (Hoff : (p - wp) mod cap <> i).
      { intros Heq. apply Hp'. rewrite <- Heq. rewrite Zplus_mod_idemp_r.
        replace (wp + (p - wp)) with p by lia. symmetry. apply Z.mod_small. lia. }
      destruct (Z.ltb_spec ((p - wp) mod cap) i), (Z.ltb_spec ((p - wp) mod cap) (i + 1));
        try reflexivity; lia.
Qed.

(** Both loops of [writeSamples]. *)
Lemma write_block_spec nc cap buf (source : list (list Q)) wp n :
  shaped nc cap buf -> 0 <= nc -> 0 <= wp < cap -> 0 <= n <= cap ->
  let buf' := for_loop 0 nc (fun ch buf =>
                let src := vget [] source ch in
                for_loop 0 n (fun i buf =>
                  let idx := Z.rem (wp + i) cap in
                  store buf ch idx (vget 0%Q src i)) buf) buf in
  shaped nc cap buf'
  /\ forall ch p, 0 <= ch < nc -> 0 <= p < cap ->
       load buf' ch p
       = if (p - wp) mod cap <? n
         then vget 0%Q (vget [] source ch) ((p - wp) mod cap) else load buf ch p.
Proof.
  intros Hshape Hnc Hwp Hn. cbv zeta.
  assert (Hinv :
    let out := for_loop 0 nc (fun ch buf =>
                let src := vget [] source ch in
                for_loop 0 n (fun i buf =>
                  let idx := Z.rem (wp + i) cap in
                  store buf ch idx (vget 0%Q src i)) buf) buf in
    shaped nc cap out
    /\ forall ch p, 0 <= p < cap ->
         load out ch p
         = if (0 <=? ch) && (ch <? nc) && ((p - wp) mod cap <? n)
           then vget 0%Q (vget [] source ch) ((p - wp) mod cap) else load buf ch p).
  { cbv zeta.
    apply (for_loop_ind (fun c acc =>
      shaped nc cap acc
      /\ forall ch p, 0 <= p < cap ->
           load acc ch p
           = if (0 <=? ch) && (ch <? c) && ((p - wp) mod cap <? n)
             then vget 0%Q (vget [] source ch) ((p - wp) mod cap) else load buf ch p));
      [lia| |].
    - split; [exact Hshape|]. intros ch p Hp.
      destruct (Z.leb_spec 0 ch), (Z.ltb_spec ch 0); cbn [andb]; try reflexivity; lia.
    - intros c acc Hc [Hsh Hcells]. cbv zeta.
      destruct (write_channel_spec nc cap acc c (vget [] source c) wp n Hsh Hc Hwp Hn)
        as [Hsh' Hcells'].
      cbv zeta in Hsh', Hcells'. split; [exact Hsh'|]. intros ch p Hp.
      rewrite Hcells' by exact Hp. rewrite Hcells by exact Hp.
      destruct (Z.eqb_spec ch c) as [->|Hne]; cbn [andb].
      + destruct (Z.leb_spec 0 c), (Z.ltb_spec c c), (Z.ltb_spec c (c + 1)); try lia.
        cbn [andb]. destruct (_ <? n); reflexivity.
      + destruct (Z.leb_spec 0 ch), (Z.ltb_spec ch c), (Z.ltb_spec ch (c + 1));
          cbn [andb]; try reflexivity; lia. }
  cbv zeta in Hinv. destruct Hinv as [Hsh Hcells]. split; [exact Hsh|].
  intros ch p Hch Hp. rewrite Hcells by exact Hp.
  destruct (Z.leb_spec 0 ch), (Z.ltb_spec ch nc); cbn [andb]; try reflexivity; lia.
Qed.

Lemma vget_app (l1 l2 : list Q) a :
  vget 0%Q (l1 ++ l2) a
  = if a <? Z.of_nat (length l1) then vget 0%Q l1 a
    else vget 0%Q l2 (a - Z.of_nat (length l1)).
Proof.
  unfold vget. destruct (Z.ltb_spec a 0) as [Hneg|Hpos].
  { destruct (Z.ltb_spec a (Z.of_nat (length l1))); [reflexivity | lia]. }
  destruct (Z.ltb_spec a (Z.of_nat (length l1))) as [Hlt|Hge].
  - rewrite lookup_app_l by lia. reflexivity.
  - destruct (Z.ltb_spec (a - Z.of_nat (length l1)) 0); [lia|].
    rewrite lookup_app_r by lia. do 2 f_equal. lia.
Qed.

Lemma streamLength_snoc blocks block :
  streamLength (blocks ++ [block]) = streamLength blocks + numSamples block.
Proof.
  unfold streamLength. induction blocks as [|x l IH]; cbn [app foldr]; [lia|].
  rewrite IH. lia.
Qed.

Lemma streamOf_snoc blocks block ch :
  streamOf (blocks ++ [block]) ch = streamOf blocks ch ++ vget [] (channels block) ch.
Proof.
  unfold streamOf. rewrite fmap_app, concat_app. cbn. by rewrite app_nil_r.
Qed.

Lemma accepted_channel nc cap block ch :
  accepted nc cap block -> 0 <= ch < nc ->
  Z.of_nat (length (vget [] (channels block) ch)) = numSamples block.
Proof.
  intros (Hnc & _ & Hall) Hch.
  apply (shaped_channel nc (numSamples block)); [|exact Hch]. by split.
Qed.

Lemma streamOf_length nc cap blocks ch :
  Forall (accepted nc cap) blocks -> 0 <= ch < nc ->
  Z.of_nat (length (streamOf blocks ch)) = streamLength blocks.
Proof.
  intros Hall Hch. induction blocks as [|x l IH] using rev_ind; [reflexivity|].
  apply Forall_app in Hall as [Hl Hx]. rewrite Forall_singleton in Hx.
  rewrite streamOf_snoc, streamLength_snoc, length_app, Nat2Z.inj_add.
  rewrite (IH Hl). by rewrite (accepted_channel nc cap x ch Hx Hch).
Qed.

Lemma streamLength_nonneg nc cap blocks :
  Forall (accepted nc cap) blocks -> 0 <= streamLength blocks.
Proof.
  intros Hall. induction Hall as [|x l Hx _ IH]; [done|].
  cbn. destruct Hx as (_ & ? & _). fold (streamLength l). lia.
Qed.

Lemma streamAt_snoc nc cap blocks block ch a :
  Forall (accepted nc cap) blocks -> 0 <= ch < nc ->
  streamAt (blocks ++ [block]) ch a
  = if a <? streamLength blocks then streamAt blocks ch a
    else vget 0%Q (vget [] (channels block) ch) (a - streamLength blocks).
Proof.
  intros Hall Hch. unfold streamAt. rewrite streamOf_snoc, vget_app.
  by rewrite (streamOf_length nc cap) by assumption.
Qed.

Lemma writeAll_snoc blocks block b :
  writeAll (blocks ++ [block]) b
  = writeSamples block (numSamples block) (writeAll blocks b).
Proof. unfold writeAll. by rewrite foldl_app. Qed.

Lemma load_zeros n m ch p : load (replicate n (replicate m 0%Q)) ch p = 0%Q.
Proof.
  unfold load, vget. destruct (ch <? 0); [by destruct (p <? 0)|].
  destruct (replicate n (replicate m 0%Q) !! Z.to_nat ch) as [c|] eqn:Hc; cbn.
  - apply lookup_replicate in Hc as [-> _]. destruct (p <? 0); [reflexivity|].
    destruct (replicate m 0%Q !! Z.to_nat p) as [x|] eqn:Hx; cbn; [|reflexivity].
    by apply lookup_replicate in Hx as [-> _].
  - by destruct (p <? 0).
Qed.

Lemma create_holdsLatest nc cap :
  0 < cap -> 0 <= nc -> holdsLatest nc cap [] (create nc cap).
Proof.
  intros Hcap Hnc. unfold holdsLatest, create. cbn.
  split; [reflexivity|]. split; [reflexivity|]. split.
  - split; [rewrite length_replicate; lia|].
    apply Forall_replicate. rewrite length_replicate. lia.
  - split; [by rewrite Z.mod_0_l by lia|].
    intros ch a _ Ha. rewrite load_zeros. unfold streamAt, vget.
    destruct (a <? 0); reflexivity.
Qed.

Lemma writeSamples_holdsLatest nc cap blocks block b :
  0 < cap -> 0 <= nc ->
  Forall (accepted nc cap) blocks -> accepted nc cap block ->
  holdsLatest nc cap blocks b ->
  holdsLatest nc cap (blocks ++ [block]) (writeSamples block (numSamples block) b).
Proof.
  intros Hcap Hnc Hall Hblock (Hn & Hc & Hshape & Hwp & Hcells).
  pose proof Hblock as (Hbn & Hbs & _).
  pose proof (streamLength_nonneg nc cap blocks Hall) as HT.
  set (T := streamLength blocks) in *. set (n := numSamples block) in *.
  pose proof (Z.mod_pos_bound T cap Hcap) as Hwpb.
  unfold writeSamples. rewrite Hn, Hc, Hbn, Z.eqb_refl. cbn [negb orb].
  destruct (Z.gtb_spec n cap); [lia|]. destruct (Z.ltb_spec n 0); [lia|]. cbn [orb].
  cbv zeta.
  destruct (write_block_spec nc cap (buffer b) (channels block) (writePosition b) n
              Hshape Hnc ltac:(rewrite Hwp; exact Hwpb) ltac:(lia)) as [Hsh' Hcells'].
  cbv zeta in Hsh', Hcells'.
  unfold holdsLatest. cbn [numChannels capacitySamples buffer writePosition].
  split; [reflexivity|]. split; [reflexivity|]. split; [exact Hsh'|].
  rewrite streamLength_snoc. fold T n. split.
  - rewrite Hwp, Z.rem_mod_nonneg by lia. by rewrite Zplus_mod_idemp_l.
  - intros ch a Hch Ha.
    pose proof (Z.mod_pos_bound a cap Hcap) as Hp.
    rewrite Hcells' by assumption. rewrite Hwp.
    rewrite (streamAt_snoc nc cap) by assumption. fold T.
    assert (Hoff : (a mod cap - T mod cap) mod cap = (a - T) mod cap)
      by (by rewrite <- Zminus_mod).
    rewrite Hoff.
    destruct (Z.ltb_spec a T) as [Hold|Hnew].
    + assert (Hd : (a - T) mod cap = a - T + cap).
      { symmetry. apply (Z.mod_unique _ _ (-1)); lia. }
      rewrite Hd. destruct (Z.ltb_spec (a - T + cap) n); [lia|].
      apply Hcells; [exact Hch | lia].
    + rewrite Z.mod_small by lia.
      destruct (Z.ltb_spec (a - T) n); [reflexivity | lia].
Qed.

Lemma writeAll_holdsLatest nc cap blocks :
  0 < cap -> 0 <= nc -> Forall (accepted nc cap) blocks ->
  holdsLatest nc cap blocks (writeAll blocks (create nc cap)).
Proof.
  intros Hcap Hnc Hall. induction blocks as [|x l IH] using rev_ind.
  - by apply create_holdsLatest.
  - apply Forall_app in Hall as [Hl Hx]. rewrite Forall_singleton in Hx.
    rewrite writeAll_snoc. apply writeSamples_holdsLatest; auto.
Qed.

Lemma copy_spec (data : list Q) start n :
  0 <= start -> 0 <= n -> start + n <= Z.of_nat (length data) ->
  copy data start n = (fun i => vget 0%Q data (start + i)) <$> seqZ 0 n.
Proof.
  intros Hs Hn Hlen. unfold copy. apply list_eq. intros i.
  rewrite list_lookup_fmap.
  destruct (decide (i < Z.to_nat n)%nat) as [Hi|Hi].
  - rewrite lookup_take_lt by exact Hi. rewrite lookup_drop.
    rewrite lookup_seqZ_lt by lia. cbn.
    unfold vget. destruct (Z.ltb_spec (start + (0 + Z.of_nat i)) 0); [lia|].
    replace (Z.to_nat (start + (0 + Z.of_nat i))) with (Z.to_nat start + i)%nat by lia.
    destruct (data !! (Z.to_nat start + i)%nat) as [x|] eqn:Hx; [reflexivity|].
    apply lookup_ge_None in Hx. lia.
  - rewrite lookup_take_ge by lia. rewrite lookup_seqZ_ge by lia. reflexivity.
Qed.

Lemma seqZ_split m n k : 0 <= m -> 0 <= n -> seqZ k (m + n) = seqZ k m ++ seqZ (k + m) n.
Proof. intros Hm Hn. by apply seqZ_app. Qed.

(** The two cases of [readLastNSeconds] read the same cells. *)
Lemma copy_wrapped (data : list Q) cap sp k :
  Z.of_nat (length data) = cap -> 0 <= sp < cap -> 0 <= k <= cap ->
  (if sp + k <=? cap then copy data sp k
   else copy data sp (cap - sp) ++ copy data 0 (k - (cap - sp)))
  = (fun i => vget 0%Q data ((sp + i) mod cap)) <$> seqZ 0 k.
Proof.
  intros Hlen Hsp Hk. destruct (Z.leb_spec (sp + k) cap) as [Hfit|Hwrap].
  - rewrite copy_spec by lia. apply list_fmap_ext. intros i x Hx.
    apply lookup_seqZ in Hx as [-> Hi]. by rewrite Z.mod_small by lia.
  - rewrite !copy_spec by lia.
    replace (seqZ 0 k) with (seqZ 0 ((cap - sp) + (k - (cap - sp)))) by (f_equal; lia).
    rewrite seqZ_split by lia. rewrite fmap_app. f_equal.
    + apply list_fmap_ext. intros i x Hx.
      apply lookup_seqZ in Hx as [-> Hi]. by rewrite Z.mod_small by lia.
    + replace (seqZ (0 + (cap - sp)) (k - (cap - sp)))
        with (Z.add (cap - sp) <$> seqZ 0 (k - (cap - sp)))
        by (rewrite fmap_add_seqZ; f_equal; lia).
      rewrite <- list_fmap_compose.
      apply list_fmap_ext. intros i x Hx. apply lookup_seqZ in Hx as [-> Hi]. cbn.
      f_equal. apply (Z.mod_unique _ _ 1); lia.
Qed.

(** X26: a reader of a ring of capacity cap gets back what was written.
    After any sequence of accepted blocks written to a new buffer, the
    write position is the number of samples written modulo cap; every
    absolute position of the last cap samples written reads back, with
    getSampleAt, the sample written at that position; readSamplesAt
    returns, channel by channel, the n samples of the stream from position
    start on whenever these are among the last cap samples written, and
    fails for n <= 0, n > cap or a negative position. *)
Theorem ring_reads_back_what_was_written (nc cap : Z) (blocks : list AudioBuffer) :
  0 < cap -> 0 <= nc -> Forall (accepted nc cap) blocks ->
  let b := writeAll blocks (create nc cap) in
  let T := streamLength blocks in
  getWritePosition b = T mod cap
  /\ (forall ch a, 0 <= ch < nc -> 0 <= a -> T - cap <= a < T ->
        getSampleAt ch a b = streamAt blocks ch a)
  /\ (forall start n, 0 <= start -> 1 <= n -> T - cap <= start -> start + n <= T ->
        readSamplesAt start n b
        = Some (mkBuffer n
                  ((fun ch => (fun i => streamAt blocks ch (start + i)) <$> seqZ 0 n)
                   <$> seqZ 0 nc)))
  /\ (forall start n, n <= 0 \/ cap < n \/ start < 0 -> readSamplesAt start n b = None).
Proof.
  intros Hcap Hnc Hall b T.
  destruct (writeAll_holdsLatest nc cap blocks Hcap Hnc Hall)
    as (Hn & Hc & Hshape & Hwp & Hcells).
  fold b in Hn, Hc, Hshape, Hwp, Hcells. fold T in Hwp, Hcells.
  split; [exact Hwp|]. split.
  { intros ch a Hch Ha0 Ha. unfold getSampleAt. rewrite Hc.
    rewrite Z.rem_mod_nonneg by lia. by apply Hcells. }
  split.
  { intros start n Hs Hn1 Hlo Hhi. unfold readSamplesAt. rewrite Hc, Hn.
    destruct (Z.leb_spec n 0); [lia|]. destruct (Z.gtb_spec n cap); [lia|].
    destruct (Z.ltb_spec start 0); [lia|]. cbn [orb]. do 2 f_equal.
    apply list_fmap_ext. intros j ch Hj. apply lookup_seqZ in Hj as [-> Hj].
    apply list_fmap_ext. intros i x Hx. apply lookup_seqZ in Hx as [-> Hi].
    rewrite Z.rem_mod_nonneg by lia. apply Hcells; lia. }
  intros start n Hbad. unfold readSamplesAt. rewrite Hc.
  destruct (Z.leb_spec n 0); [reflexivity|]. destruct (Z.gtb_spec n cap); [reflexivity|].
  destruct (Z.ltb_spec start 0); [reflexivity | lia].
Qed.

(** The theorem at work: three mono blocks of two samples in a ring of
    four cells; the samples 3, 4, 5, 6 are the latest four. *)
Lemma ring_reads_back_what_was_written_witness :
  let blocks := [mkBuffer 2 [[1; 2]%Q]; mkBuffer 2 [[3; 4]%Q]; mkBuffer 2 [[5; 6]%Q]] in
  readSamplesAt 2 4 (writeAll blocks (create 1 4))
  = Some (mkBuffer 4 ((fun ch => (fun i => streamAt blocks ch (2 + i)) <$> seqZ 0 4)
                      <$> seqZ 0 1)).
Proof.
  cbv zeta.
  pose proof (ring_reads_back_what_was_written 1 4
                [mkBuffer 2 [[1; 2]%Q]; mkBuffer 2 [[3; 4]%Q]; mkBuffer 2 [[5; 6]%Q]]
                ltac:(lia) ltac:(lia)
                ltac:(repeat constructor; cbn; lia))
    as (_ & _ & H & _).
  apply (H 2 4); cbn; lia.
Defined.

(** X27: [readLastNSeconds] returns the latest samples of the stream.  For
    a request of r = (int)(duration * rate) >= 0 samples, after any
    sequence of accepted blocks written to a new buffer, it reads k =
    min(r, cap) samples and returns, channel by channel, the last k
    samples written, in order, preceded by silence where fewer than k
    samples have been written. *)
Theorem ring_reads_latest_seconds (nc cap : Z) (blocks : list AudioBuffer)
    (duration_seconds sample_rate : Q) :
  0 < cap -> 0 <= nc -> Forall (accepted nc cap) blocks ->
  0 <= Qtrunc (duration_seconds * sample_rate) ->
  let b := writeAll blocks (create nc cap) in
  let T := streamLength blocks in
  let k := Z.min (Qtrunc (duration_seconds * sample_rate)) cap in
  readLastNSeconds duration_seconds sample_rate b
  = (mkBuffer k ((fun ch => (fun i => streamAt blocks ch (T - k + i)) <$> seqZ 0 k)
                 <$> seqZ 0 nc), k).
Proof.
  intros Hcap Hnc Hall Hreq b T k.
  destruct (writeAll_holdsLatest nc cap blocks Hcap Hnc Hall)
    as (Hn & Hc & Hshape & Hwp & Hcells).
  fold b in Hn, Hc, Hshape, Hwp, Hcells. fold T in Hwp, Hcells.
  unfold readLastNSeconds. rewrite Hc, Hn, Hwp. fold k. cbv zeta.
  pose proof (Z.mod_pos_bound T cap Hcap) as Hwpb.
  set (sp := if T mod cap - k <? 0 then T mod cap - k + cap else T mod cap - k).
  assert (Hsp : 0 <= sp < cap /\ (sp = T mod cap - k \/ sp = T mod cap - k + cap)).
  { subst sp k. destruct (Z.ltb_spec (T mod cap - Z.min (Qtrunc (duration_seconds * sample_rate)) cap) 0); lia. }
  destruct Hsp as [Hspb Hspv].
  do 2 f_equal. apply list_fmap_ext. intros j ch Hj. apply lookup_seqZ in Hj as [-> Hj].
  rewrite (copy_wrapped _ cap) by
    (first [apply (shaped_channel nc cap); [exact Hshape | lia] | lia | subst k; lia]).
  apply list_fmap_ext. intros i x Hx. apply lookup_seqZ in Hx as [-> Hi].
  change (vget 0%Q (vget [] (buffer b) (0 + Z.of_nat j)) ((sp + (0 + Z.of_nat i)) mod cap))
    with (load (buffer b) (0 + Z.of_nat j) ((sp + (0 + Z.of_nat i)) mod cap)).
  assert (Hcell : (sp + (0 + Z.of_nat i)) mod cap = (T - k + (0 + Z.of_nat i)) mod cap).
  { destruct Hspv as [->| ->].
    - rewrite <- Zplus_mod_idemp_l, <- Zminus_mod_idemp_l.
      rewrite Z.mod_mod by lia. rewrite Zminus_mod_idemp_l, Zplus_mod_idemp_l. reflexivity.
    - replace (T mod cap - k + cap + (0 + Z.of_nat i))
        with (T mod cap - k + (0 + Z.of_nat i) + 1 * cap) by lia.
      rewrite Z.mod_add by lia.
      rewrite <- Zplus_mod_idemp_l, <- Zminus_mod_idemp_l.
      rewrite Z.mod_mod by lia. rewrite Zminus_mod_idemp_l, Zplus_mod_idemp_l. reflexivity. }
  rewrite Hcell. apply Hcells; subst k; lia.
Qed.

(** The theorem at work on the ring of the previous example: half a
    second at 6 Hz is the latest three samples. *)
Lemma ring_reads_latest_seconds_witness :
  let blocks := [mkBuffer 2 [[1; 2]%Q]; mkBuffer 2 [[3; 4]%Q]; mkBuffer 2 [[5; 6]%Q]] in
  snd (readLastNSeconds (1 # 2) 6 (writeAll blocks (create 1 4))) = 3.
Proof.
  cbv zeta.
  rewrite (ring_reads_latest_seconds 1 4
             [mkBuffer 2 [[1; 2]%Q]; mkBuffer 2 [[3; 4]%Q]; mkBuffer 2 [[5; 6]%Q]]
             (1 # 2) 6 ltac:(lia) ltac:(lia)
             ltac:(repeat constructor; cbn; lia) ltac:(by_compute)).
  reflexivity.
Defined.

(** X28: writing one sample in place.  In a buffer of nc channels of cap
    cells, [setSampleAt] at channel ch and absolute position a changes what
    [getSampleAt] returns exactly for channel ch at the positions that
    differ from a by a multiple of cap, which share its cell; every other
    sample, the write position and the shape of the buffer stay as they
    were. *)
Theorem setSampleAt_then_getSampleAt (b : t) (ch a : Z) (value : Q) :
  0 < capacitySamples b ->
  shaped (numChannels b) (capacitySamples b) (buffer b) ->
  0 <= ch < numChannels b -> 0 <= a ->
  let b' := setSampleAt ch a value b in
  (forall ch' a', 0 <= a' ->
     getSampleAt ch' a' b'
     = if (ch' =? ch) && (a' mod capacitySamples b =? a mod capacitySamples b)
       then value else getSampleAt ch' a' b)
  /\ getWritePosition b' = getWritePosition b
  /\ shaped (numChannels b') (capacitySamples b') (buffer b').
Proof.
  intros Hcap Hshape Hch Ha b'. subst b'. unfold setSampleAt, getSampleAt.
  cbn [buffer capacitySamples numChannels getWritePosition writePosition].
  split; [|split; [reflexivity | by apply store_shaped]].
  intros ch' a' Ha'. rewrite !Z.rem_mod_nonneg by lia.
  apply (load_store (numChannels b) (capacitySamples b)); [exact Hshape | exact Hch|].
  by apply Z.mod_pos_bound.
Qed.

(** The theorem at work: in a new mono ring of four cells, position 6
    shares the cell of position 2. *)
Lemma setSampleAt_then_getSampleAt_witness :
  getSampleAt 0 6 (setSampleAt 0 2 (1 # 2) (create 1 4)) = (1 # 2)%Q.
Proof.
  pose proof (setSampleAt_then_getSampleAt (create 1 4) 0 2 (1 # 2)
                ltac:(cbn; lia) ltac:(split; [reflexivity | repeat constructor]) ltac:(cbn; lia) ltac:(lia))
    as (H & _).
  rewrite (H 0 6) by lia. reflexivity.
Defined.

End CircularAudioBufferFacts.

Module WordAlignmentFacts.
Import Text LyricsAlignment WordAlignment LoopFacts.

Lemma mshaped_row r c matrix i :
  mshaped r c matrix -> 0 <= i < r -> Z.of_nat (length (vget [] matrix i)) = c.
Proof.
  intros [Hlen Hall] Hi. unfold vget. destruct (Z.ltb_spec i 0); [lia|].
  destruct (matrix !! Z.to_nat i) as [row|] eqn:Hrow.
  - cbn. rewrite Forall_lookup in Hall. by apply (Hall _ _ Hrow).
  - apply lookup_ge_None in Hrow. lia.
Qed.

Lemma mset_mshaped r c matrix i j x : mshaped r c matrix -> mshaped r c (mset matrix i j x).
Proof.
  intros [Hlen Hall]. unfold mset. split; [by rewrite length_vset|].
  unfold vset at 1. destruct (i <? 0) eqn:Hneg; [exact Hall|].
  destruct (matrix !! Z.to_nat i) as [row|] eqn:Hrow.
  - apply Forall_insert; [exact Hall|].
    rewrite length_vset. unfold vget. rewrite Hneg, Hrow. cbn.
    rewrite Forall_lookup in Hall. by apply (Hall _ _ Hrow).
  - apply lookup_ge_None in Hrow. by rewrite list_insert_ge.
Qed.

Lemma mget_mset r c matrix i j x i' j' :
  mshaped r c matrix -> 0 <= i < r -> 0 <= j < c ->
  mget (mset matrix i j x) i' j'
  = if (i' =? i) && (j' =? j) then x else mget matrix i' j'.
Proof.
  intros Hshape Hi Hj. unfold mget, mset.
  pose proof (mshaped_row r c matrix i Hshape Hi) as Hrow.
  destruct Hshape as [Hlen _].
  rewrite vget_vset by lia.
  destruct (Z.eqb_spec i i') as [<-|Hne].
  - rewrite Z.eqb_refl. cbn [andb]. rewrite vget_vset by lia.
    destruct (Z.eqb_spec j j') as [<-|Hne]; [by rewrite Z.eqb_refl|].
    destruct (Z.eqb_spec j' j); [lia | reflexivity].
  - destruct (Z.eqb_spec i' i); [lia | reflexivity].
Qed.

(** The first row of the matrix counts the insertions. *)
Lemma calculateEditDistance_first_row seq1 seq2 j :
  0 <= j <= Z.of_nat (length seq2) ->
  mget (calculateEditDistance seq1 seq2) 0 j = j.
Proof.
  intros Hj. unfold calculateEditDistance.
  set (m := Z.of_nat (length seq1)). set (n := Z.of_nat (length seq2)) in *.
  cbv zeta.
  set (m0 := replicate (Z.to_nat (m + 1)) (replicate (Z.to_nat (n + 1)) 0)).
  assert (H0 : mshaped (m + 1) (n + 1) m0).
  { subst m0. split; [rewrite length_replicate; lia|].
    apply Forall_replicate. rewrite length_replicate. lia. }
  set (m1 := for_loop 0 (m + 1) (fun i matrix => mset matrix i 0 i) m0).
  assert (H1 : mshaped (m + 1) (n + 1) m1).
  { subst m1. apply (for_loop_ind (fun _ mat => mshaped (m + 1) (n + 1) mat)); [lia|exact H0|].
    intros i acc _ Hacc. by apply mset_mshaped. }
  set (m2 := for_loop 0 (n + 1) (fun j matrix => mset matrix 0 j j) m1).
  assert (H2 : mshaped (m + 1) (n + 1) m2
               /\ forall j', 0 <= j' < n + 1 -> mget m2 0 j' = j').
  { subst m2.
    apply (for_loop_ind (fun k mat =>
             mshaped (m + 1) (n + 1) mat
             /\ forall j', 0 <= j' < k -> mget mat 0 j' = j')); [lia| |].
    - split; [exact H1|]. intros j' Hj'. lia.
    - intros k acc Hk [Hsh Hrow]. split; [by apply mset_mshaped|].
      intros j' Hj'. rewrite (mget_mset (m + 1) (n + 1)) by (first [exact Hsh | lia]).
      rewrite Z.eqb_refl. cbn [andb].
      destruct (Z.eqb_spec j' k) as [->|Hne]; [reflexivity|]. apply Hrow. lia. }
  destruct H2 as [H2 Hrow].
  assert (H3 : forall mat : list (list Z),
            mshaped (m + 1) (n + 1) mat ->
            let out := for_loop 1 (m + 1) (fun i matrix =>
              for_loop 1 (n + 1) (fun j matrix =>
                if String.eqb (vget EmptyString seq1 (i - 1)) (vget EmptyString seq2 (j - 1))
                then mset matrix i j (mget matrix (i - 1) (j - 1))
                else mset matrix i j
                       (1 + min3 (mget matrix (i - 1) j) (mget matrix i (j - 1))
                                 (mget matrix (i - 1) (j - 1)))) matrix) mat in
            mshaped (m + 1) (n + 1) out /\ forall j', mget out 0 j' = mget mat 0 j').
  { intros mat Hmat. cbv zeta.
    apply (for_loop_ind (fun _ acc =>
             mshaped (m + 1) (n + 1) acc /\ forall j', mget acc 0 j' = mget mat 0 j'));
      [lia | by split |].
    intros i acc Hi [Hsh Hsame].
    apply (for_loop_ind (fun _ acc' =>
             mshaped (m + 1) (n + 1) acc' /\ forall j', mget acc' 0 j' = mget mat 0 j'));
      [lia | by split |].
    intros k acc' Hk [Hsh' Hsame'].
    destruct (String.eqb _ _).
    - split; [by apply mset_mshaped|]. intros j'.
      rewrite (mget_mset (m + 1) (n + 1)) by (first [exact Hsh' | lia]).
      destruct (Z.eqb_spec 0 i); [lia|]. cbn [andb]. apply Hsame'.
    - split; [by apply mset_mshaped|]. intros j'.
      rewrite (mget_mset (m + 1) (n + 1)) by (first [exact Hsh' | lia]).
      destruct (Z.eqb_spec 0 i); [lia|]. cbn [andb]. apply Hsame'. }
  destruct (H3 m2 H2) as [_ Hsame]. cbv zeta in Hsame.
  rewrite Hsame. apply Hrow. lia.
Qed.

Lemma reverse_seqZ_succ j : 0 < j -> reverse (seqZ 0 j) = (j - 1) :: reverse (seqZ 0 (j - 1)).
Proof.
  intros Hj. replace j with ((j - 1) + 1) at 1 by lia.
  rewrite seqZ_app by lia. rewrite reverse_app. reflexivity.
Qed.

(** With the first row of [calculateEditDistance] the loop ends, and it
    has met every lyrics word once, from the last to the first. *)
Lemma backtrackLoop_spec matrix tw lw :
  (forall j, 0 < j <= Z.of_nat (length lw) -> mget matrix 0 j = mget matrix 0 (j - 1) + 1) ->
  forall fuel i j al,
    0 <= i <= Z.of_nat (length tw) -> 0 <= j <= Z.of_nat (length lw) ->
    (Z.to_nat (i + j) <= fuel)%nat ->
    exists al',
      backtrackLoop fuel matrix tw lw i j al = Some (al ++ al')
      /\ al'.*2 = reverse (seqZ 0 j)
      /\ Forall (fun a => -1 <= a.1 < i) al'.
Proof.
  intros Hrow. induction fuel as [|fuel IH]; intros i j al Hi Hj Hfuel.
  - assert (i = 0 /\ j = 0) as [-> ->] by lia.
    exists []. cbn. split; [by rewrite app_nil_r|]. by split.
  - cbn [backtrackLoop].
    destruct (Z.gtb_spec i 0) as [Hi0|Hi0], (Z.gtb_spec j 0) as [Hj0|Hj0]; cbn [orb andb].
    + (* both positive *)
      assert (Hdiag : exists al',
                backtrackLoop fuel matrix tw lw (i - 1) (j - 1) (al ++ [(i - 1, j - 1)])
                = Some (al ++ al')
                /\ al'.*2 = reverse (seqZ 0 j) /\ Forall (fun a => -1 <= a.1 < i) al').
      { destruct (IH (i - 1) (j - 1) (al ++ [(i - 1, j - 1)]) ltac:(lia) ltac:(lia) ltac:(lia))
          as (al' & Heq & Hsnd & Hfst).
        exists ((i - 1, j - 1) :: al'). rewrite Heq, <- app_assoc. split; [reflexivity|].
        split; [rewrite fmap_cons, Hsnd; cbn [snd]; by rewrite (reverse_seqZ_succ j) by lia|].
        constructor; [cbn; lia|]. eapply Forall_impl; [exact Hfst|]. cbn. intros; lia. }
      destruct (String.eqb _ _); [exact Hdiag|].
      destruct (_ =? _); [exact Hdiag|].
      destruct (_ =? _).
      * destruct (IH i (j - 1) (al ++ [(-1, j - 1)]) ltac:(lia) ltac:(lia) ltac:(lia))
          as (al' & Heq & Hsnd & Hfst).
        exists ((-1, j - 1) :: al'). rewrite Heq, <- app_assoc. split; [reflexivity|].
        split; [rewrite fmap_cons, Hsnd; cbn [snd]; by rewrite (reverse_seqZ_succ j) by lia|].
        constructor; [cbn; lia | exact Hfst].
      * destruct (IH (i - 1) j al ltac:(lia) ltac:(lia) ltac:(lia))
          as (al' & Heq & Hsnd & Hfst).
        exists al'. split; [exact Heq|]. split; [exact Hsnd|].
        eapply Forall_impl; [exact Hfst|]. cbn. intros; lia.
    + (* only transcribed words left *)
      assert (j = 0) as -> by lia.
      destruct (IH (i - 1) 0 al ltac:(lia) ltac:(lia) ltac:(lia))
        as (al' & Heq & Hsnd & Hfst).
      exists al'. split; [exact Heq|]. split; [exact Hsnd|].
      eapply Forall_impl; [exact Hfst|]. cbn. intros; lia.
    + (* only lyrics words left *)
      assert (i = 0) as -> by lia.
      rewrite (Hrow j) by lia. rewrite Z.eqb_refl.
      destruct (IH 0 (j - 1) (al ++ [(-1, j - 1)]) ltac:(lia) ltac:(lia) ltac:(lia))
        as (al' & Heq & Hsnd & Hfst).
      exists ((-1, j - 1) :: al'). rewrite Heq, <- app_assoc. split; [reflexivity|].
      split; [rewrite fmap_cons, Hsnd; cbn [snd]; by rewrite (reverse_seqZ_succ j) by lia|].
      constructor; [cbn; lia | exact Hfst].
    + exists []. cbn. split; [by rewrite app_nil_r|].
      assert (j = 0) as -> by lia. by split.
Qed.

Lemma correctedSegments_snoc lw tw al a :
  correctedSegments lw tw (al ++ [a])
  = (let '(trans_idx, lyrics_idx) := a in
     let correctedSegments := correctedSegments lw tw al in
     if (trans_idx >=? 0) && (lyrics_idx >=? 0) then
       let original := vget (mkWord EmptyString 0 0 0) tw trans_idx in
       correctedSegments
       ++ [mkWord (vget EmptyString lw lyrics_idx)
                  (start original) (end_ original) (confidence original * (95 # 100))%Q]
     else if lyrics_idx >=? 0 then
       let estimatedStart :=
         match last correctedSegments with
         | Some back => end_ back
         | None => 0%Q
         end in
       let estimatedEnd := (estimatedStart + (3 # 10))%Q in
       correctedSegments
       ++ [mkWord (vget EmptyString lw lyrics_idx) estimatedStart estimatedEnd (5 # 10)]
     else correctedSegments).
Proof. unfold correctedSegments. rewrite fold_left_app. by destruct a. Qed.

Lemma correctedSegments_spec lw tw al :
  Forall (fun a => 0 <= a.2 /\ -1 <= a.1 < Z.of_nat (length tw)) al ->
  word <$> correctedSegments lw tw al = (fun a => vget EmptyString lw a.2) <$> al
  /\ Forall (timedFrom tw) (correctedSegments lw tw al).
Proof.
  induction al as [|[t l] al IH] using rev_ind; intros Hall.
  - split; [reflexivity | constructor].
  - apply Forall_app in Hall as [Hal Ha]. rewrite Forall_singleton in Ha.
    cbn [fst snd] in Ha. destruct (IH Hal) as [Hwords Htimed].
    rewrite correctedSegments_snoc. cbv zeta.
    destruct (Z.geb_spec l 0); [|lia].
    destruct (Z.geb_spec t 0) as [Ht|Ht]; cbn [andb].
    + split.
      * rewrite !fmap_app, Hwords. reflexivity.
      * apply Forall_app. split; [exact Htimed|]. apply Forall_singleton.
        left. exists (vget (mkWord EmptyString 0 0 0) tw t). split; [|by cbn].
        unfold vget. destruct (Z.ltb_spec t 0); [lia|].
        destruct (tw !! Z.to_nat t) as [seg|] eqn:Hseg.
        -- cbn. by eapply list_elem_of_lookup_2.
        -- apply lookup_ge_None in Hseg. lia.
    + split.
      * rewrite !fmap_app, Hwords. reflexivity.
      * apply Forall_app. split; [exact Htimed|]. apply Forall_singleton.
        right. by cbn.
Qed.

Lemma vget_seqZ (l : list string) :
  (fun i => vget EmptyString l i) <$> seqZ 0 (Z.of_nat (length l)) = l.
Proof.
  apply list_eq. intros i. rewrite list_lookup_fmap.
  destruct (l !! i) as [x|] eqn:Hx.
  - pose proof (lookup_lt_Some _ _ _ Hx) as Hi.
    rewrite lookup_seqZ_lt by lia. cbn. unfold vget.
    destruct (Z.ltb_spec (0 + Z.of_nat i) 0); [lia|].
    replace (Z.to_nat (0 + Z.of_nat i)) with i by lia. by rewrite Hx.
  - apply lookup_ge_None in Hx. by rewrite lookup_seqZ_ge by lia.
Qed.

(** X29: [alignLyricsToTranscription] always ends.  It returns the
    transcription unchanged when the lyrics are empty or hold no word or
    nothing was transcribed; otherwise the words it returns are all the
    words of the lyrics, in order and once each, whatever was transcribed,
    and every one of them carries either the times of a transcribed word
    at 95% of its confidence or an estimate of 0.3 s at confidence 0.5. *)
Theorem alignLyricsToTranscription_spells_lyrics (transcribedWords : list WordSegment)
    (lyrics : string) :
  exists out,
    alignLyricsToTranscription transcribedWords lyrics = Some out
    /\ if String.eqb lyrics EmptyString || bool_decide (transcribedWords = [])
          || bool_decide (splitIntoWords lyrics = [])
       then out = transcribedWords
       else word <$> out = splitIntoWords lyrics
            /\ Forall (timedFrom transcribedWords) out.
Proof.
  unfold alignLyricsToTranscription.
  destruct (String.eqb lyrics EmptyString || bool_decide (transcribedWords = []));
    [by exists transcribedWords|].
  cbv zeta. cbn [orb].
  destruct (bool_decide (splitIntoWords lyrics = [])); [by exists transcribedWords|].
  set (tt := (fun seg => normalizeText (word seg)) <$> transcribedWords).
  set (lw := splitIntoWords lyrics).
  destruct (backtrackLoop_spec (calculateEditDistance tt lw) tt lw
              ltac:(intros j Hj; rewrite !calculateEditDistance_first_row by lia; lia)
              (length tt + length lw) (Z.of_nat (length tt)) (Z.of_nat (length lw)) []
              ltac:(lia) ltac:(lia) ltac:(lia)) as (al & Heq & Hsnd & Hfst).
  unfold backtrackAlignment. cbv zeta. rewrite Heq. cbn [app].
  eexists. split; [reflexivity|].
  assert (Hall : Forall (fun a => 0 <= a.2 /\ -1 <= a.1 < Z.of_nat (length transcribedWords))
                   (reverse al)).
  { apply Forall_reverse. apply Forall_forall. intros a Ha. split.
    - assert (Hin : a.2 ∈ al.*2) by (by apply list_elem_of_fmap_2).
      rewrite Hsnd in Hin. apply elem_of_reverse, elem_of_seqZ in Hin. lia.
    - rewrite Forall_forall in Hfst. specialize (Hfst a Ha). cbn in Hfst.
      subst tt. rewrite length_fmap in Hfst. lia. }
  destruct (correctedSegments_spec lw transcribedWords (reverse al) Hall) as [Hwords Htimed].
  split; [|exact Htimed]. rewrite Hwords.
  transitivity ((fun i => vget EmptyString lw i) <$> (reverse al).*2);
    [by rewrite <- list_fmap_compose|].
  rewrite fmap_reverse, Hsnd, reverse_involutive. apply vget_seqZ.
Qed.

End WordAlignmentFacts.

Module ResamplerFacts.
Import Resampler LoopFacts.

Lemma resample_loop sampleRate input n :
  0 <= n ->
  let out := for_loop 0 n
      (fun i output =>
         let size := Z.of_nat (length input) in
         let ratio := (inject_Z sampleRate / 16000)%Q in
         let srcPos := (inject_Z i * ratio)%Q in
         let srcIndex := Qtrunc srcPos in
         let frac := (srcPos - inject_Z srcIndex)%Q in
         if srcIndex + 1 <? size
         then vset output i (vget 0%Q input srcIndex * (1 - frac)
                             + vget 0%Q input (srcIndex + 1) * frac)%Q
         else vset output i (vget 0%Q input srcIndex))
      (replicate (Z.to_nat n) 0%Q) in
  Z.of_nat (length out) = n
  /\ forall i, 0 <= i < n -> vget 0%Q out i = interpolated sampleRate input i.
Proof.
  intros Hn. cbv zeta.
  assert (Hinv : forall k, 0 <= k <= n ->
    let out := for_loop 0 k
      (fun i output =>
         let size := Z.of_nat (length input) in
         let ratio := (inject_Z sampleRate / 16000)%Q in
         let srcPos := (inject_Z i * ratio)%Q in
         let srcIndex := Qtrunc srcPos in
         let frac := (srcPos - inject_Z srcIndex)%Q in
         if srcIndex + 1 <? size
         then vset output i (vget 0%Q input srcIndex * (1 - frac)
                             + vget 0%Q input (srcIndex + 1) * frac)%Q
         else vset output i (vget 0%Q input srcIndex))
      (replicate (Z.to_nat n) 0%Q) in
    Z.of_nat (length out) = n
    /\ forall i, 0 <= i < k -> vget 0%Q out i = interpolated sampleRate input i).
  { intros k Hk. cbv zeta.
    apply (for_loop_ind (fun k out =>
             Z.of_nat (length out) = n
             /\ forall i, 0 <= i < k -> vget 0%Q out i = interpolated sampleRate input i));
      [lia| |].
    - split; [rewrite length_replicate; lia | intros i Hi; lia].
    - intros i acc Hi [Hlen Hcells]. cbv zeta.
      assert (Hstore : forall x,
                Z.of_nat (length (vset acc i x)) = n
                /\ forall j, 0 <= j < i + 1 ->
                     vget 0%Q (vset acc i x) j
                     = if j =? i then x else interpolated sampleRate input j).
      { intros x. split; [by rewrite length_vset|]. intros j Hj.
        rewrite vget_vset by lia. rewrite (Z.eqb_sym j i).
        destruct (Z.eqb_spec i j); [reflexivity|]. apply Hcells. lia. }
      unfold interpolated in *. cbv zeta in *.
      destruct (Qtrunc (inject_Z i * (inject_Z sampleRate / 16000)) + 1
                <? Z.of_nat (length input)) eqn:Hc.
      + destruct (Hstore (vget 0%Q input (Qtrunc (inject_Z i * (inject_Z sampleRate / 16000)))
                          * (1 - (inject_Z i * (inject_Z sampleRate / 16000)
                                  - inject_Z (Qtrunc (inject_Z i * (inject_Z sampleRate / 16000)))))
                          + vget 0%Q input (Qtrunc (inject_Z i * (inject_Z sampleRate / 16000)) + 1)
                            * (inject_Z i * (inject_Z sampleRate / 16000)
                               - inject_Z (Qtrunc (inject_Z i * (inject_Z sampleRate / 16000)))))%Q)
          as [Hl Hv].
        split; [exact Hl|]. intros j Hj. rewrite Hv by exact Hj.
        destruct (Z.eqb_spec j i) as [->|]; [by rewrite Hc | reflexivity].
      + destruct (Hstore (vget 0%Q input (Qtrunc (inject_Z i * (inject_Z sampleRate / 16000)))))
          as [Hl Hv].
        split; [exact Hl|]. intros j Hj. rewrite Hv by exact Hj.
        destruct (Z.eqb_spec j i) as [->|]; [by rewrite Hc | reflexivity]. }
  apply (Hinv n). lia.
Qed.

Lemma srcPos_value sampleRate i :
  (inject_Z i * (inject_Z sampleRate / 16000) == inject_Z (i * sampleRate) / 16000)%Q.
Proof. rewrite inject_Z_mult. field. Qed.

Lemma Qtrunc_div_nonneg a b :
  0 <= a -> 0 < b -> Qtrunc (inject_Z a / inject_Z b) = a / b.
Proof.
  intros Ha Hb. rewrite Qtrunc_floor.
  - destruct b as [|p|p]; try lia.
    unfold Qdiv, Qmult, Qinv, inject_Z, Qfloor. cbn. f_equal; lia.
  - apply Qle_shift_div_l.
    + change 0%Q with (inject_Z 0). rewrite <- Zlt_Qlt. exact Hb.
    + rewrite Qmult_0_l. change 0%Q with (inject_Z 0). rewrite <- Zle_Qle. exact Ha.
Qed.

Lemma Qtrunc_eq q q' : (q == q')%Q -> (0 <= q)%Q -> Qtrunc q = Qtrunc q'.
Proof.
  intros Heq Hq. rewrite !Qtrunc_floor by (first [exact Hq | rewrite <- Heq; exact Hq]).
  by rewrite Heq.
Qed.

Lemma srcIndex_value sampleRate i :
  0 < sampleRate -> 0 <= i ->
  Qtrunc (inject_Z i * (inject_Z sampleRate / 16000)) = (i * sampleRate) / 16000.
Proof.
  intros Hsr Hi.
  rewrite (Qtrunc_eq _ (inject_Z (i * sampleRate) / inject_Z 16000)).
  - apply Qtrunc_div_nonneg; lia.
  - apply srcPos_value.
  - rewrite srcPos_value. apply Qle_shift_div_l; [reflexivity|].
    rewrite Qmult_0_l. change 0%Q with (inject_Z 0). rewrite <- Zle_Qle. lia.
Qed.

Lemma outputSize_value sampleRate size :
  0 < sampleRate -> 0 <= size ->
  Qtrunc (inject_Z size / (inject_Z sampleRate / 16000)) = (size * 16000) / sampleRate.
Proof.
  intros Hsr Hsize.
  assert (Hnz : ~ (inject_Z sampleRate == 0)%Q).
  { intros H. unfold Qeq in H. cbn in H. lia. }
  assert (Heq : (inject_Z size / (inject_Z sampleRate / 16000)
                 == inject_Z (size * 16000) / inject_Z sampleRate)%Q).
  { rewrite inject_Z_mult. change (inject_Z 16000) with 16000%Q. field. exact Hnz. }
  assert (Hpos : (0 <= inject_Z (size * 16000) / inject_Z sampleRate)%Q).
  { apply Qle_shift_div_l.
    - change 0%Q with (inject_Z 0). rewrite <- Zlt_Qlt. exact Hsr.
    - rewrite Qmult_0_l. change 0%Q with (inject_Z 0). rewrite <- Zle_Qle. lia. }
  rewrite (Qtrunc_eq _ _ Heq) by (rewrite Heq; exact Hpos).
  apply Qtrunc_div_nonneg; lia.
Qed.

Lemma vget_elem (input : list Q) i :
  0 <= i < Z.of_nat (length input) -> vget 0%Q input i ∈ input.
Proof.
  intros Hi. unfold vget. destruct (Z.ltb_spec i 0); [lia|].
  destruct (input !! Z.to_nat i) as [x|] eqn:Hx.
  - cbn. by eapply list_elem_of_lookup_2.
  - apply lookup_ge_None in Hx. lia.
Qed.

(** X30: for a positive sample rate, [resampleTo16kHz] returns the input
    itself at 16 kHz and otherwise floor(size * 16000 / sampleRate)
    samples, each interpolated between two neighbouring input samples.  No
    output sample leaves the range of the input samples, and when the
    sample rate is k times 16 kHz the output is every k-th input sample
    (in exact arithmetic). *)
Theorem resampleTo16kHz_stays_in_range (sampleRate : Z) (input : list Q) :
  0 < sampleRate ->
  let out := resampleTo16kHz sampleRate input in
  let size := Z.of_nat (length input) in
  let n := if sampleRate =? 16000 then size else (size * 16000) / sampleRate in
  Z.of_nat (length out) = n
  /\ (sampleRate = 16000 -> out = input)
  /\ (forall lo hi, (forall x, x ∈ input -> (lo <= x)%Q /\ (x <= hi)%Q) ->
        forall y, y ∈ out -> (lo <= y)%Q /\ (y <= hi)%Q)
  /\ (forall k, 0 < k -> sampleRate = k * 16000 ->
        forall i, 0 <= i < n -> (vget 0%Q out i == vget 0%Q input (k * i))%Q).
Proof.
  intros Hsr out size n. subst out. unfold resampleTo16kHz.
  destruct (Z.eqb_spec sampleRate 16000) as [->|Hne].
  { subst n. split; [reflexivity|]. split; [reflexivity|]. split; [auto|].
    intros k Hk Hkk i Hi. assert (k = 1) as -> by lia.
    by replace (1 * i) with i by lia. }
  cbv zeta. fold size.
  rewrite (outputSize_value sampleRate size Hsr ltac:(lia)). fold n.
  assert (Hn : 0 <= n) by (subst n; apply Z.div_pos; lia).
  destruct (resample_loop sampleRate input n Hn) as [Hlen Hcells].
  cbv zeta in Hlen, Hcells.
  match type of Hlen with
  | Z.of_nat (length ?l) = _ => set (out := l) in *
  end.
  change (for_loop 0 n _ (replicate (Z.to_nat n) 0%Q)) with out.
  split; [exact Hlen|]. split; [intros; lia|].
  assert (Hidx : forall i, 0 <= i < n ->
            0 <= (i * sampleRate) / 16000 < size).
  { intros i Hi. split; [apply Z.div_pos; lia|].
    apply Z.div_lt_upper_bound; [lia|].
    assert (Hmul : sampleRate * n <= size * 16000)
      by (subst n; apply Z.mul_div_le; lia).
    nia. }
  split.
  - intros lo hi Hrange y Hy. apply list_elem_of_lookup in Hy as [j Hj].
    pose proof (lookup_lt_Some _ _ _ Hj) as Hjn.
    assert (Hy : y = vget 0%Q out (Z.of_nat j)).
    { unfold vget. destruct (Z.ltb_spec (Z.of_nat j) 0); [lia|].
      by rewrite Nat2Z.id, Hj. }
    rewrite Hy, Hcells by lia. unfold interpolated. cbv zeta.
    rewrite (srcIndex_value sampleRate (Z.of_nat j) Hsr ltac:(lia)).
    specialize (Hidx (Z.of_nat j) ltac:(lia)).
    set (idx := Z.of_nat j * sampleRate / 16000) in *.
    destruct (Z.ltb_spec (idx + 1) (Z.of_nat (length input))) as [Hnext|Hlast].
    + destruct (Hrange _ (vget_elem input idx ltac:(fold size; lia))) as [Ha1 Ha2].
      destruct (Hrange _ (vget_elem input (idx + 1) ltac:(lia))) as [Hb1 Hb2].
      set (frac := (inject_Z (Z.of_nat j) * (inject_Z sampleRate / 16000) - inject_Z idx)%Q).
      assert (Hfrac : (0 <= frac)%Q /\ (frac <= 1)%Q).
      { subst frac. rewrite srcPos_value.
        assert (H16 : (0 < 16000)%Q) by reflexivity.
        pose proof (Z.div_mod (Z.of_nat j * sampleRate) 16000 ltac:(lia)) as Hdm.
        pose proof (Z.mod_pos_bound (Z.of_nat j * sampleRate) 16000 ltac:(lia)) as Hr.
        fold idx in Hdm.
        set (r := (Z.of_nat j * sampleRate) mod 16000) in *.
        rewrite Hdm. rewrite inject_Z_plus, inject_Z_mult.
        change (inject_Z 16000) with 16000%Q.
        assert (Hr0 : (0 <= inject_Z r)%Q)
          by (change 0%Q with (inject_Z 0); rewrite <- Zle_Qle; lia).
        assert (Hr1 : (inject_Z r <= 16000)%Q)
          by (change 16000%Q with (inject_Z 16000); rewrite <- Zle_Qle; lia).
        assert (Hfr : ((16000 * inject_Z idx + inject_Z r) / 16000 - inject_Z idx
                       == inject_Z r / 16000)%Q) by field.
        rewrite Hfr. split.
        - apply Qle_shift_div_l; [exact H16 | lra].
        - apply Qle_shift_div_r; [exact H16 | lra]. }
      destruct Hfrac as [Hf0 Hf1].
      generalize dependent frac. intros frac Hf0 Hf1.
      generalize dependent (vget 0%Q input idx).
      generalize dependent (vget 0%Q input (idx + 1)).
      intros b Hb1 Hb2 a Ha1 Ha2. split; nra.
    + apply Hrange. apply vget_elem. fold size. lia.
  - intros k Hk Hkk i Hi. rewrite Hcells by exact Hi. unfold interpolated. cbv zeta.
    rewrite (srcIndex_value sampleRate i Hsr ltac:(lia)).
    assert (Hdiv : i * sampleRate / 16000 = k * i).
    { rewrite Hkk. replace (i * (k * 16000)) with (k * i * 16000) by lia.
      apply Z.div_mul. lia. }
    rewrite Hdiv.
    destruct (k * i + 1 <? Z.of_nat (length input)); [|reflexivity].
    assert (Hfrac : (inject_Z i * (inject_Z sampleRate / 16000) - inject_Z (k * i) == 0)%Q).
    { rewrite Hkk, !inject_Z_mult. change (inject_Z 16000) with 16000%Q. field. }
    rewrite Hfrac. ring.
Qed.

(** The theorem at work: six samples at 48 kHz give two, the first and the
    fourth. *)
Lemma resampleTo16kHz_stays_in_range_witness :
  Z.of_nat (length (resampleTo16kHz 48000 [1; 2; 3; 4; 5; 6]%Q)) = 2.
Proof.
  pose proof (resampleTo16kHz_stays_in_range 48000 [1; 2; 3; 4; 5; 6]%Q ltac:(lia))
    as (H & _).
  exact H.
Defined.

End ResamplerFacts.
